(** * Void-and-cluster 3D dither arrays: a shallow embedding of
    [void-cluster-3d.cpp] and the properties of its ranking engine.

    Conventions of the model.
    - C++ [int] is [Z]; signed overflow is undefined in C++, so no wrap-around
      is written out.  [%] and [/] on [int] are [Z.rem] and [Z.quot]
      (truncation towards zero).
    - C++ [float] is read over exact arithmetic: the scalar type is the field
      [Qc] of canonical rationals, whose equality is Leibniz equality.
    - [std::vector<float>] is a [list Qc] read and written by index.
    - [std::set<std::pair<float,int>>] is a strictly increasing list of pairs.
    - [exp] of <cmath>, the generator [std::mt19937] and the two standard
      distributions are library code: they are parameters of the development.
    - Progress reporting is modelled on its own, as a function on its
      static variables and the characters printed; the phases are modelled
      without their calls to it.
    - Of image export the layers and file names are modelled; the display
      window, the file system and OpenCV's encoders are left out. *)

From stdpp Require Import base numbers list list_numbers strings pretty sorting.
From Stdlib Require Import QArith Qcanon Lia.

Open Scope Z_scope.

(** ** Outcomes of fallible code *)

Inductive failure : Type :=
| Throw (what : string)   (* a C++ exception, [std::runtime_error(what)] *)
| AssertFail              (* a failed [assert]: the process aborts *)
| Undefined               (* undefined behaviour, e.g. dereferencing [end()] *)
| OutOfFuel.              (* the model's loop budget ran out *)

Inductive outcome (A : Type) : Type :=
| Ok (a : A)
| Fail (e : failure).
Arguments Ok {A} a.
Arguments Fail {A} e.

Definition is_ok {A} (o : outcome A) : bool :=
  match o with Ok _ => true | Fail _ => false end.

(** ** Scalars *)

#[global] Instance Qc_inhabited : Inhabited Qc := populate 0%Qc.

Definition Qc_of_int (z : Z) : Qc := Q2Qc (inject_Z z).

(** ** Coordinates: [using T3 = std::tuple<int,int,int>] *)

Definition T3 : Type := Z * Z * Z.

Definition get0 (t : T3) : Z := fst (fst t).
Definition get1 (t : T3) : Z := snd (fst t).
Definition get2 (t : T3) : Z := snd t.

Definition mod_ (a d : Z) : Z :=
  let a := Z.rem a d in
  let a := a + d in
  Z.rem a d.

Definition T3_plus (a b : T3) : T3 :=
  (get0 a + get0 b, get1 a + get1 b, get2 a + get2 b).

Definition T3_minus (a b : T3) : T3 :=
  (get0 a - get0 b, get1 a - get1 b, get2 a - get2 b).

Declare Scope T3_scope.
Delimit Scope T3_scope with T3.
Bind Scope T3_scope with T3.
Infix "+" := T3_plus : T3_scope.
Infix "-" := T3_minus : T3_scope.

(** ** [class Matrix3D] *)

Record Matrix3D : Type := mkMatrix3D {
  _d0 : Z; _d1 : Z; _d2 : Z;
  _d01 : Z;
  _size : Z;
  _mat3D : list Qc
}.

Definition Matrix3D_new (d0 d1 d2 : Z) : Matrix3D :=
  {| _d0 := d0; _d1 := d1; _d2 := d2; _d01 := d0 * d1;
     _size := d0 * d1 * d2;
     _mat3D := replicate (Z.to_nat (d0 * d1 * d2)) 0%Qc |}.

Definition size (m : Matrix3D) : Z := _size m.
Definition dim0 (m : Matrix3D) : Z := _d0 m.
Definition dim1 (m : Matrix3D) : Z := _d1 m.
Definition dim2 (m : Matrix3D) : Z := _d2 m.

Definition T3_to_idx (m : Matrix3D) (t3 : T3) : Z :=
  let i0 := mod_ (get0 t3) (_d0 m) in
  let i1 := mod_ (get1 t3) (_d1 m) in
  let i2 := mod_ (get2 t3) (_d2 m) in
  i0 + i1 * _d0 m + i2 * _d01 m.

Definition idx_to_T3 (m : Matrix3D) (idx : Z) : T3 :=
  (Z.rem idx (_d0 m), Z.quot (Z.rem idx (_d01 m)) (_d0 m), Z.quot idx (_d01 m)).

(** [_mat3D[idx]]: an index outside the vector is undefined behaviour in C++;
    here the read gives [0] and the write does nothing.  [T3_to_idx] never
    produces such an index on a lattice with positive dimensions
    (lemma [T3_to_idx_range]). *)
Definition at_idx (m : Matrix3D) (idx : Z) : Qc := _mat3D m !!! Z.to_nat idx.

Definition set_idx (m : Matrix3D) (idx : Z) (v : Qc) : Matrix3D :=
  {| _d0 := _d0 m; _d1 := _d1 m; _d2 := _d2 m; _d01 := _d01 m;
     _size := _size m;
     _mat3D := <[Z.to_nat idx := v]> (_mat3D m) |}.

(** [float& at(const T3&)] read and written, and [get]. *)
Definition at_ (m : Matrix3D) (t3 : T3) : Qc := at_idx m (T3_to_idx m t3).
Definition set_at (m : Matrix3D) (t3 : T3) (v : Qc) : Matrix3D :=
  set_idx m (T3_to_idx m t3) v.
Definition get (m : Matrix3D) (t3 : T3) : Qc := at_idx m (T3_to_idx m t3).

(** A lattice as the constructor builds it. *)
Definition lattice_ok (m : Matrix3D) : Prop :=
  0 < _d0 m ∧ 0 < _d1 m ∧ 0 < _d2 m ∧
  _d01 m = _d0 m * _d1 m ∧ _size m = _d0 m * _d1 m * _d2 m ∧
  length (_mat3D m) = Z.to_nat (_size m).

(** ** Loops *)

(** [for (int i = 0; i < n; ++i) body(i)] over a threaded state. *)
Definition for_range {S : Type} (n : Z) (body : Z → S → S) (s : S) : S :=
  fold_left (λ s i, body i s) (seqZ 0 n) s.

(** The triple loop of the source: [i2] outermost, [i0] innermost. *)
Definition for3 {S : Type} (d0 d1 d2 : Z) (body : T3 → S → S) (s : S) : S :=
  for_range d2 (λ i2,
    for_range d1 (λ i1,
      for_range d0 (λ i0, body (i0, i1, i2)))) s.

(** ** [std::set<std::pair<float,int>>] *)

Definition entry : Type := Qc * Z.

(** [operator<] of [std::pair]. *)
Definition entry_lt (a b : entry) : Prop :=
  (a.1 < b.1)%Qc ∨ (¬ (b.1 < a.1)%Qc ∧ a.2 < b.2).

#[global] Instance entry_lt_dec : RelDecision entry_lt.
Proof. intros a b. unfold entry_lt. apply _. Defined.

(** A set is its elements in increasing order. *)
Definition is_set (s : list entry) : Prop := StronglySorted entry_lt s.

Fixpoint set_insert (x : entry) (s : list entry) : list entry :=
  match s with
  | [] => [x]
  | y :: s' =>
      if decide (entry_lt x y) then x :: s
      else if decide (entry_lt y x) then y :: set_insert x s'
      else s
  end.

(** [erase(key)] returns the number of elements removed and the new set. *)
Fixpoint set_erase (x : entry) (s : list entry) : Z * list entry :=
  match s with
  | [] => (0, [])
  | y :: s' =>
      if decide (entry_lt x y) then (0, s)
      else if decide (entry_lt y x) then
        let r := set_erase x s' in (r.1, y :: r.2)
      else (1, s')
  end.

(** [*cbegin()] and [*crbegin()]; on an empty set both dereference [end()]. *)
Definition set_cbegin (s : list entry) : outcome entry :=
  match s with
  | [] => Fail Undefined
  | e :: _ => Ok e
  end.

Definition set_crbegin (s : list entry) : outcome entry :=
  match last s with
  | None => Fail Undefined
  | Some e => Ok e
  end.

(** ** [class Matrix3D_w_void_and_cluster_tracking : public Matrix3D] *)

Record Matrix3D_w_void_and_cluster_tracking : Type := mkTracking {
  content : Matrix3D;        (* the base-class sub-object *)
  weights : Matrix3D;
  filter : Matrix3D;
  _track_void : list entry;
  _track_cluster : list entry;
  _cluster_tracking_is_on : bool
}.

Abbreviation tracking := Matrix3D_w_void_and_cluster_tracking.

Definition with_content (st : tracking) (c : Matrix3D) : tracking :=
  mkTracking c (weights st) (filter st) (_track_void st) (_track_cluster st)
    (_cluster_tracking_is_on st).
Definition with_weights (st : tracking) (w : Matrix3D) : tracking :=
  mkTracking (content st) w (filter st) (_track_void st) (_track_cluster st)
    (_cluster_tracking_is_on st).
Definition with_void (st : tracking) (s : list entry) : tracking :=
  mkTracking (content st) (weights st) (filter st) s (_track_cluster st)
    (_cluster_tracking_is_on st).
Definition with_cluster (st : tracking) (s : list entry) : tracking :=
  mkTracking (content st) (weights st) (filter st) (_track_void st) s
    (_cluster_tracking_is_on st).

(** Computations on the engine: state passing with failure.  A failure keeps
    the state reached when it happened. *)
Definition M (A : Type) : Type := tracking → outcome A * tracking.

#[global] Instance M_ret : MRet M := λ A a st, (Ok a, st).
#[global] Instance M_bind : MBind M := λ A B f m st,
  match m st with
  | (Ok a, st') => f a st'
  | (Fail e, st') => (Fail e, st')
  end.
Definition fail {A} (e : failure) : M A := λ st, (Fail e, st).
Definition modify (f : tracking → tracking) : M unit := λ st, (Ok tt, f st).
Definition lift {A} (f : tracking → outcome A) : M A := λ st, (f st, st).

Definition add_to_void (t3 : T3) (st : tracking) : tracking :=
  let idx := T3_to_idx (content st) t3 in
  let st := with_cluster st
              (set_erase (at_idx (weights st) idx, idx) (_track_cluster st)).2 in
  with_void st (set_insert (at_idx (weights st) idx, idx) (_track_void st)).

Definition add_to_cluster (t3 : T3) (st : tracking) : tracking :=
  let idx := T3_to_idx (content st) t3 in
  let was_tracked := set_erase (at_idx (weights st) idx, idx) (_track_void st) in
  let st := with_void st was_tracked.2 in
  if bool_decide (was_tracked.1 ≠ 0) && _cluster_tracking_is_on st then
    with_cluster st (set_insert (at_idx (weights st) idx, idx) (_track_cluster st))
  else st.

Definition update (t3 : T3) (value : Qc) (st : tracking) : tracking :=
  let idx := T3_to_idx (content st) t3 in
  if bool_decide (at_idx (content st) idx ≠ 0%Qc) then
    let was_tracked :=
      set_erase (at_idx (weights st) idx, idx) (_track_cluster st) in
    let st := with_cluster st was_tracked.2 in
    let st := with_weights st
      (set_idx (weights st) idx (at_idx (weights st) idx + value)%Qc) in
    if bool_decide (was_tracked.1 ≠ 0) && _cluster_tracking_is_on st then
      with_cluster st
        (set_insert (at_idx (weights st) idx, idx) (_track_cluster st))
    else st
  else
    let was_tracked :=
      set_erase (at_idx (weights st) idx, idx) (_track_void st) in
    let st := with_void st was_tracked.2 in
    let st := with_weights st
      (set_idx (weights st) idx (at_idx (weights st) idx + value)%Qc) in
    if bool_decide (was_tracked.1 ≠ 0) then
      with_void st (set_insert (at_idx (weights st) idx, idx) (_track_void st))
    else st.

Definition filter_center (f : Matrix3D) : T3 :=
  (Z.quot (dim0 f) 2, Z.quot (dim1 f) 2, Z.quot (dim2 f) 2).

Definition conv_at (r : T3) (st : tracking) : tracking :=
  let center := filter_center (filter st) in
  for3 (dim0 (filter st)) (dim1 (filter st)) (dim2 (filter st))
    (λ g st, update (r + g - center)%T3 (get (filter st) g) st) st.

Definition deconv_at (r : T3) (st : tracking) : tracking :=
  let center := filter_center (filter st) in
  for3 (dim0 (filter st)) (dim1 (filter st)) (dim2 (filter st))
    (λ g st, update (r + g - center)%T3 (- get (filter st) g)%Qc st) st.

Definition set_pixel (t3 : T3) (value : Qc) : M unit :=
  λ st,
    if bool_decide (0 < at_ (content st) t3)%Qc then
      (Fail (Throw "already set"), st)
    else
      let st := with_content st (set_at (content st) t3 value) in
      let st := add_to_cluster t3 st in
      (Ok tt, conv_at t3 st).

Definition reset_pixel (t3 : T3) (st : tracking) : tracking :=
  let st := with_content st (set_at (content st) t3 0%Qc) in
  let st := add_to_void t3 st in
  deconv_at t3 st.

Definition remove_tracking (t3 : T3) (st : tracking) : tracking :=
  let idx := T3_to_idx (content st) t3 in
  let st := with_void st
              (set_erase (at_idx (weights st) idx, idx) (_track_void st)).2 in
  with_cluster st
    (set_erase (at_idx (weights st) idx, idx) (_track_cluster st)).2.

Definition cluster_tracking_off (st : tracking) : tracking :=
  mkTracking (content st) (weights st) (filter st) (_track_void st) [] false.

Definition max_void (st : tracking) : outcome T3 :=
  match set_cbegin (_track_void st) with
  | Ok e => Ok (idx_to_T3 (content st) e.2)
  | Fail e => Fail e
  end.

Definition max_cluster (st : tracking) : outcome T3 :=
  match set_crbegin (_track_cluster st) with
  | Ok e => Ok (idx_to_T3 (content st) e.2)
  | Fail e => Fail e
  end.

(** ** Library code and configuration *)

(** What the program takes from the C++ standard library: [exp], the
    generator [std::mt19937] with its seeding constructor, and the call
    operators of [uniform_real_distribution<>(a, b)] and
    [uniform_int_distribution<>(a, b)], each returning the drawn value and
    the generator after the draw. *)
Class Cxx : Type := {
  expf : Qc → Qc;
  mt19937 : Type;
  mt19937_seed : Z → mt19937;
  uniform_real_distribution : Qc → Qc → mt19937 → Qc * mt19937;
  uniform_int_distribution : Z → Z → mt19937 → Z * mt19937
}.

(** The modifiable parameters at the top of the source file. *)
Record Config : Type := mkConfig {
  N : Z;
  SIGMA : Qc;
  FILTER_SIZE : Z;
  use_random_device : bool;
  INITIAL_COUNT : Z
}.

(** The values the source ships with. *)
Definition source_config : Config :=
  {| N := 32; SIGMA := Q2Qc (14 # 10); FILTER_SIZE := 17;
     use_random_device := false;
     INITIAL_COUNT := Z.quot (6 * 6 * 6 + 7 * 7 * 7) 2 |}.

(** [seed()]: [rd] is the value [std::random_device] gives at this call. *)
Definition seed (cfg : Config) (rd : Z) : Z :=
  if use_random_device cfg then rd else 0.

Definition dist2 (i0 i1 i2 : Z) : Z := i0 * i0 + i1 * i1 + i2 * i2.

Definition GaussianMatrix `{Cxx} (size : Z) (sigma : Qc) : outcome Matrix3D :=
  if bool_decide (Z.rem size 2 = 1) then
    let g := Matrix3D_new size size size in
    let center0 := Z.quot (dim0 g) 2 in
    let center1 := Z.quot (dim1 g) 2 in
    let center2 := Z.quot (dim2 g) 2 in
    let inv_sigma2 := (1 / (2 * sigma * sigma))%Qc in
    Ok (for3 (dim0 g) (dim1 g) (dim2 g)
          (λ i g,
             set_at g i
               (expf (Qc_of_int
                        (- dist2 (get0 i - center0) (get1 i - center1)
                             (get2 i - center2)) * inv_sigma2)%Qc)) g)
  else Fail AssertFail.

Definition EPS : Qc := Q2Qc (1 # 10000000).

Definition small_randomization `{Cxx} (cfg : Config) (rd : Z) (st : tracking)
  : tracking :=
  let gen := mt19937_seed (seed cfg rd) in
  let distr := uniform_real_distribution 0%Qc EPS in
  let w := weights st in
  with_weights st
    (for3 (dim0 w) (dim1 w) (dim2 w)
       (λ i (s : mt19937 * Matrix3D),
          let d := distr s.1 in (d.2, set_at s.2 i d.1))
       (gen, w)).2.

Definition void_initialization (st : tracking) : tracking :=
  let w := weights st in
  for3 (dim0 w) (dim1 w) (dim2 w) add_to_void st.

(** The constructor: base class, [weights], [filter], then the body. *)
Definition Matrix3D_w_void_and_cluster_tracking_new `{Cxx} (cfg : Config)
    (rd : Z) (d0 d1 d2 : Z) : outcome tracking :=
  match GaussianMatrix (FILTER_SIZE cfg) (SIGMA cfg) with
  | Fail e => Fail e
  | Ok f =>
      let st := mkTracking (Matrix3D_new d0 d1 d2) (Matrix3D_new d0 d1 d2) f
                  [] [] true in
      let st := small_randomization cfg rd st in
      Ok (void_initialization st)
  end.

(** ** The phases *)

(** [while (count > 0)]: each round draws a coordinate; [fuel] bounds the
    number of rounds. *)
Fixpoint initial_bitmap_loop `{Cxx} (fuel : nat) (d0 d1 d2 : Z)
    (gen : mt19937) (count : Z) : M unit :=
  if bool_decide (count > 0) then
    match fuel with
    | O => fail OutOfFuel
    | S fuel =>
        let i0 := uniform_int_distribution 0 (d0 - 1) gen in
        let i1 := uniform_int_distribution 0 (d1 - 1) i0.2 in
        let i2 := uniform_int_distribution 0 (d2 - 1) i1.2 in
        let r : T3 := (i0.1, i1.1, i2.1) in
        z ← lift (λ st, Ok (bool_decide (get (content st) r = 0%Qc)));
        if z : bool then
          set_pixel r 1%Qc;;
          initial_bitmap_loop fuel d0 d1 d2 i2.2 (count - 1)
        else initial_bitmap_loop fuel d0 d1 d2 i2.2 count
    end
  else mret tt.

Definition initial_bitmap `{Cxx} (cfg : Config) (rd : Z) (fuel : nat)
    (count : Z) : M unit :=
  λ st,
    initial_bitmap_loop fuel (dim0 (content st)) (dim1 (content st))
      (dim2 (content st)) (mt19937_seed (seed cfg rd)) count st.

(** One round of [while (true)] in [reorder_bitmap]; the result is the pair
    [(t_max, t_min)] the round chose. *)
Definition reorder_round : M (T3 * T3) :=
  t_max ← lift max_cluster;
  modify (reset_pixel t_max);;
  t_min ← lift max_void;
  set_pixel t_min 1%Qc;;
  mret (t_max, t_min).

(** [reorder_bitmap]: the loop returns nothing in the source; the model also
    hands back the pairs chosen by the rounds it ran, oldest first. *)
Fixpoint reorder_bitmap (fuel : nat) : M (list (T3 * T3)) :=
  match fuel with
  | O => fail OutOfFuel
  | S fuel =>
      p ← reorder_round;
      if bool_decide (p.2 = p.1) then mret [p]
      else (ps ← reorder_bitmap fuel; mret (p :: ps))
  end.

(** [rank_initial_bitmap]: [n] is the value of [count] on loop entry. *)
Fixpoint rank_initial_bitmap_loop (n : nat) : M unit :=
  match n with
  | O => mret tt
  | S n =>
      let count := Z.of_nat n in
      t_max ← lift max_cluster;
      modify (reset_pixel t_max);;
      sz ← lift (λ st, Ok (size (content st)));
      set_pixel t_max (Qc_of_int count / Qc_of_int sz)%Qc;;
      modify (remove_tracking t_max);;
      rank_initial_bitmap_loop n
  end.

Definition rank_initial_bitmap (count : Z) : M unit :=
  rank_initial_bitmap_loop (Z.to_nat count).

Definition phase_1 `{Cxx} (cfg : Config) (rd : Z) (fuel1 fuel2 : nat)
    (count : Z) : M unit :=
  initial_bitmap cfg rd fuel1 count;;
  reorder_bitmap fuel2;;
  rank_initial_bitmap count.

(** [for (; count < size; ++count)]: [n] rounds are left. *)
Fixpoint phase_2_and_3_loop (n : nat) (count : Z) : M unit :=
  match n with
  | O => mret tt
  | S n =>
      t_min ← lift max_void;
      sz ← lift (λ st, Ok (size (content st)));
      set_pixel t_min (Qc_of_int count / Qc_of_int sz)%Qc;;
      phase_2_and_3_loop n (count + 1)
  end.

Definition phase_2_and_3 (count : Z) : M unit :=
  modify cluster_tracking_off;;
  sz ← lift (λ st, Ok (size (content st)));
  phase_2_and_3_loop (Z.to_nat (sz - count)) count.

Definition phases `{Cxx} (cfg : Config) (rd : Z) (fuel1 fuel2 : nat) : M unit :=
  phase_1 cfg rd fuel1 fuel2 (INITIAL_COUNT cfg);;
  phase_2_and_3 (INITIAL_COUNT cfg).

(** [main] up to the point where the array is handed to [save] and [show]:
    [rd1] and [rd2] are what [std::random_device] gives to the two calls of
    [seed()], in the constructor and in [initial_bitmap]. *)
Definition main `{Cxx} (cfg : Config) (rd1 rd2 : Z) (fuel1 fuel2 : nat)
  : outcome Matrix3D :=
  match Matrix3D_w_void_and_cluster_tracking_new cfg rd1 (N cfg) (N cfg) (N cfg) with
  | Fail e => Fail e
  | Ok mat3d =>
      match phases cfg rd2 fuel1 fuel2 mat3d with
      | (Ok _, mat3d) => Ok (content mat3d)
      | (Fail e, _) => Fail e
      end
  end.

(** ** Progress reporting *)

(** The function-local statics of [report_progress], and the characters
    written to [std::cout] so far. *)
Record progress : Type := mkProgress {
  wheel_idx : Z;
  progress_counter : Z;
  last_percentage_reported : Z;
  cout : string
}.

(** The statics as their initialisers leave them, nothing printed yet. *)
Definition progress_start : progress := mkProgress (-1) 0 (-1) "".

Definition chr (n : nat) : string := String (Ascii.ascii_of_nat n) EmptyString.

(** ['\b'], ['\r'], the newline of [std::endl], and the backslash. *)
Definition BS : string := chr 8.
Definition CR : string := chr 13.
Definition LF : string := chr 10.
Definition BACKSLASH : string := chr 92.

Definition prefix : string := "Progress [".
Definition infix : string := "] : ".
Definition postfix : string := "%".
Definition arr_progress_wheel : list string := [BACKSLASH; "|"; "/"; "-"].

(** [std::to_string(int)]. *)
Definition to_string (z : Z) : string := pretty z.

(** [report_progress(percentage)].  [wheel_idx %= arr_progress_wheel.size()]
    mixes [int] and [size_t]: the left operand is converted to the unsigned
    type, that is, reduced modulo a power of two that 4 divides, so the
    result is the residue of [wheel_idx] modulo 4 in [0, 4). *)
Definition report_progress (REPORT_INTERVAL : Z) (percentage : Z)
    (s : progress) : progress :=
  if bool_decide (REPORT_INTERVAL ≤ 0) then s
  else
    let counter := progress_counter s + 1 in
    if bool_decide (Z.rem counter REPORT_INTERVAL ≠ 0) &&
       bool_decide (percentage ≠ 100)
    then mkProgress (wheel_idx s) counter (last_percentage_reported s) (cout s)
    else
      let wheel := (wheel_idx s + 1) `mod` Z.of_nat (length arr_progress_wheel) in
      let progress_wheel := arr_progress_wheel !!! Z.to_nat wheel in
      if bool_decide (last_percentage_reported s = percentage) then
        mkProgress wheel counter percentage (cout s +:+ progress_wheel +:+ BS)
      else if bool_decide (percentage = 100) then
        let output := prefix +:+ "X" +:+ infix +:+ to_string percentage
                      +:+ postfix in
        mkProgress (-1) (-1) (-1) (cout s +:+ CR +:+ output +:+ LF)
      else
        let output := prefix +:+ progress_wheel +:+ infix
                      +:+ to_string percentage +:+ postfix in
        mkProgress wheel counter percentage
          (cout s +:+ CR +:+ output +:+ CR +:+ prefix).

Definition report_progress_unfinished (REPORT_INTERVAL : Z) (percentage : Z)
  : progress → progress :=
  report_progress REPORT_INTERVAL (Z.min percentage 99).

Definition report_progress_finished (REPORT_INTERVAL : Z)
  : progress → progress :=
  report_progress REPORT_INTERVAL 100.

(** ** Layers and files *)

(** [cv::Mat] as far as the program uses it: a shape and the elements in
    row-major order. *)
Record Mat : Type := mkMat { rows : Z; cols : Z; data : list Qc }.

(** The element in row [r], column [c]. *)
Definition Mat_at (a : Mat) (r c : Z) : Qc :=
  data a !!! Z.to_nat (r * cols a + c).

(** [std::vector<float>(first, last)] for two iterators into [l], given as
    offsets from [begin()]; a range that is not inside the vector is
    undefined behaviour. *)
Definition vector_range (l : list Qc) (first last : Z) : outcome (list Qc) :=
  if bool_decide (0 ≤ first ∧ first ≤ last ∧ last ≤ Z.of_nat (length l)) then
    Ok (take (Z.to_nat (last - first)) (drop (Z.to_nat first) l))
  else Fail Undefined.

(** [cv::Mat(vec, true)]: the vector as one column; empty for an empty
    vector. *)
Definition Mat_of_vector (v : list Qc) : Mat :=
  match v with
  | [] => mkMat 0 0 []
  | _ => mkMat (Z.of_nat (length v)) 1 v
  end.

(** [reshape(1, new_rows)]: the same elements read with [new_rows] rows;
    OpenCV raises [cv::Exception] when the elements cannot be split so. *)
Definition Mat_reshape (a : Mat) (new_rows : Z) : outcome Mat :=
  if bool_decide (new_rows = 0 ∨ new_rows = rows a) then Ok a
  else
    let total := rows a * cols a in
    if bool_decide (new_rows < 0 ∨ total < new_rows) then
      Fail (Throw "Bad new number of rows")
    else if bool_decide (Z.quot total new_rows * new_rows ≠ total) then
      Fail (Throw "The total number of matrix elements is not divisible by the new number of rows")
    else Ok (mkMat new_rows (Z.quot total new_rows) (data a)).

Definition to_mat (m : Matrix3D) (layer : Z) : outcome Mat :=
  match vector_range (_mat3D m) (layer * _d01 m) ((layer + 1) * _d01 m) with
  | Fail e => Fail e
  | Ok _arr_copy => Mat_reshape (Mat_of_vector _arr_copy) (_d1 m)
  end.

Definition file_prefix : string := "layer_".
Definition file_ext : string := ".png".

(** The loop of [save]: for each layer the file name and the matrix handed
    to [convertTo] and [imwrite], in the order written.  The directory, the
    conversion to 8 bits and the encoding are the file system's and
    OpenCV's. *)
Definition save (mat3d : Matrix3D) (path : string)
  : outcome (list (string * Mat)) :=
  for_range (dim2 mat3d)
    (λ layer acc,
       match acc with
       | Fail e => Fail e
       | Ok files =>
           match to_mat mat3d layer with
           | Fail e => Fail e
           | Ok mat_float =>
               Ok (files ++
                   [(path +:+ file_prefix +:+ to_string layer +:+ file_ext,
                     mat_float)])
           end
       end)
    (Ok []).

(** * Vocabulary of the specification *)

(** The cells a triple loop visits, in the order it visits them. *)
Definition cells (d0 d1 d2 : Z) : list T3 :=
  i2 ← seqZ 0 d2; i1 ← seqZ 0 d1; i0 ← seqZ 0 d0; [(i0, i1, i2)].

Definition same_dims (a b : Matrix3D) : Prop :=
  _d0 a = _d0 b ∧ _d1 a = _d1 b ∧ _d2 a = _d2 b ∧ _d01 a = _d01 b ∧
  _size a = _size b.

Definition sumQc (l : list Qc) : Qc := foldr Qcplus 0%Qc l.

(** The sum of [F i] over the flat indices [0 ≤ i < n]. *)
Definition sum_upto (n : Z) (F : Z → Qc) : Qc := sumQc (F <$> seqZ 0 n).

(** The engine's two matrices index the same lattice. *)
Definition state_ok (st : tracking) : Prop :=
  lattice_ok (content st) ∧ lattice_ok (weights st) ∧
  same_dims (weights st) (content st).

(** A tracking set is sound for a class [P] of voxels when it is a set, each
    of its entries belongs to a voxel of the class, and the entry carries
    the voxel's current energy. *)
Definition tracks (P : Z → Prop) (W : Matrix3D) (s : list entry) : Prop :=
  is_set s ∧
  ∀ e, e ∈ s → 0 ≤ e.2 < _size W ∧ P e.2 ∧ e.1 = at_idx W e.2.

Definition void_sound (st : tracking) : Prop :=
  tracks (λ i, at_idx (content st) i = 0%Qc) (weights st) (_track_void st).

Definition cluster_sound (st : tracking) : Prop :=
  tracks (λ i, at_idx (content st) i ≠ 0%Qc) (weights st) (_track_cluster st).

(** The flat indices with an entry in each tracking set. *)
Definition void_idx (st : tracking) : list Z := (_track_void st).*2.
Definition cluster_idx (st : tracking) : list Z := (_track_cluster st).*2.

(** A batch of energy updates, applied in order. *)
Definition apply_updates (l : list (T3 * Qc)) (st : tracking) : tracking :=
  fold_left (λ st p, update p.1 p.2 st) l st.

(** What a batch adds to the energy of the voxel with flat index [i]. *)
Definition delta (m : Matrix3D) (l : list (T3 * Qc)) (i : Z) : Qc :=
  sumQc ((λ p, if decide (T3_to_idx m p.1 = i) then p.2 else 0%Qc) <$> l).

(** The updates [conv_at r] performs: one per kernel cell. *)
Definition footprint (f : Matrix3D) (r : T3) : list (T3 * Qc) :=
  (λ g, ((r + g - filter_center f)%T3, get f g)) <$>
    cells (dim0 f) (dim1 f) (dim2 f).

Definition negate (p : T3 * Qc) : T3 * Qc := (p.1, (- p.2)%Qc).

(** The toroidal kernel: the energy a voxel at [r] that is on contributes to
    the voxel with flat index [i]. *)
Definition kern (f m : Matrix3D) (r : T3) (i : Z) : Qc :=
  delta m (footprint f r) i.

(** The state [set_pixel t3 value] reaches when it does not throw. *)
Definition toggled_on (t3 : T3) (value : Qc) (st : tracking) : tracking :=
  conv_at t3
    (add_to_cluster t3 (with_content st (set_at (content st) t3 value))).

(** The point reflection of a kernel cell through the cube's midpoint. *)
Definition reflect (f : Matrix3D) (g : T3) : T3 :=
  (dim0 f - 1 - get0 g, dim1 f - 1 - get1 g, dim2 f - 1 - get2 g).

(** A kernel with odd edge lengths that is symmetric about its centre. *)
Definition kernel_sym (f : Matrix3D) : Prop :=
  lattice_ok f ∧
  Z.rem (dim0 f) 2 = 1 ∧ Z.rem (dim1 f) 2 = 1 ∧ Z.rem (dim2 f) 2 = 1 ∧
  ∀ g, g ∈ cells (dim0 f) (dim1 f) (dim2 f) → get f (reflect f g) = get f g.

(** The weight [GaussianMatrix] gives the cell at [i], for centre [c]. *)
Definition gauss_weight `{Cxx} (sigma : Qc) (c : Z) (i : T3) : Qc :=
  expf (Qc_of_int (- dist2 (get0 i - c) (get1 i - c) (get2 i - c)) *
        (1 / (2 * sigma * sigma)))%Qc.

(** The number of voxels, and the voxels that are on. *)
Definition nvox (st : tracking) : Z := _size (content st).

Definition on (st : tracking) (i : Z) : bool :=
  bool_decide (at_idx (content st) i ≠ 0%Qc).

(** [K st j i]: what voxel [j], when on, adds to the energy of voxel [i]. *)
Definition K (st : tracking) (j i : Z) : Qc :=
  kern (filter st) (content st) (idx_to_T3 (content st) j) i.

(** The sum of [F j] over the voxels [j < n] selected by [b]. *)
Definition on_sum (n : Z) (b : Z → bool) (F : Z → Qc) : Qc :=
  sum_upto n (λ j, if b j then F j else 0%Qc).

(** The energy field is the initial jitter plus the kernel contributions of
    the voxels that are on. *)
Definition energy_ok (jit : Z → Qc) (st : tracking) : Prop :=
  ∀ i, 0 ≤ i < nvox st →
    at_idx (weights st) i =
      (jit i + on_sum (nvox st) (on st) (λ j, K st j i))%Qc.

(** Every voxel has its entry in exactly one of the two tracking sets. *)
Definition partition_inv (st : tracking) : Prop :=
  void_idx st ++ cluster_idx st ≡ₚ seqZ 0 (nvox st).

(** The invariant of the binary pattern of phase 1, before any rank is
    given out. *)
Definition pattern_inv (jit : Z → Qc) (st : tracking) : Prop :=
  state_ok st ∧ kernel_sym (filter st) ∧ void_sound st ∧ cluster_sound st ∧
  _cluster_tracking_is_on st = true ∧ partition_inv st ∧ energy_ok jit st.

(** ** A potential for the balancing loop

    [psi] is twice the jitter of the on-voxels plus the kernel weight of
    every ordered pair of on-voxels; [isum] is the sum of their flat indices.
    Each round of [reorder_bitmap] that does not stop lowers the pair
    [(psi, isum)] in the lexicographic order. *)



Definition measure_lt (x y : Qc * Qc) : Prop :=
  (x.1 < y.1)%Qc ∨ (x.1 = y.1 ∧ (x.2 < y.2)%Qc).

#[global] Instance measure_lt_dec : RelDecision measure_lt.
Proof. intros x y. unfold measure_lt. apply _. Defined.








(** ** Ranks *)

(** The rank [r / n] as the source computes it: [(float)count / size()]. *)
Definition rank_value (n r : Z) : Qc := (Qc_of_int r / Qc_of_int n)%Qc.




(** The lexicographic order on (energy, flat index), as the specification
    words the tie-break. *)
Definition lex_le (a b : entry) : Prop :=
  (a.1 < b.1)%Qc ∨ (a.1 = b.1 ∧ a.2 ≤ b.2).

(** ** Reporting, jitter *)

(** A run of calls of [report_progress], one per percentage, in order. *)
Definition report_all (REPORT_INTERVAL : Z) (ps : list Z) (s : progress)
  : progress :=
  fold_left (λ s p, report_progress REPORT_INTERVAL p s) ps s.

(** What holds of the statics between calls. *)
Definition progress_ok (s : progress) : Prop :=
  -1 ≤ wheel_idx s < Z.of_nat (length arr_progress_wheel) ∧
  -1 ≤ progress_counter s ∧
  last_percentage_reported s ≠ 100.

(** The first [n] values a distribution draws from a generator. *)
Fixpoint draws {G : Type} (distr : G → Qc * G) (gen : G) (n : nat) : list Qc :=
  match n with
  | O => []
  | S n => let d := distr gen in d.1 :: draws distr d.2 n
  end.

(** * A small instance

    A stand-in for the library code that computes: a rational bump in place
    of [exp], and a linear congruential generator in place of [mt19937].
    It serves to run the engine on lattices of a few voxels. *)
Module Toy.

Definition bump (x : Qc) : Qc :=
    if bool_decide (x ≤ 0)%Qc then (1 / (1 - x))%Qc else (1 + x)%Qc.

Definition next (g : Z) : Z := (g * 1103515245 + 12345) mod 2147483648.

Definition cxx : Cxx :=
    {| expf := bump;
       mt19937 := Z;
       mt19937_seed := λ s, next s;
       uniform_real_distribution := λ a b g,
         ((a + (b - a) * Q2Qc ((g / 65536) mod 1000 # 1000))%Qc, next g);
       uniform_int_distribution := λ a b g,
         (a + (g / 65536) mod (b - a + 1), next g) |}.

  (** A 2×2×2 lattice, a 3×3×3 kernel, one initial point. *)
Definition cfg : Config :=
    {| N := 2; SIGMA := 1%Qc; FILTER_SIZE := 3; use_random_device := false;
       INITIAL_COUNT := 1 |}.

Definition empty : tracking :=
    mkTracking (Matrix3D_new 0 0 0) (Matrix3D_new 0 0 0) (Matrix3D_new 0 0 0)
      [] [] true.

  (** The engine as the constructor leaves it, on a 2×1×1 lattice. *)
Definition fresh : tracking :=
    match @Matrix3D_w_void_and_cluster_tracking_new cxx cfg 0 2 1 1 with
    | Ok st => st
    | Fail _ => empty
    end.

  (** After [initial_bitmap] and [reorder_bitmap] with one initial point. *)
Definition balanced : tracking :=
    ((@initial_bitmap cxx cfg 0 10 1 ≫= λ _, reorder_bitmap 10) fresh).2.


  (** The voxel [rank_initial_bitmap] picks in its only round. *)
Definition t_max : T3 :=
    match max_cluster balanced with
    | Ok t => t
    | Fail _ => (0, 0, 0)
    end.

  (** The state of that round after [set_pixel(t_max, 0 / size)] and before
      [remove_tracking(t_max)]. *)
Definition rank0_set : tracking :=
    (set_pixel t_max (rank_value 2 0) (reset_pixel t_max balanced)).2.

  (** The state after the whole of phase 1. *)
Definition after_phase_1 : tracking := (@phase_1 cxx cfg 0 10 10 1 fresh).2.

Definition origin : T3 := (0, 0, 0).

  (** A state with one voxel on. *)
Definition one_on : tracking := toggled_on origin 1%Qc fresh.

End Toy.

(** * Coordinates and dense storage *)


Lemma mod_spec a d : 0 < d → mod_ a d = a mod d.
Proof.
  intros Hd. unfold mod_.
  pose proof (Z.rem_bound_abs a d ltac:(lia)) as Hb.
  pose proof (Z.quot_rem' a d) as Hq.
  rewrite Z.rem_mod_nonneg by lia.
  replace (Z.rem a d + d) with (a + (1 - Z.quot a d) * d) by lia.
  apply Z_mod_plus_full.
Qed.

Lemma mod_range a d : 0 < d → 0 ≤ mod_ a d < d.
Proof. intros Hd. rewrite mod_spec by done. by apply Z.mod_pos_bound. Qed.

Lemma T3_to_idx_spec m x y z :
  lattice_ok m →
  T3_to_idx m (x, y, z) =
    x mod _d0 m + (y mod _d1 m) * _d0 m + (z mod _d2 m) * (_d0 m * _d1 m).
Proof.
  intros (H0 & H1 & H2 & H01 & _). unfold T3_to_idx, get0, get1, get2; simpl.
  rewrite !mod_spec, H01 by done. done.
Qed.

Lemma T3_to_idx_range m t : lattice_ok m → 0 ≤ T3_to_idx m t < _size m.
Proof.
  intros (H0 & H1 & H2 & H01 & Hs & _). unfold T3_to_idx.
  pose proof (mod_range (get0 t) _ H0). pose proof (mod_range (get1 t) _ H1).
  pose proof (mod_range (get2 t) _ H2). rewrite H01, Hs.
  assert (mod_ (get1 t) (_d1 m) * _d0 m ≤ (_d1 m - 1) * _d0 m) by nia.
  assert (mod_ (get2 t) (_d2 m) * (_d0 m * _d1 m) ≤ (_d2 m - 1) * (_d0 m * _d1 m)) by nia.
  nia.
Qed.

Lemma T3_to_idx_dims m m' t : same_dims m m' → T3_to_idx m t = T3_to_idx m' t.
Proof. intros (E0 & E1 & E2 & E01 & _). unfold T3_to_idx. by rewrite E0, E1, E2, E01. Qed.

Lemma idx_to_T3_dims m m' i : same_dims m m' → idx_to_T3 m i = idx_to_T3 m' i.
Proof. intros (E0 & E1 & E2 & E01 & _). unfold idx_to_T3. by rewrite E0, E01. Qed.

Lemma T3_to_idx_idx_to_T3 m i :
  lattice_ok m → 0 ≤ i < _size m → T3_to_idx m (idx_to_T3 m i) = i.
Proof.
  intros Hm Hi. pose proof Hm as (H0 & H1 & H2 & H01 & Hs & _). unfold idx_to_T3.
  rewrite T3_to_idx_spec by done. rewrite H01.
  set (a := _d0 m) in *. set (b := _d1 m) in *. set (c := _d2 m) in *.
  pose proof (Z.mod_pos_bound i (a * b) ltac:(lia)) as Hab.
  rewrite !Z.rem_mod_nonneg, !Z.quot_div_nonneg by lia.
  rewrite Z.mod_mod by lia.
  assert (0 ≤ i / (a * b) < c) as Hq.
  { split; [apply Z.div_pos; lia | apply Z.div_lt_upper_bound; lia]. }
  assert (0 ≤ i mod (a * b) / a < b) as Hr.
  { split; [apply Z.div_pos; lia | apply Z.div_lt_upper_bound; lia]. }
  rewrite (Z.mod_small _ c), (Z.mod_small _ b) by lia.
  pose proof (Z.div_mod i (a * b) ltac:(lia)) as E1.
  pose proof (Z.div_mod (i mod (a * b)) a ltac:(lia)) as E2.
  rewrite Z.mod_mod_divide in E2 by (exists b; lia).
  lia.
Qed.

Lemma T3_to_idx_inj m x y z x' y' z' :
  lattice_ok m →
  T3_to_idx m (x, y, z) = T3_to_idx m (x', y', z') ↔
  x mod _d0 m = x' mod _d0 m ∧ y mod _d1 m = y' mod _d1 m ∧
  z mod _d2 m = z' mod _d2 m.
Proof.
  intros Hm. rewrite !T3_to_idx_spec by done.
  destruct Hm as (H0 & H1 & H2 & _).
  pose proof (Z.mod_pos_bound x _ H0). pose proof (Z.mod_pos_bound x' _ H0).
  pose proof (Z.mod_pos_bound y _ H1). pose proof (Z.mod_pos_bound y' _ H1).
  pose proof (Z.mod_pos_bound z _ H2). pose proof (Z.mod_pos_bound z' _ H2).
  split; [|by intros (-> & -> & ->)].
  intros Heq.
  assert (x mod _d0 m = x' mod _d0 m) as Hx.
  { apply (f_equal (λ v, v mod _d0 m)) in Heq.
    rewrite !(Z.mul_comm _ (_d0 m * _)), <- !Z.mul_assoc in Heq.
    rewrite <- !Z.add_assoc, !(Z.mul_comm _ (_d0 m)), <- !Z.mul_add_distr_l in Heq.
    rewrite !(Z.mul_comm (_d0 m)), !Z_mod_plus_full, !Z.mod_mod in Heq; lia. }
  split; [done|].
  assert (y mod _d1 m + z mod _d2 m * _d1 m = y' mod _d1 m + z' mod _d2 m * _d1 m)
    as Heq2 by nia.
  assert (y mod _d1 m = y' mod _d1 m) as Hy.
  { apply (f_equal (λ v, v mod _d1 m)) in Heq2.
    rewrite !Z_mod_plus_full, !Z.mod_mod in Heq2; lia. }
  split; [done|]. nia.
Qed.


(** ** Reading and writing cells *)

Lemma at_idx_set_idx m i j v :
  0 ≤ i → 0 ≤ j →
  at_idx (set_idx m i v) j =
    if decide (i = j ∧ j < Z.of_nat (length (_mat3D m))) then v else at_idx m j.
Proof.
  intros Hi Hj. unfold at_idx, set_idx; simpl.
  destruct (decide (i = j)) as [->|Hne].
  - destruct (decide (j < Z.of_nat (length (_mat3D m)))).
    + rewrite decide_True by done.
      apply list_lookup_total_insert_eq. lia.
    + rewrite decide_False by tauto. rewrite list_insert_ge by lia. done.
  - rewrite decide_False by tauto.
    apply list_lookup_total_insert_ne. lia.
Qed.

Lemma set_idx_same_dims m i v : same_dims (set_idx m i v) m.
Proof. done. Qed.

Lemma set_idx_lattice_ok m i v : lattice_ok m → lattice_ok (set_idx m i v).
Proof.
  unfold lattice_ok; simpl. rewrite length_insert. done.
Qed.

Lemma Matrix3D_new_lattice_ok d0 d1 d2 :
  0 < d0 → 0 < d1 → 0 < d2 → lattice_ok (Matrix3D_new d0 d1 d2).
Proof.
  intros. unfold lattice_ok; simpl. rewrite length_replicate. done.
Qed.

Lemma at_idx_new d0 d1 d2 i : at_idx (Matrix3D_new d0 d1 d2) i = 0%Qc.
Proof.
  unfold at_idx; simpl.
  destruct (decide (Z.to_nat i < length (replicate (Z.to_nat (d0 * d1 * d2)) 0%Qc))%nat)
    as [Hlt|Hge].
  - rewrite length_replicate in Hlt. by apply lookup_total_replicate_2.
  - rewrite list_lookup_total_alt, lookup_ge_None_2; [done|lia].
Qed.

(** ** Loops as folds over the visited cells *)

Lemma fold_left_bind {A B S : Type} (g : S → B → S) (f : A → list B) l s :
  fold_left g (l ≫= f) s = fold_left (λ s x, fold_left g (f x) s) l s.
Proof.
  revert s. induction l as [|x l IH]; intros s; simpl; [done|].
  by rewrite fold_left_app, IH.
Qed.

Lemma fold_left_ext {A S : Type} (f g : S → A → S) l s :
  (∀ s x, f s x = g s x) → fold_left f l s = fold_left g l s.
Proof.
  intros Hfg. revert s. induction l as [|x l IH]; intros s; simpl; [done|].
  by rewrite Hfg, IH.
Qed.

Lemma for3_cells {S : Type} d0 d1 d2 (body : T3 → S → S) s :
  for3 d0 d1 d2 body s = fold_left (λ s c, body c s) (cells d0 d1 d2) s.
Proof.
  unfold for3, for_range, cells. rewrite fold_left_bind.
  apply fold_left_ext. intros s1 i2. rewrite fold_left_bind.
  apply fold_left_ext. intros s2 i1. rewrite fold_left_bind.
  apply fold_left_ext. intros s3 i0. done.
Qed.

Lemma elem_of_cells d0 d1 d2 x y z :
  (x, y, z) ∈ cells d0 d1 d2 ↔ 0 ≤ x < d0 ∧ 0 ≤ y < d1 ∧ 0 ≤ z < d2.
Proof.
  unfold cells. rewrite list_elem_of_bind. setoid_rewrite list_elem_of_bind.
  setoid_rewrite list_elem_of_bind. setoid_rewrite list_elem_of_singleton.
  setoid_rewrite elem_of_seqZ. split.
  - intros (i2 & (i1 & (i0 & [= -> -> ->] & ?) & ?) & ?). lia.
  - intros (? & ? & ?). exists z. split; [|lia]. exists y. split; [|lia].
    exists x. split; [done|lia].
Qed.

(** * The ordered set of (energy, index) pairs *)

Lemma entry_lt_irrefl x : ¬ entry_lt x x.
Proof.
  intros [H | [_ H]]; [by apply (irreflexivity Qclt) in H | lia].
Qed.

Lemma entry_lt_trans x y z : entry_lt x y → entry_lt y z → entry_lt x z.
Proof.
  unfold entry_lt. intros [H1 | [H1 H1']] [H2 | [H2 H2']].
  - left. by etrans.
  - left. apply Qcle_ngt in H2. eapply Qclt_le_trans; eauto.
  - left. apply Qcle_ngt in H1. eapply Qcle_lt_trans; eauto.
  - right. split; [|lia]. apply Qcle_ngt in H1, H2. apply Qcle_ngt. by etrans.
Qed.

Lemma entry_lt_total x y : ¬ entry_lt x y → ¬ entry_lt y x → x = y.
Proof.
  unfold entry_lt. intros H1 H2. destruct x as [a i], y as [b j]; simpl in *.
  assert (a = b) as ->.
  { apply Qcle_antisym; apply Qcle_ngt; intros ?; tauto. }
  f_equal. destruct (decide (i < j)), (decide (j < i)); try lia.
  - exfalso. apply H1. right. split; [apply (irreflexivity Qclt)|done].
  - exfalso. apply H2. right. split; [apply (irreflexivity Qclt)|done].
Qed.

Lemma entry_lt_asym x y : entry_lt x y → ¬ entry_lt y x.
Proof. intros H1 H2. eapply entry_lt_irrefl, entry_lt_trans; eauto. Qed.

#[global] Instance entry_lt_strict : StrictOrder entry_lt.
Proof. split; [exact entry_lt_irrefl | exact entry_lt_trans]. Qed.

Lemma is_set_nil : is_set [].
Proof. constructor. Qed.

Lemma is_set_cons_inv x s :
  is_set (x :: s) → is_set s ∧ ∀ y, y ∈ s → entry_lt x y.
Proof.
  intros H. apply StronglySorted_inv in H as [H1 H2]. split; [done|].
  by apply Forall_forall.
Qed.

Lemma is_set_cons x s :
  is_set s → (∀ y, y ∈ s → entry_lt x y) → is_set (x :: s).
Proof. intros H1 H2. constructor; [done|]. by apply Forall_forall. Qed.

Lemma is_set_NoDup s : is_set s → NoDup s.
Proof.
  induction s as [|x s IH]; intros H; [constructor|].
  apply is_set_cons_inv in H as [H1 H2]. constructor; [|by apply IH].
  intros Hin. by apply (entry_lt_irrefl x), H2.
Qed.

(** Two sets with the same elements are the same list. *)
Lemma is_set_unique s1 s2 : is_set s1 → is_set s2 → s1 ≡ₚ s2 → s1 = s2.
Proof.
  intros H1 H2 HP.
  assert (AntiSymm (=) entry_lt).
  { intros x y Hxy Hyx. by destruct (entry_lt_asym x y). }
  by apply (StronglySorted_unique entry_lt).
Qed.

Lemma set_insert_perm x s :
  set_insert x s = s ∧ x ∈ s ∨ set_insert x s ≡ₚ x :: s ∧ (is_set s → x ∉ s).
Proof.
  induction s as [|y s IH]; simpl.
  - right. split; [done|]. intros _. apply not_elem_of_nil.
  - destruct (decide (entry_lt x y)) as [Hxy|Hxy].
    + right. split; [done|]. intros Hs.
      apply is_set_cons_inv in Hs as [Hs Hall]. intros Hin.
      apply elem_of_cons in Hin as [->|Hin]; [by apply entry_lt_irrefl in Hxy|].
      apply Hall in Hin. by apply (entry_lt_asym x y).
    + destruct (decide (entry_lt y x)) as [Hyx|Hyx].
      * destruct IH as [[-> Hin]|[HP Hnin]].
        -- left. split; [done|]. by apply elem_of_cons; right.
        -- right. split; [by rewrite HP; apply Permutation_swap|].
           intros Hs. apply is_set_cons_inv in Hs as [Hs Hall]. intros Hin.
           apply elem_of_cons in Hin as [->|Hin];
             [by apply entry_lt_irrefl in Hyx | by apply Hnin].
      * left. split; [done|]. rewrite (entry_lt_total x y) by done.
        apply elem_of_cons; by left.
Qed.

Lemma elem_of_set_insert x y s : y ∈ set_insert x s ↔ y = x ∨ y ∈ s.
Proof.
  destruct (set_insert_perm x s) as [[-> Hin]|[-> _]].
  - naive_solver.
  - apply elem_of_cons.
Qed.

Lemma set_insert_is_set x s : is_set s → is_set (set_insert x s).
Proof.
  induction s as [|y s IH]; simpl; intros Hs.
  - apply is_set_cons; [done|]. intros ? []%elem_of_nil.
  - destruct (decide (entry_lt x y)) as [Hxy|Hxy].
    + apply is_set_cons; [done|]. intros z Hz.
      apply elem_of_cons in Hz as [->|Hz]; [done|].
      apply is_set_cons_inv in Hs as [_ Hall].
      eapply entry_lt_trans; eauto.
    + destruct (decide (entry_lt y x)) as [Hyx|Hyx]; [|done].
      apply is_set_cons_inv in Hs as [Hs Hall].
      apply is_set_cons; [by apply IH|].
      intros z Hz. apply elem_of_set_insert in Hz as [->|Hz]; auto.
Qed.

Lemma set_erase_spec x s :
  is_set s →
  (x ∈ s ∧ (set_erase x s).1 = 1 ∧ s ≡ₚ x :: (set_erase x s).2) ∨
  (x ∉ s ∧ set_erase x s = (0, s)).
Proof.
  induction s as [|y s IH]; simpl; intros Hs.
  - right. split; [apply not_elem_of_nil|done].
  - apply is_set_cons_inv in Hs as [Hs Hall].
    destruct (decide (entry_lt x y)) as [Hxy|Hxy].
    + right. split; [|done]. intros Hin.
      apply elem_of_cons in Hin as [->|Hin]; [by apply entry_lt_irrefl in Hxy|].
      apply Hall in Hin. by apply (entry_lt_asym x y).
    + destruct (decide (entry_lt y x)) as [Hyx|Hyx]; simpl.
      * destruct (IH Hs) as [(Hin & Hc & HP)|[Hnin Heq]].
        -- left. split_and!; [by apply elem_of_cons; right|done|].
           rewrite HP at 1. apply Permutation_swap.
        -- right. rewrite Heq. split; [|done]. intros Hin.
           apply elem_of_cons in Hin as [->|Hin];
             [by apply entry_lt_irrefl in Hyx|done].
      * rewrite (entry_lt_total x y) by done. left.
        split_and!; [by apply elem_of_cons; left|done|done].
Qed.

Lemma set_erase_is_set x s : is_set s → is_set (set_erase x s).2.
Proof.
  induction s as [|y s IH]; simpl; intros Hs; [done|].
  destruct (decide (entry_lt x y)); [done|].
  apply is_set_cons_inv in Hs as [Hs Hall].
  destruct (decide (entry_lt y x)); simpl; [|done].
  apply is_set_cons; [by apply IH|]. intros z Hz. apply Hall.
  destruct (set_erase_spec x s Hs) as [(_ & _ & HP)|[_ Heq]].
  - rewrite HP. by apply elem_of_cons; right.
  - by rewrite Heq in Hz.
Qed.

Lemma elem_of_set_erase x y s :
  is_set s → y ∈ (set_erase x s).2 ↔ y ∈ s ∧ y ≠ x.
Proof.
  intros Hs. destruct (set_erase_spec x s Hs) as [(Hin & _ & HP)|[Hnin Heq]].
  - pose proof (is_set_NoDup _ Hs) as Hnd. rewrite HP in Hnd.
    apply NoDup_cons in Hnd as [Hx _]. rewrite HP at 2.
    rewrite elem_of_cons. naive_solver.
  - rewrite Heq; simpl. naive_solver.
Qed.

Lemma set_erase_count x s :
  is_set s → (set_erase x s).1 = if decide (x ∈ s) then 1 else 0.
Proof.
  intros Hs. destruct (set_erase_spec x s Hs) as [(Hin & Hc & _)|[Hnin Heq]].
  - by rewrite decide_True.
  - by rewrite decide_False, Heq.
Qed.

(** [cbegin] is the least element and [crbegin] the greatest. *)
Lemma set_cbegin_min s e :
  is_set s → set_cbegin s = Ok e →
  e ∈ s ∧ ∀ y, y ∈ s → y = e ∨ entry_lt e y.
Proof.
  destruct s as [|x s]; simpl; intros Hs [= <-].
  apply is_set_cons_inv in Hs as [_ Hall].
  split; [by apply elem_of_cons; left|].
  intros y [->|Hy]%elem_of_cons; auto.
Qed.

Lemma set_crbegin_max s e :
  is_set s → set_crbegin s = Ok e →
  e ∈ s ∧ ∀ y, y ∈ s → y = e ∨ entry_lt y e.
Proof.
  unfold set_crbegin. destruct (last s) as [x|] eqn:Hl; [|done].
  intros Hs [= <-]. apply last_Some in Hl as [s' ->].
  split; [apply elem_of_app; right; by apply list_elem_of_singleton|].
  intros y [Hy|Hy%list_elem_of_singleton]%elem_of_app; auto.
  right. clear -Hs Hy. induction s' as [|z s' IH]; [by apply elem_of_nil in Hy|].
  simpl in Hs. apply is_set_cons_inv in Hs as [Hs Hall].
  apply elem_of_cons in Hy as [->|Hy]; [|by apply IH].
  apply Hall, elem_of_app. right. by apply list_elem_of_singleton.
Qed.

Lemma set_cbegin_nonempty s : s ≠ [] → ∃ e, set_cbegin s = Ok e.
Proof. destruct s; [done|]. eauto. Qed.

Lemma set_crbegin_nonempty s : s ≠ [] → ∃ e, set_crbegin s = Ok e.
Proof.
  intros Hs. unfold set_crbegin. destruct (last s) eqn:Hl; [eauto|].
  by apply last_None in Hl.
Qed.

(** * Energy updates and the tracking sets *)

(** ** Sums of scalars *)

Lemma sumQc_cons x l : sumQc (x :: l) = (x + sumQc l)%Qc.
Proof. done. Qed.

Lemma sumQc_app l1 l2 : sumQc (l1 ++ l2) = (sumQc l1 + sumQc l2)%Qc.
Proof.
  induction l1 as [|x l1 IH]; [by rewrite Qcplus_0_l|].
  rewrite <- app_comm_cons, !sumQc_cons, IH. ring.
Qed.


Lemma sumQc_fmap_ext {A} (F G : A → Qc) l :
  (∀ x, x ∈ l → F x = G x) → sumQc (F <$> l) = sumQc (G <$> l).
Proof.
  induction l as [|x l IH]; intros H; [done|].
  rewrite !fmap_cons, !sumQc_cons.
  rewrite IH by (intros y Hy; apply H; by right).
  by rewrite H by left.
Qed.


Lemma sumQc_fmap_opp {A} (F : A → Qc) l :
  sumQc ((λ x, - F x)%Qc <$> l) = (- sumQc (F <$> l))%Qc.
Proof.
  induction l as [|x l IH]; [done|].
  rewrite !fmap_cons, !sumQc_cons, IH. ring.
Qed.

Lemma sumQc_fmap_zero {A} (l : list A) : sumQc ((λ _, 0%Qc) <$> l) = 0%Qc.
Proof.
  induction l as [|x l IH]; [done|].
  rewrite !fmap_cons, !sumQc_cons, IH. ring.
Qed.

(** ** The parts of the state an update leaves alone *)

Lemma update_content t v st : content (update t v st) = content st.
Proof. unfold update. repeat case_bool_decide; simpl; repeat case_match; done. Qed.

Lemma update_filter t v st : filter (update t v st) = filter st.
Proof. unfold update. repeat case_bool_decide; simpl; repeat case_match; done. Qed.

Lemma update_flag t v st :
  _cluster_tracking_is_on (update t v st) = _cluster_tracking_is_on st.
Proof. unfold update. repeat case_bool_decide; simpl; repeat case_match; done. Qed.

Lemma update_weights_eq t v st :
  weights (update t v st) =
    set_idx (weights st) (T3_to_idx (content st) t)
      (at_idx (weights st) (T3_to_idx (content st) t) + v)%Qc.
Proof. unfold update. repeat case_bool_decide; simpl; repeat case_match; done. Qed.

Lemma update_state_ok t v st : state_ok st → state_ok (update t v st).
Proof.
  intros (H1 & H2 & H3). unfold state_ok.
  rewrite update_content, update_weights_eq.
  split_and!; [done|by apply set_idx_lattice_ok|done].
Qed.

Lemma state_ok_idx_range st t :
  state_ok st →
  0 ≤ T3_to_idx (content st) t < Z.of_nat (length (_mat3D (weights st))).
Proof.
  intros (H1 & H2 & H3). pose proof (T3_to_idx_range _ t H1) as Hr.
  destruct H2 as (? & ? & ? & ? & Hs & Hlen). destruct H3 as (_ & _ & _ & _ & Hsz).
  rewrite Hlen. lia.
Qed.

Lemma update_weights t v st i :
  state_ok st → 0 ≤ i →
  at_idx (weights (update t v st)) i =
    (at_idx (weights st) i +
     if decide (T3_to_idx (content st) t = i) then v else 0)%Qc.
Proof.
  intros Hok Hi. rewrite update_weights_eq.
  pose proof (state_ok_idx_range st t Hok) as Hr.
  rewrite at_idx_set_idx by lia.
  destruct (decide (T3_to_idx (content st) t = i)) as [<-|Hne].
  - by rewrite decide_True by lia.
  - rewrite decide_False by tauto. ring.
Qed.

(** ** Sound tracking sets *)

Lemma tracks_entry P W s e : tracks P W s → e ∈ s → e = (at_idx W e.2, e.2).
Proof.
  intros [_ H] He. destruct e as [w i].
  destruct (H _ He) as (_ & _ & Hw); simpl in *. by subst.
Qed.

Lemma tracks_index P W s w j :
  tracks P W s → (w, j) ∈ s → (at_idx W j, j) ∈ s ∧ P j ∧ 0 ≤ j < _size W.
Proof.
  intros Ht He. pose proof (tracks_entry _ _ _ _ Ht He) as Heq; simpl in Heq.
  destruct Ht as [_ H]. destruct (H _ He) as (? & ? & ?). by rewrite <- Heq.
Qed.

Lemma tracks_weaken (P Q : Z → Prop) W s :
  tracks P W s → (∀ e, e ∈ s → P e.2 → Q e.2) → tracks Q W s.
Proof. intros [Hs H] HPQ. split; [done|]. intros e He. naive_solver. Qed.

Lemma tracks_erase P W s x : tracks P W s → tracks P W (set_erase x s).2.
Proof.
  intros [Hs H]. split; [by apply set_erase_is_set|].
  intros e He. apply elem_of_set_erase in He as [He _]; auto.
Qed.

Lemma tracks_insert P W s j :
  tracks P W s → P j → 0 ≤ j < _size W →
  tracks P W (set_insert (at_idx W j, j) s).
Proof.
  intros [Hs H] HP Hj. split; [by apply set_insert_is_set|].
  intros e [->|He]%elem_of_set_insert; auto.
Qed.

(** Changing the energy of a voxel without an entry keeps the set sound. *)
Lemma tracks_untracked P W s j w :
  tracks P W s → (at_idx W j, j) ∉ s → 0 ≤ j →
  tracks P (set_idx W j w) s.
Proof.
  intros Ht Hnin Hj. pose proof Ht as [Hs H]. split; [done|].
  intros e He. destruct (H _ He) as (Hr & HP & Hw).
  split; [exact Hr|]. split; [exact HP|].
  rewrite at_idx_set_idx by lia. rewrite decide_False; [done|].
  intros [Heq _]. apply Hnin. rewrite Heq.
  by rewrite <- (tracks_entry _ _ _ _ Ht He).
Qed.

(** Erasing a voxel's entry and inserting it again under the new energy. *)
Lemma tracks_rekey P W s j w :
  tracks P W s → (at_idx W j, j) ∈ s → lattice_ok W →
  tracks P (set_idx W j w) (set_insert (w, j) (set_erase (at_idx W j, j) s).2) ∧
  (set_insert (w, j) (set_erase (at_idx W j, j) s).2).*2 ≡ₚ s.*2.
Proof.
  intros Ht Hin HW. pose proof Ht as [Hs H].
  destruct (H _ Hin) as (Hj & HP & _); simpl in Hj, HP.
  destruct (set_erase_spec (at_idx W j, j) s Hs) as [(_ & _ & HPerm)|[Hnin _]];
    [|done].
  set (r := (set_erase (at_idx W j, j) s).2) in *.
  assert (∀ e, e ∈ r → e ∈ s ∧ e.2 ≠ j) as Hr.
  { intros e He. apply elem_of_set_erase in He as [He Hne]; [|done].
    split; [done|]. intros <-. apply Hne. by apply (tracks_entry P W s). }
  assert ((w, j) ∉ r) as Hwj by (intros He; by destruct (Hr _ He)).
  assert (set_insert (w, j) r ≡ₚ (w, j) :: r) as HPi.
  { destruct (set_insert_perm (w, j) r) as [[_ ?]|[? _]]; done. }
  split.
  - split; [by apply set_insert_is_set, set_erase_is_set|].
    assert (Z.of_nat (length (_mat3D W)) = _size W) as Hlen.
    { destruct HW as (? & ? & ? & ? & ? & ->). lia. }
    intros e [->|He]%elem_of_set_insert; simpl.
    + split; [exact Hj|]. split; [exact HP|]. rewrite at_idx_set_idx by lia.
      by rewrite decide_True by lia.
    + destruct (Hr _ He) as [He' Hne]. destruct (H _ He') as (Hr' & HP' & Hw').
      split; [exact Hr'|]. split; [exact HP'|]. rewrite at_idx_set_idx by lia.
      by rewrite decide_False by naive_solver.
  - rewrite HPi, HPerm. done.
Qed.

Lemma at_idx_set_idx_same W j w :
  lattice_ok W → 0 ≤ j < _size W → at_idx (set_idx W j w) j = w.
Proof.
  intros (? & ? & ? & ? & ? & Hlen) Hj. rewrite at_idx_set_idx by lia.
  rewrite decide_True; [done|]. rewrite Hlen. lia.
Qed.

(** The two branches of [update], on a set that is sound for a class of
    voxels: the entry of voxel [j] is erased and, when it was there, inserted
    again under the new energy. *)
Lemma tracks_update_branch P W s j v :
  tracks P W s → lattice_ok W → 0 ≤ j < _size W →
  let r := set_erase (at_idx W j, j) s in
  let W' := set_idx W j (at_idx W j + v)%Qc in
  let s' := if bool_decide (r.1 ≠ 0) then set_insert (at_idx W' j, j) r.2
            else r.2 in
  tracks P W' s' ∧ s'.*2 ≡ₚ s.*2.
Proof.
  intros Ht HW Hj r W' s'. subst s' W'.
  rewrite at_idx_set_idx_same by done.
  destruct (set_erase_spec (at_idx W j, j) s (proj1 Ht))
    as [(Hin & Hc & HP)|[Hnin Heq]]; subst r.
  - rewrite Hc. rewrite bool_decide_true by done. by apply tracks_rekey.
  - rewrite Heq; simpl. split; [|done]. apply tracks_untracked; [done..|lia].
Qed.

Lemma update_void t v st :
  state_ok st → void_sound st →
  void_sound (update t v st) ∧ void_idx (update t v st) ≡ₚ void_idx st.
Proof.
  intros Hok Hv. pose proof (state_ok_idx_range st t Hok) as Hr.
  unfold void_sound, void_idx. rewrite update_content.
  unfold update. set (j := T3_to_idx (content st) t) in *.
  destruct Hok as (Hc & HW & Hd).
  assert (0 ≤ j < _size (weights st)) as Hj.
  { destruct HW as (? & ? & ? & ? & ? & Hlen). lia. }
  case_bool_decide as Hon; simpl.
  - assert (tracks (λ i, at_idx (content st) i = 0%Qc)
              (set_idx (weights st) j (at_idx (weights st) j + v)%Qc)
              (_track_void st)) as Ht.
    { apply tracks_untracked; [done| |lia].
      intros Hin. by destruct (proj2 Hv _ Hin) as (_ & ? & _). }
    by case_match.
  - pose proof (tracks_update_branch _ _ _ j v Hv HW Hj) as Hb; simpl in Hb.
    by case_bool_decide.
Qed.

Lemma update_cluster t v st :
  state_ok st → cluster_sound st → _cluster_tracking_is_on st = true →
  cluster_sound (update t v st) ∧ cluster_idx (update t v st) ≡ₚ cluster_idx st.
Proof.
  intros Hok Hv Hflag. pose proof (state_ok_idx_range st t Hok) as Hr.
  unfold cluster_sound, cluster_idx. rewrite update_content.
  unfold update. set (j := T3_to_idx (content st) t) in *.
  destruct Hok as (Hc & HW & Hd).
  assert (0 ≤ j < _size (weights st)) as Hj.
  { destruct HW as (? & ? & ? & ? & ? & Hlen). lia. }
  case_bool_decide as Hon; simpl.
  - rewrite Hflag, andb_true_r.
    pose proof (tracks_update_branch _ _ _ j v Hv HW Hj) as Hb; simpl in Hb.
    by case_bool_decide.
  - assert (tracks (λ i, at_idx (content st) i ≠ 0%Qc)
              (set_idx (weights st) j (at_idx (weights st) j + v)%Qc)
              (_track_cluster st)) as Ht.
    { apply tracks_untracked; [done| |lia].
      intros Hin. by destruct (proj2 Hv _ Hin) as (_ & ? & _). }
    by case_match.
Qed.

(** With cluster tracking off and the cluster set cleared, it stays empty. *)
Lemma update_cluster_off t v st :
  _track_cluster st = [] → _cluster_tracking_is_on st = false →
  _track_cluster (update t v st) = [].
Proof.
  intros Hc Hflag. unfold update.
  case_bool_decide; simpl.
  - rewrite Hc; simpl. done.
  - by case_bool_decide.
Qed.

(** ** Batches of updates *)

Lemma apply_updates_content l st : content (apply_updates l st) = content st.
Proof.
  revert st. induction l as [|p l IH]; intros st; simpl; [done|].
  unfold apply_updates in *; simpl. by rewrite IH, update_content.
Qed.

Lemma apply_updates_filter l st : filter (apply_updates l st) = filter st.
Proof.
  revert st. induction l as [|p l IH]; intros st; simpl; [done|].
  unfold apply_updates in *; simpl. by rewrite IH, update_filter.
Qed.

Lemma apply_updates_flag l st :
  _cluster_tracking_is_on (apply_updates l st) = _cluster_tracking_is_on st.
Proof.
  revert st. induction l as [|p l IH]; intros st; simpl; [done|].
  unfold apply_updates in *; simpl. by rewrite IH, update_flag.
Qed.

Lemma apply_updates_state_ok l st : state_ok st → state_ok (apply_updates l st).
Proof.
  revert st. induction l as [|p l IH]; intros st Hok; simpl; [done|].
  unfold apply_updates in *; simpl. by apply IH, update_state_ok.
Qed.

Lemma apply_updates_weights l st i :
  state_ok st → 0 ≤ i →
  at_idx (weights (apply_updates l st)) i =
    (at_idx (weights st) i + delta (content st) l i)%Qc.
Proof.
  intros Hok Hi. revert st Hok.
  induction l as [|p l IH]; intros st Hok.
  - unfold delta; simpl. ring.
  - unfold apply_updates in *; simpl.
    rewrite IH by by apply update_state_ok.
    rewrite update_weights, update_content by done.
    unfold delta. rewrite fmap_cons, sumQc_cons. ring.
Qed.

Lemma apply_updates_void l st :
  state_ok st → void_sound st →
  void_sound (apply_updates l st) ∧ void_idx (apply_updates l st) ≡ₚ void_idx st.
Proof.
  revert st. induction l as [|p l IH]; intros st Hok Hv; [done|].
  unfold apply_updates in *; simpl.
  destruct (update_void p.1 p.2 st Hok Hv) as [Hv' HP].
  destruct (IH _ (update_state_ok _ _ _ Hok) Hv') as [Hv'' HP'].
  split; [done|]. by rewrite HP'.
Qed.

Lemma apply_updates_cluster l st :
  state_ok st → cluster_sound st → _cluster_tracking_is_on st = true →
  cluster_sound (apply_updates l st) ∧
  cluster_idx (apply_updates l st) ≡ₚ cluster_idx st.
Proof.
  revert st. induction l as [|p l IH]; intros st Hok Hv Hflag; [done|].
  unfold apply_updates in *; simpl.
  destruct (update_cluster p.1 p.2 st Hok Hv Hflag) as [Hv' HP].
  destruct (IH (update p.1 p.2 st)) as [Hv'' HP'];
    [by apply update_state_ok|done|by rewrite update_flag|].
  split; [done|]. by rewrite HP'.
Qed.

Lemma apply_updates_cluster_off l st :
  _track_cluster st = [] → _cluster_tracking_is_on st = false →
  _track_cluster (apply_updates l st) = [].
Proof.
  revert st. induction l as [|p l IH]; intros st Hc Hflag; [done|].
  unfold apply_updates in *; simpl. apply IH.
  - by apply update_cluster_off.
  - by rewrite update_flag.
Qed.

Lemma delta_negate m l i : delta m (negate <$> l) i = (- delta m l i)%Qc.
Proof.
  unfold delta. rewrite <- list_fmap_compose, <- sumQc_fmap_opp.
  apply sumQc_fmap_ext. intros p _; simpl. case_decide; ring.
Qed.

Lemma fold_update_filter (pos : T3 → T3) (val : Matrix3D → T3 → Qc) f l st :
  filter st = f →
  fold_left (λ st g, update (pos g) (val (filter st) g) st) l st =
  apply_updates ((λ g, (pos g, val f g)) <$> l) st.
Proof.
  revert st. induction l as [|g l IH]; intros st Hf; [done|].
  unfold apply_updates in *; simpl. rewrite IH by by rewrite update_filter.
  by rewrite Hf.
Qed.

(** [conv_at] and [deconv_at] are the batches of the kernel footprint. *)
Lemma conv_at_updates r st :
  conv_at r st = apply_updates (footprint (filter st) r) st.
Proof.
  unfold conv_at, footprint. rewrite for3_cells.
  by apply (fold_update_filter
              (λ g, (r + g - filter_center (filter st))%T3) (λ f g, get f g)).
Qed.

Lemma deconv_at_updates r st :
  deconv_at r st = apply_updates (negate <$> footprint (filter st) r) st.
Proof.
  unfold deconv_at, footprint. rewrite for3_cells, <- list_fmap_compose.
  by apply (fold_update_filter
              (λ g, (r + g - filter_center (filter st))%T3)
              (λ f g, (- get f g)%Qc)).
Qed.

Lemma tracks_erase_rekey P W s j w :
  tracks P W s → 0 ≤ j →
  tracks P (set_idx W j w) (set_erase (at_idx W j, j) s).2.
Proof.
  intros Ht Hj. apply tracks_untracked; [by apply tracks_erase| |done].
  intros Hin. apply elem_of_set_erase in Hin as [_ Hne]; [done|apply Ht].
Qed.

(** Soundness of the cluster set survives an update whether or not cluster
    tracking is on. *)
Lemma update_cluster_sound t v st :
  state_ok st → cluster_sound st → cluster_sound (update t v st).
Proof.
  intros Hok Hv. destruct (_cluster_tracking_is_on st) eqn:Hflag.
  { by apply update_cluster. }
  pose proof (state_ok_idx_range st t Hok) as Hr.
  unfold cluster_sound. rewrite update_content.
  unfold update. set (j := T3_to_idx (content st) t) in *.
  case_bool_decide as Hon; simpl.
  - rewrite Hflag, andb_false_r. simpl. apply tracks_erase_rekey; [done|lia].
  - assert (tracks (λ i, at_idx (content st) i ≠ 0%Qc)
              (set_idx (weights st) j (at_idx (weights st) j + v)%Qc)
              (_track_cluster st)) as Ht.
    { apply tracks_untracked; [done| |lia].
      intros Hin. by destruct (proj2 Hv _ Hin) as (_ & ? & _). }
    by case_match.
Qed.

Lemma apply_updates_cluster_sound l st :
  state_ok st → cluster_sound st → cluster_sound (apply_updates l st).
Proof.
  revert st. induction l as [|p l IH]; intros st Hok Hv; [done|].
  unfold apply_updates in *; simpl.
  apply IH; [by apply update_state_ok|by apply update_cluster_sound].
Qed.

(** * Turning a voxel on and off *)

Lemma set_at_same_dims m t v : same_dims (set_at m t v) m.
Proof. done. Qed.

Lemma at_idx_set_at m t v i :
  lattice_ok m → 0 ≤ i →
  at_idx (set_at m t v) i = if decide (T3_to_idx m t = i) then v else at_idx m i.
Proof.
  intros Hm Hi. unfold set_at. pose proof (T3_to_idx_range m t Hm) as Hr.
  rewrite at_idx_set_idx by lia.
  destruct Hm as (? & ? & ? & ? & ? & Hlen).
  destruct (decide (T3_to_idx m t = i)) as [<-|Hne].
  - rewrite decide_True; [done|]. rewrite Hlen. lia.
  - by rewrite decide_False by tauto.
Qed.

Lemma set_pixel_throw t v st :
  (0 < at_ (content st) t)%Qc →
  set_pixel t v st = (Fail (Throw "already set"), st).
Proof. intros H. unfold set_pixel. by rewrite bool_decide_true. Qed.

Lemma set_pixel_run t v st :
  ¬ (0 < at_ (content st) t)%Qc →
  set_pixel t v st = (Ok tt, toggled_on t v st).
Proof. intros H. unfold set_pixel. by rewrite bool_decide_false. Qed.

Lemma set_pixel_run_snd t v st :
  ¬ (0 < at_ (content st) t)%Qc →
  set_pixel t v st = (Ok tt, (set_pixel t v st).2).
Proof. intros H. by rewrite set_pixel_run. Qed.

Lemma erase_idx_perm (s : list entry) x :
  is_set s → x ∈ s → s.*2 ≡ₚ x.2 :: (set_erase x s).2.*2.
Proof.
  intros Hs Hin. destruct (set_erase_spec x s Hs) as [(_ & _ & HP)|[? _]]; [|done].
  rewrite HP at 1. done.
Qed.

Lemma erase_idx_absent (s : list entry) x :
  is_set s → x ∉ s → (set_erase x s).2 = s.
Proof.
  intros Hs Hin. destruct (set_erase_spec x s Hs) as [(? & _)|[_ ->]]; done.
Qed.

Lemma insert_idx_perm (s : list entry) x :
  x ∉ s → (set_insert x s).*2 ≡ₚ x.2 :: s.*2.
Proof.
  intros Hin. destruct (set_insert_perm x s) as [[_ ?]|[-> _]]; done.
Qed.

Lemma tracks_idx P W s j :
  tracks P W s → j ∈ s.*2 ↔ (at_idx W j, j) ∈ s.
Proof.
  intros Ht. rewrite list_elem_of_fmap. split.
  - intros ([w i] & -> & He). by apply (tracks_index P W s w i).
  - intros He. by exists (at_idx W j, j).
Qed.

Section toggle.
  Context (t : T3) (st : tracking).
  Context (Hok : state_ok st).
Let c := T3_to_idx (content st) t.

Lemma toggle_idx_range : 0 ≤ c < _size (content st).
  Proof. apply T3_to_idx_range, Hok. Qed.

Lemma toggle_idx_range_w : 0 ≤ c < _size (weights st).
  Proof.
    pose proof toggle_idx_range. destruct Hok as (_ & _ & (_ & _ & _ & _ & ->)).
    done.
  Qed.

  (** *** [set_pixel] *)

Lemma toggled_on_content v :
    content (toggled_on t v st) = set_at (content st) t v.
  Proof.
    unfold toggled_on. rewrite conv_at_updates, apply_updates_content.
    unfold add_to_cluster; simpl. by case_match.
  Qed.

Lemma toggled_on_filter v : filter (toggled_on t v st) = filter st.
  Proof.
    unfold toggled_on. rewrite conv_at_updates, apply_updates_filter.
    unfold add_to_cluster; simpl. by case_match.
  Qed.

Lemma toggled_on_flag v :
    _cluster_tracking_is_on (toggled_on t v st) = _cluster_tracking_is_on st.
  Proof.
    unfold toggled_on. rewrite conv_at_updates, apply_updates_flag.
    unfold add_to_cluster; simpl. by case_match.
  Qed.

Let st1 v := add_to_cluster t (with_content st (set_at (content st) t v)).

Lemma st1_ok v : state_ok (st1 v).
  Proof.
    destruct Hok as (H1 & H2 & H3). unfold st1, add_to_cluster; simpl.
    case_match; (split_and!; [by apply set_idx_lattice_ok|done|done]).
  Qed.

Lemma toggled_on_state_ok v : state_ok (toggled_on t v st).
  Proof.
    unfold toggled_on. rewrite conv_at_updates.
    apply apply_updates_state_ok, st1_ok.
  Qed.

Lemma toggled_on_weights v i :
    0 ≤ i →
    at_idx (weights (toggled_on t v st)) i =
      (at_idx (weights st) i + kern (filter st) (content st) t i)%Qc.
  Proof.
    intros Hi. unfold toggled_on. rewrite conv_at_updates.
    rewrite apply_updates_weights by (apply st1_ok || done).
    unfold kern, delta. fold (st1 v).
    assert (weights (st1 v) = weights st) as ->.
    { unfold st1, add_to_cluster; simpl. by case_match. }
    assert (filter (st1 v) = filter st) as ->.
    { unfold st1, add_to_cluster; simpl. by case_match. }
    assert (content (st1 v) = set_at (content st) t v) as ->.
    { unfold st1, add_to_cluster; simpl. by case_match. }
    reflexivity.
  Qed.

  (** The void set after [set_pixel]: the voxel's entry is gone, the others
      are as before, under their new energies. *)
Lemma toggled_on_void v :
    void_sound st → at_idx (content st) c = 0%Qc →
    void_sound (toggled_on t v st) ∧
    (c ∈ void_idx st → void_idx st ≡ₚ c :: void_idx (toggled_on t v st)) ∧
    (c ∉ void_idx st → void_idx (toggled_on t v st) ≡ₚ void_idx st).
  Proof.
    intros Hv Hc. pose proof toggle_idx_range as Hr.
    assert (void_sound (st1 v) ∧
            _track_void (st1 v) =
              (set_erase (at_idx (weights st) c, c) (_track_void st)).2)
      as [Hv1 Heq].
    { split; [|unfold st1, add_to_cluster; simpl; by case_match].
      assert (tracks (λ i, at_idx (set_at (content st) t v) i = 0%Qc)
                (weights st)
                (set_erase (at_idx (weights st) c, c) (_track_void st)).2).
      { eapply tracks_weaken; [by apply tracks_erase|]. intros e He HP.
        simpl in HP. apply elem_of_set_erase in He as [He Hne]; [|apply Hv].
        rewrite at_idx_set_at; [|apply Hok|by apply (proj2 Hv)].
        rewrite decide_False; [done|]. fold c. intros Hce. apply Hne.
        rewrite (tracks_entry _ _ _ _ Hv He). by rewrite <- Hce. }
      unfold void_sound, st1, add_to_cluster; simpl. by case_match. }
    unfold toggled_on. rewrite conv_at_updates. fold (st1 v).
    destruct (apply_updates_void (footprint (filter (st1 v)) t) (st1 v))
      as [Hv2 HP]; [apply st1_ok|done|].
    split; [done|]. unfold void_idx in *. rewrite HP, Heq.
    split.
    - intros Hin. apply (tracks_idx _ _ _ _ Hv) in Hin.
      by apply (erase_idx_perm _ (at_idx (weights st) c, c)); [apply Hv|].
    - intros Hnin. rewrite erase_idx_absent; [done|apply Hv|].
      intros Hin. apply Hnin. by apply (tracks_idx _ _ _ _ Hv).
  Qed.

  (** The cluster set after [set_pixel] with a non-zero value. *)
Lemma toggled_on_cluster v :
    void_sound st → cluster_sound st → at_idx (content st) c = 0%Qc →
    v ≠ 0%Qc →
    cluster_sound (toggled_on t v st) ∧
    (_cluster_tracking_is_on st = true →
       if decide (c ∈ void_idx st)
       then cluster_idx (toggled_on t v st) ≡ₚ c :: cluster_idx st
       else cluster_idx (toggled_on t v st) ≡ₚ cluster_idx st).
  Proof.
    intros Hv Hcl Hc Hne. pose proof toggle_idx_range as Hr.
    pose proof toggle_idx_range_w as Hrw.
    assert ((at_idx (weights st) c, c) ∉ _track_cluster st) as Hnc.
    { intros Hin. by destruct (proj2 Hcl _ Hin) as (_ & ? & _). }
    assert (tracks (λ i, at_idx (set_at (content st) t v) i ≠ 0%Qc)
              (weights st) (_track_cluster st)) as Hcl'.
    { eapply tracks_weaken; [done|]. intros e He HP. simpl in HP.
      rewrite at_idx_set_at; [|apply Hok|by apply (proj2 Hcl)].
      case_decide; done. }
    assert (cluster_sound (st1 v)) as Hcl1.
    { unfold cluster_sound, st1, add_to_cluster; simpl. case_match; [|done].
      simpl. fold c. apply tracks_insert; [done| |done].
      rewrite at_idx_set_at; [|apply Hok|apply Hr]. by rewrite decide_True. }
    unfold toggled_on. rewrite conv_at_updates. fold (st1 v).
    split; [by apply apply_updates_cluster_sound; [apply st1_ok|]|].
    intros Hflag.
    destruct (apply_updates_cluster (footprint (filter (st1 v)) t) (st1 v))
      as [_ HP]; [apply st1_ok|done| |].
    { unfold st1, add_to_cluster; simpl. by case_match. }
    destruct (set_erase_spec (at_idx (weights st) c, c) (_track_void st))
      as [(Hin & Hcnt & _)|[Hnin Heq]]; [apply Hv|..].
    - rewrite decide_True by by apply (tracks_idx _ _ _ _ Hv).
      rewrite HP. unfold cluster_idx, st1, add_to_cluster; simpl.
      change (T3_to_idx (set_at (content st) t v) t) with c.
      rewrite Hflag, andb_true_r, Hcnt, bool_decide_true by done. simpl.
      by apply (insert_idx_perm _ (at_idx (weights st) c, c)).
    - rewrite decide_False.
      2: { intros ?. apply Hnin. by apply (tracks_idx _ _ _ _ Hv). }
      rewrite HP. unfold cluster_idx, st1, add_to_cluster; simpl.
      change (T3_to_idx (set_at (content st) t v) t) with c.
      rewrite Heq, bool_decide_false by (intros ?; done). done.
  Qed.

Lemma toggled_on_cluster_off v :
    _track_cluster st = [] → _cluster_tracking_is_on st = false →
    _track_cluster (toggled_on t v st) = [].
  Proof.
    intros Hc Hflag. unfold toggled_on. rewrite conv_at_updates.
    apply apply_updates_cluster_off.
    - unfold add_to_cluster; simpl. rewrite Hflag, andb_false_r. done.
    - unfold add_to_cluster; simpl. by case_match.
  Qed.
End toggle.

Section toggle_off.
  Context (t : T3) (st : tracking).
  Context (Hok : state_ok st).
Let c := T3_to_idx (content st) t.
Let st1 := add_to_void t (with_content st (set_at (content st) t 0%Qc)).

  (** *** [reset_pixel] *)

Lemma reset_pixel_content :
    content (reset_pixel t st) = set_at (content st) t 0%Qc.
  Proof.
    unfold reset_pixel. by rewrite deconv_at_updates, apply_updates_content.
  Qed.

Lemma reset_pixel_filter : filter (reset_pixel t st) = filter st.
  Proof.
    unfold reset_pixel. by rewrite deconv_at_updates, apply_updates_filter.
  Qed.

Lemma reset_pixel_flag :
    _cluster_tracking_is_on (reset_pixel t st) = _cluster_tracking_is_on st.
  Proof.
    unfold reset_pixel. by rewrite deconv_at_updates, apply_updates_flag.
  Qed.

Lemma reset_st1_ok : state_ok st1.
  Proof.
    destruct Hok as (H1 & H2 & H3). unfold st1, add_to_void; simpl.
    split_and!; [by apply set_idx_lattice_ok|done|done].
  Qed.

Lemma reset_pixel_state_ok : state_ok (reset_pixel t st).
  Proof.
    unfold reset_pixel. rewrite deconv_at_updates.
    apply apply_updates_state_ok, reset_st1_ok.
  Qed.

Lemma reset_pixel_weights i :
    0 ≤ i →
    at_idx (weights (reset_pixel t st)) i =
      (at_idx (weights st) i - kern (filter st) (content st) t i)%Qc.
  Proof.
    intros Hi. unfold reset_pixel. rewrite deconv_at_updates.
    rewrite apply_updates_weights by (apply reset_st1_ok || done).
    rewrite delta_negate. reflexivity.
  Qed.

Lemma reset_pixel_void :
    void_sound st →
    void_sound (reset_pixel t st) ∧
    (c ∈ void_idx st → void_idx (reset_pixel t st) ≡ₚ void_idx st) ∧
    (c ∉ void_idx st → void_idx (reset_pixel t st) ≡ₚ c :: void_idx st).
  Proof.
    intros Hv. pose proof (toggle_idx_range t st Hok) as Hr.
    pose proof (toggle_idx_range_w t st Hok) as Hrw. fold c in Hr, Hrw.
    assert (_track_void st1 =
              set_insert (at_idx (weights st) c, c) (_track_void st)) as Heq
      by done.
    assert (void_sound st1) as Hv1.
    { unfold void_sound. rewrite Heq.
      change (weights st1) with (weights st).
      change (content st1) with (set_at (content st) t 0%Qc).
      apply tracks_insert; [|by rewrite at_idx_set_at, decide_True by
                                  (apply Hok || apply Hr || done)|done].
      eapply tracks_weaken; [done|]. intros e He HP. simpl in *.
      rewrite at_idx_set_at; [|apply Hok|by apply (proj2 Hv)].
      by case_decide. }
    unfold reset_pixel. rewrite deconv_at_updates. fold st1.
    destruct (apply_updates_void (negate <$> footprint (filter st1) t) st1)
      as [Hv2 HP]; [apply reset_st1_ok|done|].
    split; [done|]. unfold void_idx in *. rewrite HP, Heq. split.
    - intros Hin. apply (tracks_idx _ _ _ _ Hv) in Hin.
      destruct (set_insert_perm (at_idx (weights st) c, c) (_track_void st))
        as [[-> _]|[_ Hnin]]; [done|]. by destruct Hnin; [apply Hv|].
    - intros Hnin. apply (insert_idx_perm _ (at_idx (weights st) c, c)).
      intros Hin. apply Hnin. by apply (tracks_idx _ _ _ _ Hv).
  Qed.

Lemma reset_pixel_cluster :
    cluster_sound st →
    cluster_sound (reset_pixel t st) ∧
    (_cluster_tracking_is_on st = true →
       (c ∈ cluster_idx st → cluster_idx st ≡ₚ c :: cluster_idx (reset_pixel t st)) ∧
       (c ∉ cluster_idx st → cluster_idx (reset_pixel t st) ≡ₚ cluster_idx st)).
  Proof.
    intros Hcl. pose proof (toggle_idx_range t st Hok) as Hr.
    assert (_track_cluster st1 =
              (set_erase (at_idx (weights st) c, c) (_track_cluster st)).2)
      as Heq by done.
    assert (cluster_sound st1) as Hcl1.
    { unfold cluster_sound. rewrite Heq.
      change (weights st1) with (weights st).
      change (content st1) with (set_at (content st) t 0%Qc).
      eapply tracks_weaken; [by apply tracks_erase|]. intros e He HP.
      simpl in HP. apply elem_of_set_erase in He as [He Hne]; [|apply Hcl].
      rewrite at_idx_set_at; [|apply Hok|by apply (proj2 Hcl)].
      rewrite decide_False; [done|]. fold c. intros Hce. apply Hne.
      rewrite (tracks_entry _ _ _ _ Hcl He). by rewrite <- Hce. }
    unfold reset_pixel. rewrite deconv_at_updates. fold st1.
    split; [by apply apply_updates_cluster_sound; [apply reset_st1_ok|]|].
    intros Hflag.
    destruct (apply_updates_cluster (negate <$> footprint (filter st1) t) st1)
      as [_ HP]; [apply reset_st1_ok|done|done|].
    unfold cluster_idx in *. rewrite HP, Heq. split.
    - intros Hin. apply (tracks_idx _ _ _ _ Hcl) in Hin.
      by apply (erase_idx_perm _ (at_idx (weights st) c, c)); [apply Hcl|].
    - intros Hnin. rewrite erase_idx_absent; [done|apply Hcl|].
      intros Hin. apply Hnin. by apply (tracks_idx _ _ _ _ Hcl).
  Qed.

  (** *** [remove_tracking] *)

Lemma remove_tracking_state_ok : state_ok (remove_tracking t st).
  Proof. done. Qed.

Lemma remove_tracking_void :
    void_sound st →
    void_sound (remove_tracking t st) ∧
    (c ∈ void_idx st → void_idx st ≡ₚ c :: void_idx (remove_tracking t st)) ∧
    (c ∉ void_idx st → void_idx (remove_tracking t st) = void_idx st).
  Proof.
    intros Hv. split; [by apply tracks_erase|].
    unfold void_idx, remove_tracking; simpl. fold c. split.
    - intros Hin. apply (tracks_idx _ _ _ _ Hv) in Hin.
      by apply (erase_idx_perm _ (at_idx (weights st) c, c)); [apply Hv|].
    - intros Hnin. rewrite erase_idx_absent; [done|apply Hv|].
      intros Hin. apply Hnin. by apply (tracks_idx _ _ _ _ Hv).
  Qed.

Lemma remove_tracking_cluster :
    cluster_sound st →
    cluster_sound (remove_tracking t st) ∧
    (c ∈ cluster_idx st →
       cluster_idx st ≡ₚ c :: cluster_idx (remove_tracking t st)) ∧
    (c ∉ cluster_idx st → cluster_idx (remove_tracking t st) = cluster_idx st).
  Proof.
    intros Hv. split; [by apply tracks_erase|].
    unfold cluster_idx, remove_tracking; simpl. fold c. split.
    - intros Hin. apply (tracks_idx _ _ _ _ Hv) in Hin.
      by apply (erase_idx_perm _ (at_idx (weights st) c, c)); [apply Hv|].
    - intros Hnin. rewrite erase_idx_absent; [done|apply Hv|].
      intros Hin. apply Hnin. by apply (tracks_idx _ _ _ _ Hv).
  Qed.
End toggle_off.

(** * The kernel *)

(** ** Filling a matrix cell by cell *)

Lemma get_set_at m t v t' :
  lattice_ok m →
  get (set_at m t v) t' =
    if decide (T3_to_idx m t = T3_to_idx m t') then v else get m t'.
Proof.
  intros Hm. unfold get.
  change (T3_to_idx (set_at m t v) t') with (T3_to_idx m t').
  apply at_idx_set_at; [done|]. by apply T3_to_idx_range.
Qed.

Lemma T3_to_idx_small m x y z :
  lattice_ok m → 0 ≤ x < _d0 m → 0 ≤ y < _d1 m → 0 ≤ z < _d2 m →
  T3_to_idx m (x, y, z) = x + y * _d0 m + z * (_d0 m * _d1 m).
Proof.
  intros Hm Hx Hy Hz. rewrite T3_to_idx_spec by done.
  by rewrite !Z.mod_small by done.
Qed.

Lemma T3_to_idx_inj_small m a b :
  lattice_ok m →
  a ∈ cells (_d0 m) (_d1 m) (_d2 m) → b ∈ cells (_d0 m) (_d1 m) (_d2 m) →
  T3_to_idx m a = T3_to_idx m b → a = b.
Proof.
  intros Hm. destruct a as [[x y] z], b as [[x' y'] z'].
  rewrite !elem_of_cells. intros (? & ? & ?) (? & ? & ?) Heq.
  apply T3_to_idx_inj in Heq as (E0 & E1 & E2); [|done].
  rewrite !Z.mod_small in E0, E1, E2 by done. by subst.
Qed.

Lemma fold_set_at_lattice (h : T3 → Qc) l m :
  lattice_ok m →
  lattice_ok (fold_left (λ g i, set_at g i (h i)) l m) ∧
  same_dims (fold_left (λ g i, set_at g i (h i)) l m) m.
Proof.
  revert m. induction l as [|x l IH]; intros m Hm; simpl; [done|].
  destruct (IH (set_at m x (h x))) as [H1 H2]; [by apply set_idx_lattice_ok|].
  done.
Qed.

Lemma fold_set_at_get (h : T3 → Qc) l m c :
  lattice_ok m →
  (∀ a, a ∈ l → a ∈ cells (_d0 m) (_d1 m) (_d2 m)) → c ∈ l →
  get (fold_left (λ g i, set_at g i (h i)) l m) c = h c.
Proof.
  intros Hm. induction l as [|x l IH] using rev_ind; intros Hl Hc.
  { by apply elem_of_nil in Hc. }
  rewrite fold_left_app; simpl.
  destruct (fold_set_at_lattice h l m Hm) as [Hm' Hd].
  rewrite get_set_at by done.
  rewrite (T3_to_idx_dims _ m x), (T3_to_idx_dims _ m c) by done.
  destruct (decide (T3_to_idx m x = T3_to_idx m c)) as [Heq|Hne].
  - f_equal. apply (T3_to_idx_inj_small m); [done| | |done].
    + apply Hl, elem_of_app. right. by apply list_elem_of_singleton.
    + by apply Hl.
  - apply elem_of_app in Hc as [Hc|Hc%list_elem_of_singleton]; [|by subst].
    apply IH; [|done]. intros a Ha. apply Hl, elem_of_app. by left.
Qed.

(** ** [GaussianMatrix] *)

Lemma rem2_odd size : Z.rem size 2 = 1 → 0 < size ∧ 2 * Z.quot size 2 = size - 1.
Proof.
  intros H. pose proof (Z.quot_rem' size 2) as Hq.
  destruct (decide (0 ≤ size)); [lia|].
  pose proof (Z.rem_nonpos size 2 ltac:(lia) ltac:(lia)). lia.
Qed.

Section gaussian.
  Context `{Cxx}.

Lemma GaussianMatrix_fail size sigma :
    Z.rem size 2 ≠ 1 → GaussianMatrix size sigma = Fail AssertFail.
  Proof. intros Hs. unfold GaussianMatrix. by rewrite bool_decide_false. Qed.

Lemma GaussianMatrix_ok size sigma :
    Z.rem size 2 = 1 →
    ∃ g, GaussianMatrix size sigma = Ok g ∧ lattice_ok g ∧
         dim0 g = size ∧ dim1 g = size ∧ dim2 g = size ∧
         ∀ i, i ∈ cells size size size →
              get g i = gauss_weight sigma (Z.quot size 2) i.
  Proof.
    intros Hs. destruct (rem2_odd size Hs) as [Hpos _].
    unfold GaussianMatrix. rewrite bool_decide_true by done.
    eexists. split; [done|]. rewrite for3_cells.
    pose proof (Matrix3D_new_lattice_ok size size size Hpos Hpos Hpos) as Hm.
    destruct (fold_set_at_lattice
                (gauss_weight sigma (Z.quot size 2))
                (cells size size size) (Matrix3D_new size size size) Hm)
      as [Hm' Hd].
    split; [exact Hm'|]. destruct Hd as (E0 & E1 & E2 & _).
    split; [exact E0|]. split; [exact E1|]. split; [exact E2|].
    intros i Hi. by apply (fold_set_at_get (gauss_weight sigma (Z.quot size 2))).
  Qed.

Lemma gauss_weight_reflect sigma size i :
    2 * Z.quot size 2 = size - 1 →
    gauss_weight sigma (Z.quot size 2)
      (size - 1 - get0 i, size - 1 - get1 i, size - 1 - get2 i) =
    gauss_weight sigma (Z.quot size 2) i.
  Proof.
    intros Hc. unfold gauss_weight, get0, get1, get2; simpl.
    do 3 f_equal. unfold dist2. nia.
  Qed.

Lemma GaussianMatrix_sym size sigma g :
    GaussianMatrix size sigma = Ok g → kernel_sym g.
  Proof.
    intros Hg. destruct (decide (Z.rem size 2 = 1)) as [Hs|Hs].
    2: { by rewrite GaussianMatrix_fail in Hg. }
    destruct (GaussianMatrix_ok size sigma Hs)
      as (g' & Hg' & Hm & E0 & E1 & E2 & Hget).
    rewrite Hg in Hg'. injection Hg' as <-.
    destruct (rem2_odd size Hs) as [Hpos Hc].
    split; [done|]. rewrite E0, E1, E2. split_and!; [done..|].
    intros [[x y] z] Hi. unfold reflect. rewrite E0, E1, E2.
    rewrite !Hget; [by apply gauss_weight_reflect|done|].
    apply elem_of_cells in Hi. apply elem_of_cells.
    unfold get0, get1, get2; simpl. lia.
  Qed.
End gaussian.

(** ** The toroidal kernel is symmetric *)

Lemma NoDup_cells d0 d1 d2 : NoDup (cells d0 d1 d2).
Proof.
  unfold cells. apply NoDup_bind; [| |apply NoDup_seqZ].
  - intros z z' [[x y] w] _ _ Hz Hz'.
    apply list_elem_of_bind in Hz as (? & (? & [= _ _ ->]%list_elem_of_singleton & _)%list_elem_of_bind & _).
    apply list_elem_of_bind in Hz' as (? & (? & [= _ _ ->]%list_elem_of_singleton & _)%list_elem_of_bind & _).
    done.
  - intros z _. apply NoDup_bind; [| |apply NoDup_seqZ].
    + intros y y' [[x w] w'] _ _ Hy Hy'.
      apply list_elem_of_bind in Hy as (? & [= _ -> _]%list_elem_of_singleton & _).
      apply list_elem_of_bind in Hy' as (? & [= _ -> _]%list_elem_of_singleton & _).
      done.
    + intros y _. apply NoDup_bind; [| |apply NoDup_seqZ].
      * intros x x' ? _ _ ->%list_elem_of_singleton [=]%list_elem_of_singleton.
        done.
      * intros x _. apply NoDup_singleton.
Qed.


Lemma kern_unfold f m a i :
  kern f m a i =
  sumQc ((λ g, if decide (T3_to_idx m (a + g - filter_center f)%T3 = i)
               then get f g else 0%Qc) <$> cells (dim0 f) (dim1 f) (dim2 f)).
Proof. unfold kern, delta, footprint. by rewrite <- list_fmap_compose. Qed.

Lemma mod_eq_add x y k d :
  x mod d = y mod d → (x + k) mod d = (y + k) mod d.
Proof. intros H. by rewrite (Zplus_mod x), H, <- Zplus_mod. Qed.



Lemma kern_cong f m a b i :
  lattice_ok m → T3_to_idx m a = T3_to_idx m b → kern f m a i = kern f m b i.
Proof.
  intros Hm Hab. rewrite !kern_unfold. apply sumQc_fmap_ext.
  intros [[g0 g1] g2] _. destruct a as [[a0 a1] a2], b as [[b0 b1] b2].
  apply T3_to_idx_inj in Hab as (E0 & E1 & E2); [|done].
  assert (T3_to_idx m ((a0, a1, a2) + (g0, g1, g2) - filter_center f)%T3 =
          T3_to_idx m ((b0, b1, b2) + (g0, g1, g2) - filter_center f)%T3) as ->;
    [|done].
  unfold T3_plus, T3_minus, get0, get1, get2; simpl.
  apply T3_to_idx_inj; [done|]. split_and!.
  - rewrite <- !Z.add_sub_assoc. by apply mod_eq_add.
  - rewrite <- !Z.add_sub_assoc. by apply mod_eq_add.
  - rewrite <- !Z.add_sub_assoc. by apply mod_eq_add.
Qed.





(** With positive weights a voxel that is on adds energy to itself. *)
Lemma sumQc_nonneg (l : list Qc) :
  (∀ x, x ∈ l → (0 ≤ x)%Qc) → (0 ≤ sumQc l)%Qc.
Proof.
  induction l as [|x l IH]; intros H; [done|]. rewrite sumQc_cons.
  replace 0%Qc with (0 + 0)%Qc by ring. apply Qcplus_le_compat.
  - apply H. by left.
  - apply IH. intros y Hy. apply H. by right.
Qed.

Lemma sumQc_pos (l : list Qc) x :
  (∀ y, y ∈ l → (0 ≤ y)%Qc) → x ∈ l → (0 < x)%Qc → (0 < sumQc l)%Qc.
Proof.
  induction l as [|y l IH]; intros H Hx Hpos; [by apply elem_of_nil in Hx|].
  rewrite sumQc_cons. apply elem_of_cons in Hx as [<-|Hx].
  - apply Qclt_le_trans with (x + 0)%Qc; [by rewrite Qcplus_0_r|].
    apply Qcplus_le_mono_l. apply sumQc_nonneg. intros z Hz. apply H. by right.
  - apply Qclt_le_trans with (0 + sumQc l)%Qc.
    + rewrite Qcplus_0_l. apply IH; [|done..]. intros z Hz. apply H. by right.
    + apply Qcplus_le_mono_r. apply H. by left.
Qed.

Lemma kern_self_pos f m r :
  lattice_ok m → lattice_ok f →
  (∀ g, g ∈ cells (dim0 f) (dim1 f) (dim2 f) → (0 < get f g)%Qc) →
  (0 < kern f m r (T3_to_idx m r))%Qc.
Proof.
  intros Hm Hf Hpos. rewrite kern_unfold.
  assert (filter_center f ∈ cells (dim0 f) (dim1 f) (dim2 f)) as Hc.
  { destruct Hf as (H0 & H1 & H2 & _). unfold filter_center, dim0, dim1, dim2.
    apply elem_of_cells.
    pose proof (Z.quot_pos (_d0 f) 2). pose proof (Z.quot_lt (_d0 f) 2).
    pose proof (Z.quot_pos (_d1 f) 2). pose proof (Z.quot_lt (_d1 f) 2).
    pose proof (Z.quot_pos (_d2 f) 2). pose proof (Z.quot_lt (_d2 f) 2). lia. }
  apply (sumQc_pos _ (get f (filter_center f))).
  - intros y (g & -> & Hg)%list_elem_of_fmap. case_decide; [|done].
    by apply Qclt_le_weak, Hpos.
  - apply list_elem_of_fmap. exists (filter_center f). split; [|done].
    rewrite decide_True; [done|]. f_equal.
    destruct r as [[r0 r1] r2]. unfold T3_plus, T3_minus, filter_center,
      get0, get1, get2; simpl. f_equal; [f_equal|]; lia.
  - by apply Hpos.
Qed.

(** * The constructor *)

Lemma idx_to_T3_cells m i :
  lattice_ok m → 0 ≤ i < _size m →
  idx_to_T3 m i ∈ cells (_d0 m) (_d1 m) (_d2 m).
Proof.
  intros (H0 & H1 & H2 & H01 & Hs & _) Hi. unfold idx_to_T3.
  apply elem_of_cells. rewrite H01.
  set (a := _d0 m) in *. set (b := _d1 m) in *. set (c := _d2 m) in *.
  pose proof (Z.mod_pos_bound i (a * b) ltac:(lia)) as Hab.
  rewrite !Z.rem_mod_nonneg, !Z.quot_div_nonneg by lia.
  split_and!.
  - apply Z.mod_pos_bound. lia.
  - apply Z.mod_pos_bound. lia.
  - apply Z.div_pos; lia.
  - apply Z.div_lt_upper_bound; lia.
  - apply Z.div_pos; lia.
  - apply Z.div_lt_upper_bound; lia.
Qed.

(** The flat indices of the cells of a lattice are [0 .. size-1]. *)
Lemma cells_idx_perm m :
  lattice_ok m →
  T3_to_idx m <$> cells (_d0 m) (_d1 m) (_d2 m) ≡ₚ seqZ 0 (_size m).
Proof.
  intros Hm. apply NoDup_Permutation; [|apply NoDup_seqZ|].
  - apply NoDup_fmap_2_strong; [|apply NoDup_cells].
    intros a b Ha Hb. by apply T3_to_idx_inj_small.
  - intros i. rewrite list_elem_of_fmap, elem_of_seqZ. split.
    + intros (t & -> & _). pose proof (T3_to_idx_range m t Hm). lia.
    + intros Hi. exists (idx_to_T3 m i). split.
      * by rewrite T3_to_idx_idx_to_T3 by (done || lia).
      * apply idx_to_T3_cells; [done|lia].
Qed.

Lemma same_dims_trans a b c : same_dims a b → same_dims b c → same_dims a c.
Proof.
  intros (? & ? & ? & ? & ?) (? & ? & ? & ? & ?).
  unfold same_dims. split_and!; congruence.
Qed.

Section construction.
  Context `{Cxx}.

Lemma small_randomization_fold (distr : mt19937 → Qc * mt19937) l gen w :
    lattice_ok w →
    let r := fold_left
               (λ (s : mt19937 * Matrix3D) i,
                  let d := distr s.1 in (d.2, set_at s.2 i d.1))
               l (gen, w) in
    lattice_ok r.2 ∧ same_dims r.2 w.
  Proof.
    revert gen w. induction l as [|x l IH]; intros gen w Hw; simpl; [done|].
    destruct (IH (distr gen).2 (set_at w x (distr gen).1)) as [H1 H2];
      [by apply set_idx_lattice_ok|].
    done.
  Qed.

Lemma small_randomization_ok cfg rd st :
    state_ok st →
    state_ok (small_randomization cfg rd st) ∧
    content (small_randomization cfg rd st) = content st ∧
    filter (small_randomization cfg rd st) = filter st ∧
    _track_void (small_randomization cfg rd st) = _track_void st ∧
    _track_cluster (small_randomization cfg rd st) = _track_cluster st ∧
    _cluster_tracking_is_on (small_randomization cfg rd st) =
      _cluster_tracking_is_on st.
  Proof.
    intros (Hc & Hw & Hd). unfold small_randomization; simpl.
    split_and!; try done. unfold state_ok; simpl. rewrite for3_cells.
    destruct (small_randomization_fold
                (uniform_real_distribution 0%Qc EPS)
                (cells (dim0 (weights st)) (dim1 (weights st)) (dim2 (weights st)))
                (mt19937_seed (seed cfg rd)) (weights st) Hw) as [H1 H2].
    split_and!; [done|exact H1|].
    by apply (same_dims_trans _ (weights st)).
  Qed.
End construction.

(** [void_initialization] puts every voxel into the void set. *)
Lemma add_to_void_fold l st :
  state_ok st → (∀ i, at_idx (content st) i = 0%Qc) →
  void_sound st → _track_cluster st = [] →
  NoDup (T3_to_idx (content st) <$> l) →
  (∀ t, t ∈ l → T3_to_idx (content st) t ∉ void_idx st) →
  let st' := fold_left (λ s c, add_to_void c s) l st in
  content st' = content st ∧ weights st' = weights st ∧
  filter st' = filter st ∧
  _cluster_tracking_is_on st' = _cluster_tracking_is_on st ∧
  _track_cluster st' = [] ∧ void_sound st' ∧
  void_idx st' ≡ₚ (T3_to_idx (content st) <$> l) ++ void_idx st.
Proof.
  revert st. induction l as [|x l IH]; intros st Hok Hz Hv Hc Hnd Hfresh; simpl.
  { done. }
  rewrite fmap_cons in Hnd. apply NoDup_cons in Hnd as [Hx Hnd].
  set (c := T3_to_idx (content st) x) in *.
  set (st1 := add_to_void x st).
  assert (content st1 = content st) as Hc1 by done.
  assert (weights st1 = weights st) as Hw1 by done.
  assert (_track_cluster st1 = []) as Hcl1.
  { unfold st1, add_to_void; simpl. by rewrite Hc. }
  assert (_track_void st1 = set_insert (at_idx (weights st) c, c) (_track_void st))
    as Hv1 by done.
  assert (void_sound st1) as Hvs1.
  { unfold void_sound. rewrite Hv1, Hc1, Hw1.
    apply tracks_insert; [done|by apply Hz|]. apply (toggle_idx_range_w x st Hok). }
  assert (void_idx st1 ≡ₚ c :: void_idx st) as HP1.
  { unfold void_idx. rewrite Hv1.
    apply (insert_idx_perm _ (at_idx (weights st) c, c)).
    intros Hin. apply (Hfresh x); [by left|].
    by apply (tracks_idx _ _ _ _ Hv). }
  destruct (IH st1) as (E1 & E2 & E3 & E4 & E5 & E6 & E7); try done.
  { intros t Ht. rewrite HP1, Hc1. intros [Heq|Hin]%elem_of_cons.
    - apply Hx. rewrite <- Heq. apply list_elem_of_fmap. by exists t.
    - apply (Hfresh t); [by right|done]. }
  rewrite Hc1 in *. split_and!; try done.
  rewrite E7, HP1. fold c. by rewrite Permutation_middle.
Qed.

Section construction2.
  Context `{Cxx}.

  (** What the constructor establishes. *)
Lemma new_spec cfg rd d0 d1 d2 :
    0 < d0 → 0 < d1 → 0 < d2 → Z.rem (FILTER_SIZE cfg) 2 = 1 →
    ∃ st, Matrix3D_w_void_and_cluster_tracking_new cfg rd d0 d1 d2 = Ok st ∧
          _d0 (content st) = d0 ∧ _d1 (content st) = d1 ∧
          _d2 (content st) = d2 ∧
          (∀ i, at_idx (content st) i = 0%Qc) ∧
          GaussianMatrix (FILTER_SIZE cfg) (SIGMA cfg) = Ok (filter st) ∧
          _track_cluster st = [] ∧
          pattern_inv (at_idx (weights st)) st.
  Proof.
    intros H0 H1 H2 Hodd.
    destruct (GaussianMatrix_ok (FILTER_SIZE cfg) (SIGMA cfg) Hodd)
      as (g & Hg & Hgm & _).
    unfold Matrix3D_w_void_and_cluster_tracking_new. rewrite Hg.
    eexists. split; [done|].
    set (st0 := mkTracking (Matrix3D_new d0 d1 d2) (Matrix3D_new d0 d1 d2) g
                  [] [] true).
    assert (state_ok st0) as Hok0.
    { split_and!; [by apply Matrix3D_new_lattice_ok..|done]. }
    destruct (small_randomization_ok cfg rd st0 Hok0)
      as (Hok1 & Ec & Ef & Ev & Ecl & Efl).
    set (st1 := small_randomization cfg rd st0) in *.
    unfold void_initialization. rewrite for3_cells.
    assert (∀ i, at_idx (content st1) i = 0%Qc) as Hz.
    { intros i. rewrite Ec. apply at_idx_new. }
    assert (dim0 (weights st1) = _d0 (content st1) ∧
            dim1 (weights st1) = _d1 (content st1) ∧
            dim2 (weights st1) = _d2 (content st1)) as (-> & -> & ->).
    { destruct Hok1 as (_ & _ & (? & ? & ? & _)). done. }
    destruct (add_to_void_fold
                (cells (_d0 (content st1)) (_d1 (content st1)) (_d2 (content st1)))
                st1)
      as (E1 & E2 & E3 & E4 & E5 & E6 & E7); try done.
    { unfold void_sound. rewrite Ev. split; [apply is_set_nil|].
      intros e []%elem_of_nil. }
    { rewrite cells_idx_perm by apply Hok1. apply NoDup_seqZ. }
    { intros t _. unfold void_idx. rewrite Ev. apply not_elem_of_nil. }
    set (st2 := fold_left _ _ st1) in *.
    rewrite E1, Ec. split_and!; try done.
    { by rewrite E3, Ef. }
    assert (state_ok st2) as Hok2.
    { unfold state_ok. rewrite E1, E2. done. }
    unfold pattern_inv. split_and!.
    - done.
    - rewrite E3, Ef. by apply (GaussianMatrix_sym (FILTER_SIZE cfg) (SIGMA cfg)).
    - done.
    - unfold cluster_sound. rewrite E5. split; [apply is_set_nil|].
      intros e []%elem_of_nil.
    - by rewrite E4, Efl.
    - unfold partition_inv, cluster_idx, nvox. rewrite E5, app_nil_r, E7.
      unfold void_idx. rewrite Ev, app_nil_r, E1.
      apply cells_idx_perm, Hok1.
    - intros i Hi. unfold on_sum, sum_upto.
      rewrite (sumQc_fmap_ext _ (λ _, 0%Qc)), sumQc_fmap_zero; [ring|].
      intros j _. unfold on. rewrite E1, Hz. by rewrite bool_decide_false by auto.
  Qed.
End construction2.

(** * The binary pattern and its energy *)

(** ** Sums over the voxels that are on *)

Lemma sum_upto_ext n F G :
  (∀ i, 0 ≤ i < n → F i = G i) → sum_upto n F = sum_upto n G.
Proof.
  intros H. apply sumQc_fmap_ext. intros i Hi%elem_of_seqZ. apply H. lia.
Qed.

Lemma sumQc_split (F : Z → Qc) l c :
  NoDup l → c ∈ l →
  sumQc (F <$> l) =
    (F c + sumQc ((λ j, if decide (j = c) then 0 else F j) <$> l))%Qc.
Proof.
  induction l as [|x l IH]; intros Hnd Hc; [by apply elem_of_nil in Hc|].
  apply NoDup_cons in Hnd as [Hx Hnd]. rewrite !fmap_cons, !sumQc_cons.
  destruct (decide (x = c)) as [->|Hne].
  - rewrite (sumQc_fmap_ext (λ j, if decide (j = c) then 0%Qc else F j) F).
    + ring.
    + intros j Hj. rewrite decide_False; [done|]. by intros ->.
  - apply elem_of_cons in Hc as [->|Hc]; [done|]. rewrite (IH Hnd Hc). ring.
Qed.

Lemma sum_upto_split n c F :
  0 ≤ c < n →
  sum_upto n F =
    (F c + sum_upto n (λ j, if decide (j = c) then 0 else F j))%Qc.
Proof.
  intros Hc. apply sumQc_split; [apply NoDup_seqZ|]. apply elem_of_seqZ. lia.
Qed.

Lemma on_sum_ext n b b' F G :
  (∀ i, 0 ≤ i < n → b i = b' i) →
  (∀ i, 0 ≤ i < n → b i = true → F i = G i) →
  on_sum n b F = on_sum n b' G.
Proof.
  intros Hb HF. apply sum_upto_ext. intros i Hi. rewrite <- Hb by done.
  destruct (b i) eqn:E; [by apply HF|done].
Qed.


Lemma on_sum_opp n b F :
  on_sum n b (λ j, - F j)%Qc = (- on_sum n b F)%Qc.
Proof.
  unfold on_sum, sum_upto. rewrite <- sumQc_fmap_opp.
  apply sumQc_fmap_ext. intros j _. destruct (b j); ring.
Qed.

(** Turning one more voxel on adds its term. *)
Lemma on_sum_add n b b' c F :
  0 ≤ c < n → b c = false → b' c = true →
  (∀ j, 0 ≤ j < n → j ≠ c → b' j = b j) →
  on_sum n b' F = (F c + on_sum n b F)%Qc.
Proof.
  intros Hc Hb Hb' Hother. unfold on_sum.
  rewrite (sum_upto_split n c) by done. rewrite Hb'.
  rewrite (sum_upto_split n c (λ j, if b j then F j else 0%Qc)) by done.
  rewrite Hb. rewrite Qcplus_0_l. f_equal.
  apply sum_upto_ext. intros j Hj. case_decide; [done|].
  by rewrite Hother.
Qed.

(** ** The kernel between flat indices *)

Lemma kern_dims f m m' r i : same_dims m m' → kern f m r i = kern f m' r i.
Proof.
  intros Hd. rewrite !kern_unfold. apply sumQc_fmap_ext. intros g _.
  by rewrite (T3_to_idx_dims m m').
Qed.

Lemma K_frame st st' j i :
  filter st' = filter st → same_dims (content st') (content st) →
  K st' j i = K st j i.
Proof.
  intros Hf Hd. unfold K. rewrite Hf, (idx_to_T3_dims _ _ _ Hd).
  by apply kern_dims.
Qed.



Lemma K_of_coord st t i :
  state_ok st → kern (filter st) (content st) t i = K st (T3_to_idx (content st) t) i.
Proof.
  intros Hok. unfold K. apply kern_cong; [apply Hok|].
  rewrite T3_to_idx_idx_to_T3; [done|apply Hok|]. apply T3_to_idx_range, Hok.
Qed.

(** ** Toggles keep the pattern invariant *)

Lemma nvox_toggled_on t v st : nvox (toggled_on t v st) = nvox st.
Proof. unfold nvox. by rewrite toggled_on_content. Qed.


Lemma on_toggled_on t v st i :
  state_ok st → 0 ≤ i →
  on (toggled_on t v st) i =
    if decide (T3_to_idx (content st) t = i) then bool_decide (v ≠ 0%Qc)
    else on st i.
Proof.
  intros Hok Hi. unfold on. rewrite toggled_on_content.
  rewrite at_idx_set_at by (apply Hok || done). by case_decide.
Qed.


Lemma energy_ok_toggled_on jit t v st :
  state_ok st → energy_ok jit st →
  at_idx (content st) (T3_to_idx (content st) t) = 0%Qc → v ≠ 0%Qc →
  energy_ok jit (toggled_on t v st).
Proof.
  intros Hok He Hc Hv i Hi. rewrite nvox_toggled_on in *.
  pose proof (toggle_idx_range t st Hok) as Hr.
  rewrite toggled_on_weights by (done || lia). rewrite He by done.
  rewrite K_of_coord by done.
  rewrite (on_sum_add (nvox st) (on st) (on (toggled_on t v st))
             (T3_to_idx (content st) t) (λ j, K (toggled_on t v st) j i)).
  - rewrite (K_frame st (toggled_on t v st));
      [|by rewrite toggled_on_filter|by rewrite toggled_on_content].
    rewrite (on_sum_ext _ (on st) (on st) (λ j, K (toggled_on t v st) j i)
               (λ j, K st j i)); [ring|done|].
    intros j _ _. apply K_frame;
      [by rewrite toggled_on_filter|by rewrite toggled_on_content].
  - done.
  - unfold on. by rewrite Hc, bool_decide_false by auto.
  - rewrite on_toggled_on by (done || lia).
    by rewrite decide_True, bool_decide_true by done.
  - intros j Hj Hne. rewrite on_toggled_on by (done || lia).
    by rewrite decide_False by done.
Qed.


Lemma pattern_toggled_on jit t v st :
  pattern_inv jit st → T3_to_idx (content st) t ∈ void_idx st → v ≠ 0%Qc →
  pattern_inv jit (toggled_on t v st) ∧
  void_idx st ≡ₚ T3_to_idx (content st) t :: void_idx (toggled_on t v st) ∧
  cluster_idx (toggled_on t v st) ≡ₚ T3_to_idx (content st) t :: cluster_idx st.
Proof.
  intros (Hok & Hsym & Hvs & Hcs & Hflag & Hpart & He) Hin Hv.
  set (c := T3_to_idx (content st) t) in *.
  assert (at_idx (content st) c = 0%Qc) as Hc.
  { apply (tracks_idx _ _ _ _ Hvs) in Hin.
    by destruct (proj2 Hvs _ Hin) as (_ & ? & _). }
  destruct (toggled_on_void t st Hok v Hvs Hc) as (Hvs' & HPv & _).
  destruct (toggled_on_cluster t st Hok v Hvs Hcs Hc Hv) as (Hcs' & HPc).
  specialize (HPv Hin). specialize (HPc Hflag). fold c in HPv, HPc.
  rewrite decide_True in HPc by done.
  split; [|done]. unfold pattern_inv.
  rewrite toggled_on_filter, toggled_on_flag. split_and!; try done.
  - by apply toggled_on_state_ok.
  - unfold partition_inv in *. rewrite nvox_toggled_on, <- Hpart, HPc, HPv.
    by rewrite <- Permutation_middle.
  - by apply energy_ok_toggled_on.
Qed.


(** * Phase 1: the initial pattern *)

(** ** Running computations *)

Lemma run_bind {A B} (m : M A) (k : A → M B) st :
  (m ≫= k) st =
    match m st with
    | (Ok a, st') => k a st'
    | (Fail e, st') => (Fail e, st')
    end.
Proof. done. Qed.

Lemma run_lift_bind {A B} (f : tracking → outcome A) (k : A → M B) st :
  (lift f ≫= k) st =
    match f st with Ok a => k a st | Fail e => (Fail e, st) end.
Proof. rewrite run_bind. unfold lift. by destruct (f st). Qed.

Lemma run_modify_bind {B} (f : tracking → tracking) (k : unit → M B) st :
  (modify f ≫= k) st = k tt (f st).
Proof. done. Qed.

Lemma run_ret {A} (a : A) st : (mret a : M A) st = (Ok a, st).
Proof. done. Qed.

(** ** Membership from the partition *)

Lemma pattern_off_in_void jit st c :
  pattern_inv jit st → 0 ≤ c < nvox st → at_idx (content st) c = 0%Qc →
  c ∈ void_idx st.
Proof.
  intros (Hok & Hsym & Hvs & Hcs & Hflag & Hpart & He) Hc Hz.
  assert (c ∈ void_idx st ++ cluster_idx st) as [?|Hin]%elem_of_app; [|done|].
  { unfold partition_inv in Hpart. rewrite Hpart. apply elem_of_seqZ. lia. }
  apply (tracks_idx _ _ _ _ Hcs) in Hin.
  by destruct (proj2 Hcs _ Hin) as (_ & ? & _).
Qed.



(** ** [initial_bitmap] *)

Section initial_bitmap.
  Context `{Cxx}.

Lemma initial_bitmap_loop_spec jit fuel d0 d1 d2 gen count st st' :
    pattern_inv jit st → 0 ≤ count →
    initial_bitmap_loop fuel d0 d1 d2 gen count st = (Ok tt, st') →
    pattern_inv jit st' ∧ nvox st' = nvox st ∧
    Z.of_nat (length (cluster_idx st')) =
      Z.of_nat (length (cluster_idx st)) + count.
  Proof.
    revert gen count st.
    induction fuel as [|fuel IH]; intros gen count st Hinv Hcount; simpl.
    - case_bool_decide; [done|]. intros [= <-]. split; [done|]. split; [done|lia].
    - case_bool_decide as Hpos.
      2: { intros [= <-]. split; [done|]. split; [done|lia]. }
      rewrite run_lift_bind.
      set (r := ((uniform_int_distribution 0 (d0 - 1) gen).1,
                 (uniform_int_distribution 0 (d1 - 1)
                    (uniform_int_distribution 0 (d0 - 1) gen).2).1,
                 (uniform_int_distribution 0 (d2 - 1)
                    (uniform_int_distribution 0 (d1 - 1)
                       (uniform_int_distribution 0 (d0 - 1) gen).2).2).1)).
      case_bool_decide as Hz.
      + rewrite run_bind.
        rewrite set_pixel_run.
        2: { unfold at_. unfold get in Hz. rewrite Hz.
             apply (irreflexivity Qclt). }
        intros Hrun.
        assert (T3_to_idx (content st) r ∈ void_idx st) as Hin.
        { apply (pattern_off_in_void jit); [done| |done].
          apply T3_to_idx_range, Hinv. }
        destruct (pattern_toggled_on jit r 1%Qc st Hinv Hin) as (Hinv' & _ & HP);
          [done|].
        assert (0 ≤ count - 1) as Hcount' by lia.
        destruct (IH _ _ _ Hinv' Hcount' Hrun) as (Hinv'' & Hn & Hlen).
        split; [done|]. split; [by rewrite Hn, nvox_toggled_on|].
        rewrite Hlen, HP. simpl. lia.
      + intros Hrun. by apply (IH _ _ _ Hinv Hcount Hrun).
  Qed.

Lemma initial_bitmap_spec jit cfg rd fuel count st st' :
    pattern_inv jit st → 0 ≤ count →
    initial_bitmap cfg rd fuel count st = (Ok tt, st') →
    pattern_inv jit st' ∧ nvox st' = nvox st ∧
    Z.of_nat (length (cluster_idx st')) =
      Z.of_nat (length (cluster_idx st)) + count.
  Proof. apply initial_bitmap_loop_spec. Qed.
End initial_bitmap.

(** * The potential of the balancing loop *)



(** ** Order facts *)





(** ** Counting the patterns below a value *)




(** * Phase 1: balancing terminates *)

(** ** The two queries *)



(** ** The potential does not depend on the contents *)






(** ** One round *)



(** ** The loop *)

Lemma reorder_bitmap_step fuel st :
  reorder_bitmap (S fuel) st =
    match reorder_round st with
    | (Ok p, st') =>
        if bool_decide (p.2 = p.1) then (Ok [p], st')
        else match reorder_bitmap fuel st' with
             | (Ok ps, st'') => (Ok (p :: ps), st'')
             | (Fail e, st'') => (Fail e, st'')
             end
    | (Fail e, st') => (Fail e, st')
    end.
Proof.
  simpl. rewrite run_bind. destruct (reorder_round st) as [[p|e] st']; [|done].
  case_bool_decide; [done|]. rewrite run_bind.
  by destruct (reorder_bitmap fuel st') as [[ps|e] st''].
Qed.



(** * Ranking *)


(** ** Rank values *)







(** ** One round of [rank_initial_bitmap] *)


Lemma nvox_pos st : state_ok st → 0 < nvox st.
Proof.
  intros ((H0 & H1 & H2 & _ & Hs & _) & _). unfold nvox. rewrite Hs. nia.
Qed.


(** ** [rank_initial_bitmap] *)

(** One round of [rank_initial_bitmap], unfolded. *)
Lemma rank_initial_bitmap_loop_S n st t st1 :
  max_cluster st = Ok t →
  set_pixel t (rank_value (size (content (reset_pixel t st))) (Z.of_nat n))
    (reset_pixel t st) = (Ok tt, st1) →
  rank_initial_bitmap_loop (S n) st =
    rank_initial_bitmap_loop n (remove_tracking t st1).
Proof.
  intros Hmax Hset. simpl.
  rewrite run_lift_bind, Hmax, run_modify_bind, run_lift_bind, run_bind.
  unfold rank_value in Hset. by rewrite Hset.
Qed.



(** ** [phase_2_and_3] *)



Lemma mat3D_as_fmap m :
  lattice_ok m → _mat3D m = at_idx m <$> seqZ 0 (_size m).
Proof.
  intros (? & ? & ? & ? & Hs & Hlen). apply list_eq. intros i.
  rewrite list_lookup_fmap. unfold at_idx.
  destruct (decide (i < length (_mat3D m))%nat) as [Hlt|Hge].
  - rewrite lookup_seqZ_lt by lia. simpl. rewrite Z.add_0_l, Nat2Z.id.
    by apply list_lookup_lookup_total_lt.
  - rewrite lookup_seqZ_ge by lia. simpl. apply lookup_ge_None_2. lia.
Qed.



(** * The round trip [set_pixel] then [reset_pixel] *)

Lemma tracking_eq (a b : tracking) :
  content a = content b → weights a = weights b → filter a = filter b →
  _track_void a = _track_void b → _track_cluster a = _track_cluster b →
  _cluster_tracking_is_on a = _cluster_tracking_is_on b → a = b.
Proof. destruct a, b; simpl. by intros -> -> -> -> -> ->. Qed.

Lemma matrix_eq (a b : Matrix3D) :
  same_dims a b → _d2 a = _d2 b → lattice_ok a → lattice_ok b →
  (∀ i, 0 ≤ i → at_idx a i = at_idx b i) → a = b.
Proof.
  intros (E0 & E1 & E2 & E01 & Es) _ Ha Hb Hat.
  assert (_mat3D a = _mat3D b) as El.
  { rewrite (mat3D_as_fmap a Ha), (mat3D_as_fmap b Hb), Es.
    apply list_fmap_ext. intros _ i Hi%list_elem_of_lookup_2.
    apply elem_of_seqZ in Hi. apply Hat. lia. }
  destruct a, b; simpl in *. by subst.
Qed.

Lemma tracks_as_fmap P W s :
  tracks P W s → s = (λ i, (at_idx W i, i)) <$> s.*2.
Proof.
  intros Ht. rewrite <- list_fmap_compose. rewrite <- (list_fmap_id s) at 1.
  apply list_fmap_ext. intros _ e He%list_elem_of_lookup_2. simpl.
  by apply (tracks_entry P W s).
Qed.

(** Two sound sets over the same voxels and the same energies are equal. *)
Lemma tracks_eq P Q W W' s s' :
  tracks P W s → tracks Q W' s' → s'.*2 ≡ₚ s.*2 →
  (∀ i, i ∈ s.*2 → at_idx W' i = at_idx W i) → s' = s.
Proof.
  intros Ht Ht' HP HW. apply is_set_unique; [apply Ht'|apply Ht|].
  transitivity ((λ i, (at_idx W' i, i)) <$> s'.*2);
    [by rewrite <- (tracks_as_fmap Q W' s')|].
  transitivity ((λ i, (at_idx W i, i)) <$> s.*2);
    [|by rewrite <- (tracks_as_fmap P W s)].
  rewrite HP.
  assert ((λ i, (at_idx W' i, i)) <$> s.*2 = (λ i, (at_idx W i, i)) <$> s.*2)
    as ->; [|done].
  apply list_fmap_ext. intros _ i Hi%list_elem_of_lookup_2. simpl.
  by rewrite HW.
Qed.

Lemma reset_pixel_cluster_off t st :
  _track_cluster st = [] → _cluster_tracking_is_on st = false →
  _track_cluster (reset_pixel t st) = [].
Proof.
  intros Hc Hflag. unfold reset_pixel. rewrite deconv_at_updates.
  apply apply_updates_cluster_off; [|done].
  unfold add_to_void; simpl. by rewrite Hc.
Qed.

Lemma round_trip t v st :
  state_ok st → void_sound st → cluster_sound st →
  (_cluster_tracking_is_on st = false → _track_cluster st = []) →
  T3_to_idx (content st) t ∈ void_idx st → v ≠ 0%Qc →
  reset_pixel t (toggled_on t v st) = st.
Proof.
  intros Hok Hvs Hcs Hoff Hin Hv.
  set (c := T3_to_idx (content st) t) in *.
  set (st1 := toggled_on t v st). set (st2 := reset_pixel t st1).
  pose proof (toggle_idx_range t st Hok) as Hc. fold c in Hc.
  assert (at_idx (content st) c = 0%Qc) as Hzero.
  { apply (tracks_idx _ _ _ _ Hvs) in Hin.
    by destruct (proj2 Hvs _ Hin) as (_ & ? & _). }
  pose proof (toggled_on_state_ok t st Hok v) as Hok1. fold st1 in Hok1.
  pose proof (reset_pixel_state_ok t st1 Hok1) as Hok2. fold st2 in Hok2.
  assert (content st1 = set_at (content st) t v) as Hc1
    by apply toggled_on_content.
  assert (content st2 = set_at (content st1) t 0%Qc) as Hc2
    by apply reset_pixel_content.
  assert (T3_to_idx (content st1) t = c) as Ht1.
  { by rewrite (T3_to_idx_dims _ (content st)) by by rewrite Hc1. }
  assert (filter st1 = filter st) as Hf1 by apply toggled_on_filter.
  assert (∀ i, 0 ≤ i → at_idx (weights st2) i = at_idx (weights st) i) as HW.
  { intros i Hi. unfold st2. rewrite reset_pixel_weights by done.
    unfold st1 at 1. rewrite toggled_on_weights by done.
    fold st1. rewrite Hf1, (kern_dims _ (content st1) (content st))
      by by rewrite Hc1.
    ring. }
  destruct (toggled_on_void t st Hok v Hvs Hzero) as (Hvs1 & HPv1 & _).
  specialize (HPv1 Hin). fold st1 c in Hvs1, HPv1.
  assert (c ∉ void_idx st1) as Hnin1.
  { intros Hv1. apply (tracks_idx _ _ _ _ Hvs1) in Hv1.
    destruct (proj2 Hvs1 _ Hv1) as (_ & Hz & _). simpl in Hz.
    rewrite Hc1, at_idx_set_at in Hz by (apply Hok || lia).
    by rewrite decide_True in Hz. }
  destruct (reset_pixel_void t st1 Hok1 Hvs1) as (Hvs2 & _ & HPv2).
  rewrite Ht1 in HPv2. specialize (HPv2 Hnin1). fold st2 in Hvs2, HPv2.
  destruct (toggled_on_cluster t st Hok v Hvs Hcs Hzero Hv) as (Hcs1 & HPc1).
  fold st1 c in Hcs1, HPc1.
  destruct (reset_pixel_cluster t st1 Hok1 Hcs1) as (Hcs2 & HPc2).
  rewrite Ht1 in HPc2. fold st2 in Hcs2, HPc2.
  apply tracking_eq.
  - rewrite Hc2, Hc1. apply matrix_eq; try done.
    + apply set_idx_lattice_ok, set_idx_lattice_ok, Hok.
    + apply Hok.
    + intros i Hi.
      rewrite at_idx_set_at; [|apply set_idx_lattice_ok, Hok|done].
      change (T3_to_idx (set_at (content st) t v) t) with c.
      destruct (decide (c = i)) as [<-|Hci]; [symmetry; exact Hzero|].
      rewrite at_idx_set_at; [|apply Hok|done]. fold c.
      by rewrite decide_False.
  - apply matrix_eq; try apply Hok2 || apply Hok || done.
    + apply (same_dims_trans _ (content st2)); [apply Hok2|].
      apply (same_dims_trans _ (content st)); [by rewrite Hc2, Hc1|].
      destruct Hok as (_ & _ & (? & ? & ? & ? & ?)). by split_and!.
    + destruct Hok2 as (_ & _ & (_ & _ & -> & _)).
      destruct Hok as (_ & _ & (_ & _ & -> & _)). by rewrite Hc2, Hc1.
  - unfold st2. by rewrite reset_pixel_filter.
  - apply (tracks_eq _ _ _ _ _ _ Hvs Hvs2).
    + fold (void_idx st2) (void_idx st). by rewrite HPv2, HPv1.
    + intros i Hi. apply HW. apply (tracks_idx _ _ _ _ Hvs) in Hi.
      by destruct (proj2 Hvs _ Hi) as ([? _] & _).
  - destruct (_cluster_tracking_is_on st) eqn:Hflag.
    + specialize (HPc1 eq_refl). rewrite decide_True in HPc1 by done.
      destruct HPc2 as [HPc2 _].
      { unfold st1. by rewrite toggled_on_flag. }
      apply (tracks_eq _ _ _ _ _ _ Hcs Hcs2).
      * fold (cluster_idx st2) (cluster_idx st).
        apply (Permutation_cons_inv (a := c)). rewrite <- HPc1, <- HPc2; [done|].
        rewrite HPc1. by left.
      * intros i Hi. apply HW. apply (tracks_idx _ _ _ _ Hcs) in Hi.
        by destruct (proj2 Hcs _ Hi) as ([? _] & _).
    + rewrite (Hoff eq_refl). apply reset_pixel_cluster_off.
      * apply toggled_on_cluster_off; [by apply Hoff|done].
      * unfold st1. by rewrite toggled_on_flag.
  - unfold st2, st1. by rewrite reset_pixel_flag, toggled_on_flag.
Qed.

(** * The whole pipeline *)



Lemma lex_le_of_min e y : y = e ∨ entry_lt e y → lex_le e y.
Proof.
  intros [->|[Hlt|[Hn Hlt]]].
  - right. split; [done|lia].
  - by left.
  - destruct (decide (e.1 < y.1)%Qc) as [?|Hn']; [by left|]. right.
    split; [|lia]. apply Qcle_antisym; by apply Qcle_ngt.
Qed.

Section pipeline.
  Context `{Cxx}.

Lemma new_inv cfg rd d0 d1 d2 st0 :
    0 < d0 → 0 < d1 → 0 < d2 →
    Matrix3D_w_void_and_cluster_tracking_new cfg rd d0 d1 d2 = Ok st0 →
    pattern_inv (at_idx (weights st0)) st0 ∧ nvox st0 = d0 * d1 * d2 ∧
    _track_cluster st0 = [] ∧
    GaussianMatrix (FILTER_SIZE cfg) (SIGMA cfg) = Ok (filter st0).
  Proof.
    intros H0 H1 H2 Hnew.
    destruct (decide (Z.rem (FILTER_SIZE cfg) 2 = 1)) as [Hodd|Hodd].
    2: { unfold Matrix3D_w_void_and_cluster_tracking_new in Hnew.
         by rewrite GaussianMatrix_fail in Hnew. }
    destruct (new_spec cfg rd d0 d1 d2 H0 H1 H2 Hodd)
      as (st & Hst & E0 & E1 & E2 & _ & Hg & Hcl & Hinv).
    rewrite Hnew in Hst. injection Hst as <-.
    split; [done|]. split; [|done].
    destruct Hinv as (((_ & _ & _ & _ & Hs & _) & _) & _). unfold nvox.
    by rewrite Hs, E0, E1, E2.
  Qed.

End pipeline.

(** * Main results *)


(** C2.  The invariant does not hold at every point: in the last round of
    rank_initial_bitmap the voxel of rank 0 is turned on with the value
    0/size = 0.  After that toggle, with cluster tracking still enabled and
    before remove_tracking is called, its content is 0, it has no entry in
    the void set, and the cluster set holds an entry for it under an energy
    it no longer has; remove_tracking, which erases by the current energy,
    then leaves that entry in place. *)
Theorem rank_zero_breaks_tracking_invariant :
  rank_initial_bitmap 1 Toy.balanced
    = (Ok tt, remove_tracking Toy.t_max Toy.rank0_set) ∧
  _cluster_tracking_is_on Toy.rank0_set = true ∧
  at_ (content Toy.rank0_set) Toy.t_max = 0%Qc ∧
  T3_to_idx (content Toy.rank0_set) Toy.t_max ∉ void_idx Toy.rank0_set ∧
  T3_to_idx (content Toy.rank0_set) Toy.t_max ∈ cluster_idx Toy.rank0_set ∧
  T3_to_idx (content Toy.rank0_set) Toy.t_max
    ∈ cluster_idx (remove_tracking Toy.t_max Toy.rank0_set).
Proof.
  assert (void_idx Toy.rank0_set = [1]) as Hv by (vm_compute; reflexivity).
  assert (cluster_idx Toy.rank0_set = [0]) as Hc by (vm_compute; reflexivity).
  assert (cluster_idx (remove_tracking Toy.t_max Toy.rank0_set) = [0]) as Hc'
    by (vm_compute; reflexivity).
  assert (T3_to_idx (content Toy.rank0_set) Toy.t_max = 0) as Hi
    by (vm_compute; reflexivity).
  rewrite Hi, Hv, Hc, Hc'. split_and!.
  - assert (¬ (0 < at_ (content (reset_pixel Toy.t_max Toy.balanced)) Toy.t_max)%Qc)
      as Hguard.
    { assert (at_ (content (reset_pixel Toy.t_max Toy.balanced)) Toy.t_max = 0%Qc)
        as -> by (apply Qc_is_canon; vm_compute; reflexivity).
      apply (irreflexivity Qclt). }
    unfold rank_initial_bitmap. change (Z.to_nat 1) with 1%nat.
    rewrite (rank_initial_bitmap_loop_S 0 _ Toy.t_max Toy.rank0_set).
    + reflexivity.
    + vm_compute; reflexivity.
    + assert (size (content (reset_pixel Toy.t_max Toy.balanced)) = 2) as ->
        by (vm_compute; reflexivity).
      change (Z.of_nat 0) with 0. unfold Toy.rank0_set.
      exact (set_pixel_run_snd _ _ _ Hguard).
  - vm_compute; reflexivity.
  - apply Qc_is_canon. vm_compute; reflexivity.
  - intros [=]%list_elem_of_singleton.
  - by apply list_elem_of_singleton.
  - by apply list_elem_of_singleton.
Qed.

(** C3.  From a state with sound tracking sets in which the voxel
    at c has its entry in the void set (so content(c) = 0), and for every
    v > 0, set_pixel(c, v) does not throw and adds the kernel footprint to
    the energies, and reset_pixel(c) right after it gives back the very
    state the round trip started from: content, every energy value, both
    tracking sets and the tracking flag. *)
Theorem round_trip_restores_state (c : T3) (v : Qc) (st : tracking) :
  state_ok st → void_sound st → cluster_sound st →
  (_cluster_tracking_is_on st = false → _track_cluster st = []) →
  T3_to_idx (content st) c ∈ void_idx st → (0 < v)%Qc →
  at_ (content st) c = 0%Qc ∧
  ∃ st1, set_pixel c v st = (Ok tt, st1) ∧
         (∀ i, 0 ≤ i →
               at_idx (weights st1) i =
                 (at_idx (weights st) i + kern (filter st) (content st) c i)%Qc) ∧
         reset_pixel c st1 = st.
Proof.
  intros Hok Hvs Hcs Hoff Hin Hv.
  assert (at_ (content st) c = 0%Qc) as Hz.
  { apply (tracks_idx _ _ _ _ Hvs) in Hin.
    by destruct (proj2 Hvs _ Hin) as (_ & ? & _). }
  split; [exact Hz|]. exists (toggled_on c v st). split; [|split].
  - apply set_pixel_run. rewrite Hz. apply (irreflexivity Qclt).
  - intros i Hi. by apply toggled_on_weights.
  - apply round_trip; try done. intros ->. by apply (irreflexivity Qclt) in Hv.
Qed.

(** C4.  On a non-empty void set max_void returns the coordinate
    of the entry that is least in the lexicographic order on
    (energy, flat index); on a non-empty cluster set max_cluster returns the
    coordinate of the greatest entry.  On an empty set neither raises an
    error: the code dereferences the end iterator, which is undefined
    behaviour. *)
Theorem largest_void_and_cluster (st : tracking) :
  is_set (_track_void st) → is_set (_track_cluster st) →
  (_track_void st = [] → max_void st = Fail Undefined) ∧
  (_track_cluster st = [] → max_cluster st = Fail Undefined) ∧
  (_track_void st ≠ [] →
     ∃ e, e ∈ _track_void st ∧
          max_void st = Ok (idx_to_T3 (content st) e.2) ∧
          ∀ y, y ∈ _track_void st → lex_le e y) ∧
  (_track_cluster st ≠ [] →
     ∃ e, e ∈ _track_cluster st ∧
          max_cluster st = Ok (idx_to_T3 (content st) e.2) ∧
          ∀ y, y ∈ _track_cluster st → lex_le y e).
Proof.
  intros Hv Hc. split_and!.
  - intros Heq. unfold max_void. by rewrite Heq.
  - intros Heq. unfold max_cluster. by rewrite Heq.
  - intros Hne. destruct (set_cbegin_nonempty _ Hne) as [e He].
    destruct (set_cbegin_min _ _ Hv He) as [Hin Hmin].
    exists e. split; [done|]. split; [unfold max_void; by rewrite He|].
    intros y Hy. by apply lex_le_of_min, Hmin.
  - intros Hne. destruct (set_crbegin_nonempty _ Hne) as [e He].
    destruct (set_crbegin_max _ _ Hc He) as [Hin Hmax].
    exists e. split; [done|]. split; [unfold max_cluster; by rewrite He|].
    intros y Hy. apply lex_le_of_min. destruct (Hmax _ Hy) as [->|?]; auto.
Qed.

(** C5.  set_pixel(c, v) on a voxel whose content is > 0 throws
    std::runtime_error("already set") and leaves the whole state as it was;
    on a voxel whose content is 0 it does not throw. *)
Theorem set_pixel_precondition (c : T3) (v : Qc) (st : tracking) :
  ((0 < at_ (content st) c)%Qc →
     set_pixel c v st = (Fail (Throw "already set"), st)) ∧
  (at_ (content st) c = 0%Qc → (set_pixel c v st).1 = Ok tt).
Proof.
  split.
  - apply set_pixel_throw.
  - intros Hz. rewrite set_pixel_run; [done|]. rewrite Hz.
    apply (irreflexivity Qclt).
Qed.



(** C8.  GaussianMatrix(size, sigma) checks the size only:
    assert(size % 2 == 1) fails, before anything is computed, exactly when
    size is even or below 1.  sigma is never checked.  For every odd
    size ≥ 1 the call returns the size³ cube, and for sigma ≠ 0 the cell at
    (i0, i1, i2) weighs exp(-(dx²+dy²+dz²) / (2·sigma²)) with
    dx = i0 - size/2, dy = i1 - size/2, dz = i2 - size/2. *)
Theorem GaussianMatrix_checks_size_only `{Cxx} (size : Z) (sigma : Qc) :
  (size < 1 ∨ Z.even size = true → GaussianMatrix size sigma = Fail AssertFail) ∧
  (1 ≤ size → Z.odd size = true →
     ∃ g, GaussianMatrix size sigma = Ok g ∧
          dim0 g = size ∧ dim1 g = size ∧ dim2 g = size ∧
          Z.of_nat (length (_mat3D g)) = size * size * size ∧
          (sigma ≠ 0%Qc →
           ∀ i0 i1 i2, 0 ≤ i0 < size → 0 ≤ i1 < size → 0 ≤ i2 < size →
             let dx := i0 - Z.quot size 2 in
             let dy := i1 - Z.quot size 2 in
             let dz := i2 - Z.quot size 2 in
             get g (i0, i1, i2) =
               expf (Qc_of_int (- (dx * dx + dy * dy + dz * dz))
                     / (2 * sigma * sigma))%Qc)).
Proof.
  split.
  - intros Hbad. apply GaussianMatrix_fail. intros Hrem.
    destruct (rem2_odd size Hrem) as [Hpos Hhalf].
    destruct Hbad as [?|Hev]; [lia|].
    apply Z.even_spec in Hev as [h Hh]. lia.
  - intros Hpos Hodd.
    assert (Z.rem size 2 = 1) as Hrem.
    { rewrite Z.rem_mod_nonneg by lia. rewrite Zmod_odd, Hodd. done. }
    destruct (GaussianMatrix_ok size sigma Hrem)
      as (g & Hg & Hm & E0 & E1 & E2 & Hget).
    exists g. split; [done|]. split; [done|]. split; [done|]. split; [done|].
    split.
    { destruct Hm as (_ & _ & _ & _ & Hs & ->). unfold dim0, dim1, dim2 in *.
      rewrite Hs, E0, E1, E2. lia. }
    intros Hsig i0 i1 i2 Hi0 Hi1 Hi2 dx dy dz.
    rewrite Hget by by apply elem_of_cells.
    subst dx dy dz. unfold gauss_weight, dist2, get0, get1, get2.
    cbn [fst snd]. f_equal. unfold Qcdiv. by rewrite Qcmult_1_l.
Qed.

(** C9.  With use_random_device = false the two calls of seed() give 0
    whatever std::random_device would have returned, so the outcome of
    main — the final content field, or the failure — is the same in any two
    runs of one configuration. *)
Theorem fixed_seed_deterministic `{Cxx} (cfg : Config)
    (rd1 rd2 rd1' rd2' : Z) (fuel1 fuel2 : nat) :
  use_random_device cfg = false →
  main cfg rd1 rd2 fuel1 fuel2 = main cfg rd1' rd2' fuel1 fuel2.
Proof.
  intros Hfix.
  assert (∀ rd, seed cfg rd = 0) as Hseed.
  { intros rd. unfold seed. by rewrite Hfix. }
  unfold main, Matrix3D_w_void_and_cluster_tracking_new, small_randomization,
    phases, phase_1, initial_bitmap.
  by rewrite !Hseed.
Qed.


(** * The small instance: facts, counterexamples and instances *)

Lemma toy_fresh_new :
  @Matrix3D_w_void_and_cluster_tracking_new Toy.cxx Toy.cfg 0 2 1 1
    = Ok Toy.fresh.
Proof. vm_compute. reflexivity. Qed.

Lemma toy_fresh_inv :
  pattern_inv (at_idx (weights Toy.fresh)) Toy.fresh ∧
  @GaussianMatrix Toy.cxx 3 1%Qc = Ok (filter Toy.fresh).
Proof.
  destruct (@new_inv Toy.cxx Toy.cfg 0 2 1 1 Toy.fresh) as (Hinv & _ & _ & Hg);
    [lia..|exact toy_fresh_new|].
  split; [exact Hinv|exact Hg].
Qed.

Lemma toy_bump_pos x : (0 < Toy.bump x)%Qc.
Proof.
  assert (0 < 1)%Qc as H01 by reflexivity.
  unfold Toy.bump. case_bool_decide as Hx.
  - unfold Qcdiv. rewrite Qcmult_1_l. apply Qcinv_pos.
    change (1 - x)%Qc with (1 + - x)%Qc.
    apply Qclt_le_trans with (1 + 0)%Qc; [by rewrite Qcplus_0_r|].
    apply (proj1 (Qcplus_le_mono_l _ _ _)).
    apply Qcopp_le_compat in Hx. exact Hx.
  - apply Qcnot_le_lt in Hx. apply Qclt_trans with x; [done|].
    rewrite <- (Qcplus_0_l x) at 1.
    by apply (proj1 (Qcplus_lt_mono_r 0 1 x)).
Qed.

Lemma toy_fresh_void_idx : void_idx Toy.fresh = [0; 1].
Proof. vm_compute. reflexivity. Qed.

Lemma toy_origin_idx : T3_to_idx (content Toy.fresh) Toy.origin = 0.
Proof. vm_compute. reflexivity. Qed.


(** Counterexample to C3 as stated: after phase 1 the voxel of rank 0 has
    content 0 and no entry in the void set; set_pixel then reset_pixel on
    it does not throw and puts it into the void set. *)
Lemma round_trip_evicted_voxel_counterexample :
  at_ (content Toy.after_phase_1) Toy.t_max = 0%Qc ∧
  set_pixel Toy.t_max 1%Qc Toy.after_phase_1
    = (Ok tt, toggled_on Toy.t_max 1%Qc Toy.after_phase_1) ∧
  void_idx Toy.after_phase_1 = [1] ∧
  void_idx (reset_pixel Toy.t_max (toggled_on Toy.t_max 1%Qc Toy.after_phase_1))
    = [0; 1] ∧
  reset_pixel Toy.t_max (toggled_on Toy.t_max 1%Qc Toy.after_phase_1)
    ≠ Toy.after_phase_1.
Proof.
  assert (at_ (content Toy.after_phase_1) Toy.t_max = 0%Qc) as Hz
    by (apply Qc_is_canon; vm_compute; reflexivity).
  assert (void_idx Toy.after_phase_1 = [1]) as Hv by (vm_compute; reflexivity).
  assert (void_idx (reset_pixel Toy.t_max
                      (toggled_on Toy.t_max 1%Qc Toy.after_phase_1)) = [0; 1])
    as Hv' by (vm_compute; reflexivity).
  split; [exact Hz|]. split.
  { apply set_pixel_run. rewrite Hz. apply (irreflexivity Qclt). }
  split; [exact Hv|]. split; [exact Hv'|].
  intros Heq. rewrite Heq, Hv in Hv'. discriminate Hv'.
Qed.

(** Counterexample to C4 as stated: on the engine as constructed the
    cluster set is empty and max_cluster raises no error. *)
Lemma max_cluster_on_empty_set_counterexample :
  _track_cluster Toy.fresh = [] ∧ max_cluster Toy.fresh = Fail Undefined.
Proof. split; vm_compute; reflexivity. Qed.

(** Counterexample to C8 as stated: with sigma = 0, and with sigma = -1,
    GaussianMatrix does not fail. *)
Lemma GaussianMatrix_nonpositive_sigma_counterexample :
  is_ok (@GaussianMatrix Toy.cxx 3 0%Qc) = true ∧
  is_ok (@GaussianMatrix Toy.cxx 3 (-1)%Qc) = true.
Proof. split; vm_compute; reflexivity. Qed.

(** ** The theorems at the small instance *)


Lemma round_trip_restores_state_witness :
  at_ (content Toy.fresh) Toy.origin = 0%Qc ∧
  ∃ st1, set_pixel Toy.origin 1%Qc Toy.fresh = (Ok tt, st1) ∧
         (∀ i, 0 ≤ i →
               at_idx (weights st1) i =
                 (at_idx (weights Toy.fresh) i
                  + kern (filter Toy.fresh) (content Toy.fresh) Toy.origin i)%Qc) ∧
         reset_pixel Toy.origin st1 = Toy.fresh.
Proof.
  pose proof (proj1 toy_fresh_inv) as (Hok & _ & Hvs & Hcs & _).
  apply (round_trip_restores_state Toy.origin 1%Qc Toy.fresh Hok Hvs Hcs).
  - intros _. vm_compute. reflexivity.
  - rewrite toy_origin_idx, toy_fresh_void_idx. apply list_elem_of_here.
  - reflexivity.
Defined.

Lemma largest_void_and_cluster_witness :
  (_track_void Toy.balanced = [] → max_void Toy.balanced = Fail Undefined) ∧
  (_track_cluster Toy.balanced = [] →
     max_cluster Toy.balanced = Fail Undefined) ∧
  (_track_void Toy.balanced ≠ [] →
     ∃ e, e ∈ _track_void Toy.balanced ∧
          max_void Toy.balanced = Ok (idx_to_T3 (content Toy.balanced) e.2) ∧
          ∀ y, y ∈ _track_void Toy.balanced → lex_le e y) ∧
  (_track_cluster Toy.balanced ≠ [] →
     ∃ e, e ∈ _track_cluster Toy.balanced ∧
          max_cluster Toy.balanced = Ok (idx_to_T3 (content Toy.balanced) e.2) ∧
          ∀ y, y ∈ _track_cluster Toy.balanced → lex_le y e).
Proof.
  apply (largest_void_and_cluster Toy.balanced).
  - vm_compute. repeat constructor.
  - vm_compute. repeat constructor.
Defined.

Lemma set_pixel_precondition_witness :
  set_pixel Toy.origin 1%Qc Toy.one_on
    = (Fail (Throw "already set"), Toy.one_on) ∧
  (set_pixel Toy.origin 1%Qc Toy.fresh).1 = Ok tt.
Proof.
  split.
  - apply (proj1 (set_pixel_precondition Toy.origin 1%Qc Toy.one_on)).
    vm_compute. reflexivity.
  - apply (proj2 (set_pixel_precondition Toy.origin 1%Qc Toy.fresh)).
    apply Qc_is_canon. vm_compute. reflexivity.
Defined.



Lemma GaussianMatrix_checks_size_only_witness :
  @GaussianMatrix Toy.cxx 4 1%Qc = Fail AssertFail ∧
  @GaussianMatrix Toy.cxx (-3) 1%Qc = Fail AssertFail ∧
  ∃ g, @GaussianMatrix Toy.cxx 3 1%Qc = Ok g ∧
       dim0 g = 3 ∧ dim1 g = 3 ∧ dim2 g = 3 ∧
       Z.of_nat (length (_mat3D g)) = 3 * 3 * 3 ∧
       (1%Qc ≠ 0%Qc →
        ∀ i0 i1 i2, 0 ≤ i0 < 3 → 0 ≤ i1 < 3 → 0 ≤ i2 < 3 →
          let dx := i0 - Z.quot 3 2 in
          let dy := i1 - Z.quot 3 2 in
          let dz := i2 - Z.quot 3 2 in
          get g (i0, i1, i2) =
            Toy.bump (Qc_of_int (- (dx * dx + dy * dy + dz * dz))
                      / (2 * 1 * 1))%Qc).
Proof.
  split; [|split].
  - apply (proj1 (@GaussianMatrix_checks_size_only Toy.cxx 4 1%Qc)).
    right. reflexivity.
  - apply (proj1 (@GaussianMatrix_checks_size_only Toy.cxx (-3) 1%Qc)).
    left. lia.
  - apply (proj2 (@GaussianMatrix_checks_size_only Toy.cxx 3 1%Qc)).
    + lia.
    + reflexivity.
Defined.

Lemma fixed_seed_deterministic_witness :
  @main Toy.cxx Toy.cfg 1 2 10 10 = @main Toy.cxx Toy.cfg 3 4 10 10.
Proof.
  apply (@fixed_seed_deterministic Toy.cxx Toy.cfg 1 2 3 4 10%nat 10%nat).
  reflexivity.
Defined.


(** * Further properties of the engine *)

Lemma toy_one_on_inv : pattern_inv (at_idx (weights Toy.fresh)) Toy.one_on.
Proof.
  apply pattern_toggled_on.
  - exact (proj1 toy_fresh_inv).
  - vm_compute. apply list_elem_of_here.
  - discriminate.
Qed.

(** ** Coordinates *)

Lemma idx_to_T3_T3_to_idx m t :
  lattice_ok m → t ∈ cells (_d0 m) (_d1 m) (_d2 m) →
  idx_to_T3 m (T3_to_idx m t) = t.
Proof.
  intros Hm Ht.
  pose proof (T3_to_idx_range m t Hm) as Hr.
  apply (T3_to_idx_inj_small m); [done| |done|].
  - by apply idx_to_T3_cells.
  - by apply T3_to_idx_idx_to_T3.
Qed.

(** X1.  On a lattice with positive dimensions idx_to_T3 and T3_to_idx are
    inverse to each other: every flat index below size() is sent to a
    coordinate triple with each component inside its dimension and back to
    itself, and every such triple is sent to a flat index and back to
    itself. *)
Theorem idx_to_T3_inverts_T3_to_idx (m : Matrix3D) :
  lattice_ok m →
  (∀ i, 0 ≤ i < size m →
        idx_to_T3 m i ∈ cells (dim0 m) (dim1 m) (dim2 m) ∧
        T3_to_idx m (idx_to_T3 m i) = i) ∧
  (∀ t, t ∈ cells (dim0 m) (dim1 m) (dim2 m) →
        0 ≤ T3_to_idx m t < size m ∧
        idx_to_T3 m (T3_to_idx m t) = t).
Proof.
  intros Hm. unfold size, dim0, dim1, dim2. split.
  - intros i Hi. split.
    + by apply idx_to_T3_cells.
    + by apply T3_to_idx_idx_to_T3.
  - intros t Ht. split.
    + by apply T3_to_idx_range.
    + by apply idx_to_T3_T3_to_idx.
Qed.

Lemma idx_to_T3_inverts_T3_to_idx_witness :
  let m := Matrix3D_new 2 3 4 in
  (∀ i, 0 ≤ i < size m →
        idx_to_T3 m i ∈ cells (dim0 m) (dim1 m) (dim2 m) ∧
        T3_to_idx m (idx_to_T3 m i) = i) ∧
  (∀ t, t ∈ cells (dim0 m) (dim1 m) (dim2 m) →
        0 ≤ T3_to_idx m t < size m ∧
        idx_to_T3 m (T3_to_idx m t) = t).
Proof.
  apply (idx_to_T3_inverts_T3_to_idx (Matrix3D_new 2 3 4)).
  repeat split; vm_compute; reflexivity.
Defined.

(** X2.  Coordinates are periodic: adding whole multiples of the dimensions
    to a coordinate triple (operator+ on T3) changes neither the flat index
    T3_to_idx gives it nor the cell get reads, and set then get at two such
    triples sees the value written. *)
Theorem T3_to_idx_periodic (m : Matrix3D) (t : T3) (k0 k1 k2 : Z) (v : Qc) :
  lattice_ok m →
  let period : T3 := (k0 * dim0 m, k1 * dim1 m, k2 * dim2 m) in
  T3_to_idx m (t + period)%T3 = T3_to_idx m t ∧
  get m (t + period)%T3 = get m t ∧
  get (set_at m t v) (t + period)%T3 = v.
Proof.
  intros Hm period.
  assert (T3_to_idx m (t + period)%T3 = T3_to_idx m t) as Hidx.
  { destruct t as [[x y] z]. unfold period, T3_plus, get0, get1, get2, dim0,
      dim1, dim2. cbn [fst snd].
    apply T3_to_idx_inj; [done|]. by rewrite !Z_mod_plus_full. }
  split; [done|]. split.
  - unfold get. by rewrite Hidx.
  - rewrite get_set_at by done. by rewrite decide_True.
Qed.

Lemma T3_to_idx_periodic_witness :
  let m := Matrix3D_new 2 3 4 in
  let t : T3 := (1, -1, 7) in
  let period : T3 := (5 * dim0 m, (-2) * dim1 m, 1 * dim2 m) in
  T3_to_idx m (t + period)%T3 = T3_to_idx m t ∧
  get m (t + period)%T3 = get m t ∧
  get (set_at m t 1%Qc) (t + period)%T3 = 1%Qc.
Proof.
  apply (T3_to_idx_periodic (Matrix3D_new 2 3 4) (1, -1, 7) 5 (-2) 1 1%Qc).
  repeat split; vm_compute; reflexivity.
Defined.

(** ** The tracking sets *)

Lemma tracks_NoDup_idx P W s : tracks P W s → NoDup s.*2.
Proof.
  intros Ht. pose proof (is_set_NoDup _ (proj1 Ht)) as Hnd.
  rewrite (tracks_as_fmap _ _ _ Ht) in Hnd.
  by apply NoDup_fmap_1 in Hnd.
Qed.

Lemma perm_cons_not_in (c : Z) l l' : NoDup l → l ≡ₚ c :: l' → c ∉ l'.
Proof.
  intros Hnd Hp. rewrite Hp in Hnd. by apply NoDup_cons_1_1 in Hnd.
Qed.

Lemma perm_cons_elem_of (c j : Z) l l' :
  l ≡ₚ c :: l' → j ≠ c → j ∈ l' ↔ j ∈ l.
Proof. intros Hp Hj. rewrite Hp, elem_of_cons. naive_solver. Qed.

(** X3.  update(t3, value) adds value to the energy of the voxel t3 names
    and to no other, leaves the content alone, and re-keys the voxel's entry
    so that both tracking sets stay sound: each is still a set whose entries
    carry the current energy of a voxel of the right kind, and no voxel
    enters or leaves the void set (nor the cluster set while cluster
    tracking is on). *)
Theorem update_keeps_tracking_sound (t : T3) (value : Qc) (st : tracking) :
  state_ok st → void_sound st → cluster_sound st →
  let st' := update t value st in
  let idx := T3_to_idx (content st) t in
  content st' = content st ∧
  (∀ i, 0 ≤ i →
        at_idx (weights st') i =
          (at_idx (weights st) i + if decide (idx = i) then value else 0)%Qc) ∧
  void_sound st' ∧ cluster_sound st' ∧
  void_idx st' ≡ₚ void_idx st ∧
  (_cluster_tracking_is_on st = true → cluster_idx st' ≡ₚ cluster_idx st).
Proof.
  intros Hok Hvs Hcs st' idx. split; [apply update_content|]. split.
  { intros i Hi. by apply update_weights. }
  destruct (update_void t value st Hok Hvs) as [Hv Hvp].
  split; [done|]. split; [by apply update_cluster_sound|]. split; [done|].
  intros Hon. by destruct (update_cluster t value st Hok Hcs Hon).
Qed.

Lemma update_keeps_tracking_sound_witness :
  let st := Toy.one_on in
  let st' := update (1, 0, 0) 1%Qc st in
  let idx := T3_to_idx (content st) (1, 0, 0) in
  content st' = content st ∧
  (∀ i, 0 ≤ i →
        at_idx (weights st') i =
          (at_idx (weights st) i + if decide (idx = i) then 1 else 0)%Qc) ∧
  void_sound st' ∧ cluster_sound st' ∧
  void_idx st' ≡ₚ void_idx st ∧
  (_cluster_tracking_is_on st = true → cluster_idx st' ≡ₚ cluster_idx st).
Proof.
  pose proof toy_one_on_inv as (Hok & _ & Hvs & Hcs & _).
  exact (update_keeps_tracking_sound (1, 0, 0) 1%Qc Toy.one_on Hok Hvs Hcs).
Defined.

Lemma set_insert_present (x : entry) s : is_set s → x ∈ s → set_insert x s = s.
Proof.
  intros Hs Hx. destruct (set_insert_perm x s) as [[? _]|[_ Hn]]; [done|].
  by destruct (Hn Hs).
Qed.

(** X4.  add_to_void(t3) files the voxel under its current energy in the
    void set and takes that entry out of the cluster set; no other entry of
    either set is touched, and calling it a second time changes nothing. *)
Theorem add_to_void_idempotent (t : T3) (st : tracking) :
  is_set (_track_void st) → is_set (_track_cluster st) →
  let idx := T3_to_idx (content st) t in
  let e : entry := (at_idx (weights st) idx, idx) in
  let st' := add_to_void t st in
  e ∈ _track_void st' ∧ e ∉ _track_cluster st' ∧
  (∀ y, y ≠ e →
        (y ∈ _track_void st' ↔ y ∈ _track_void st) ∧
        (y ∈ _track_cluster st' ↔ y ∈ _track_cluster st)) ∧
  is_set (_track_void st') ∧ is_set (_track_cluster st') ∧
  add_to_void t st' = st'.
Proof.
  intros Hv Hc idx e st'.
  assert (_track_void st' = set_insert e (_track_void st)) as Ev by done.
  assert (_track_cluster st' = (set_erase e (_track_cluster st)).2) as Ec
    by done.
  assert (e ∈ _track_void st') as Hin.
  { rewrite Ev. apply elem_of_set_insert. by left. }
  assert (e ∉ _track_cluster st') as Hout.
  { rewrite Ec. rewrite elem_of_set_erase by done. naive_solver. }
  assert (is_set (_track_void st')) as Hv'.
  { rewrite Ev. by apply set_insert_is_set. }
  assert (is_set (_track_cluster st')) as Hc'.
  { rewrite Ec. by apply set_erase_is_set. }
  split; [done|]. split; [done|]. split.
  { intros y Hy. rewrite Ev, Ec, elem_of_set_insert.
    rewrite elem_of_set_erase by done. naive_solver. }
  split; [done|]. split; [done|].
  apply tracking_eq; try done.
  - change (_track_void (add_to_void t st'))
      with (set_insert e (_track_void st')).
    by apply set_insert_present.
  - change (_track_cluster (add_to_void t st'))
      with (set_erase e (_track_cluster st')).2.
    by apply erase_idx_absent.
Qed.

Lemma add_to_void_idempotent_witness :
  let st := Toy.one_on in
  let idx := T3_to_idx (content st) Toy.origin in
  let e : entry := (at_idx (weights st) idx, idx) in
  let st' := add_to_void Toy.origin st in
  e ∈ _track_void st' ∧ e ∉ _track_cluster st' ∧
  (∀ y, y ≠ e →
        (y ∈ _track_void st' ↔ y ∈ _track_void st) ∧
        (y ∈ _track_cluster st' ↔ y ∈ _track_cluster st)) ∧
  is_set (_track_void st') ∧ is_set (_track_cluster st') ∧
  add_to_void Toy.origin st' = st'.
Proof.
  pose proof toy_one_on_inv as (_ & _ & Hvs & Hcs & _).
  exact (add_to_void_idempotent Toy.origin Toy.one_on (proj1 Hvs) (proj1 Hcs)).
Defined.

(** X5.  add_to_cluster(t3) moves a voxel into the cluster set only from the
    void set: when the voxel has no entry in the void set the call changes
    nothing at all; when it has one, the entry leaves the void set, and it
    enters the cluster set exactly when cluster tracking is on. *)
Theorem add_to_cluster_needs_void_entry (t : T3) (st : tracking) :
  is_set (_track_void st) →
  let idx := T3_to_idx (content st) t in
  let e : entry := (at_idx (weights st) idx, idx) in
  let st' := add_to_cluster t st in
  (e ∉ _track_void st → st' = st) ∧
  (e ∈ _track_void st →
     e ∉ _track_void st' ∧
     (∀ y, y ≠ e → y ∈ _track_void st' ↔ y ∈ _track_void st) ∧
     (_cluster_tracking_is_on st = true →
        ∀ y, y ∈ _track_cluster st' ↔ y = e ∨ y ∈ _track_cluster st) ∧
     (_cluster_tracking_is_on st = false →
        _track_cluster st' = _track_cluster st)).
Proof.
  intros Hv idx e st'. subst st'. unfold add_to_cluster. fold idx. fold e.
  destruct (set_erase_spec e _ Hv) as [(Hin & H1 & Hp)|[Hout He]].
  - split; [done|]. intros _. rewrite H1.
    rewrite bool_decide_true by done. cbn [andb].
    change (_cluster_tracking_is_on (with_void st (set_erase e (_track_void st)).2))
      with (_cluster_tracking_is_on st).
    destruct (_cluster_tracking_is_on st) eqn:Hon; cbn [with_cluster with_void
      _track_void _track_cluster weights content].
    + split; [rewrite elem_of_set_erase by done; naive_solver|].
      split; [intros y Hy; rewrite elem_of_set_erase by done; naive_solver|].
      split; [|done]. intros _ y. apply elem_of_set_insert.
    + split; [rewrite elem_of_set_erase by done; naive_solver|].
      split; [intros y Hy; rewrite elem_of_set_erase by done; naive_solver|].
      split; [done|]. done.
  - split; [|done]. intros _. rewrite He. cbn [fst snd].
    rewrite bool_decide_false by (intros ?; done). cbn [andb].
    by destruct st.
Qed.

Lemma add_to_cluster_needs_void_entry_witness :
  add_to_cluster Toy.origin Toy.one_on = Toy.one_on.
Proof.
  pose proof toy_one_on_inv as (_ & _ & Hvs & _).
  apply (proj1 (add_to_cluster_needs_void_entry Toy.origin Toy.one_on
                  (proj1 Hvs))).
  vm_compute. intros Hin. apply list_elem_of_singleton in Hin. discriminate Hin.
Defined.

(** X6.  remove_tracking(t3) on an engine with sound tracking sets takes the
    voxel out of both sets and touches nothing else: content, energies and
    the tracking flag are as before, both sets stay sound, the voxel has an
    entry in neither, and every other voxel is in a set exactly when it was
    before. *)
Theorem remove_tracking_evicts (t : T3) (st : tracking) :
  state_ok st → void_sound st → cluster_sound st →
  let st' := remove_tracking t st in
  let c := T3_to_idx (content st) t in
  content st' = content st ∧ weights st' = weights st ∧
  _cluster_tracking_is_on st' = _cluster_tracking_is_on st ∧
  void_sound st' ∧ cluster_sound st' ∧
  c ∉ void_idx st' ∧ c ∉ cluster_idx st' ∧
  (∀ j, j ≠ c →
        (j ∈ void_idx st' ↔ j ∈ void_idx st) ∧
        (j ∈ cluster_idx st' ↔ j ∈ cluster_idx st)).
Proof.
  intros Hok Hvs Hcs st' c.
  destruct (remove_tracking_void t st Hvs) as (Hvs' & Hv1 & Hv2).
  destruct (remove_tracking_cluster t st Hcs) as (Hcs' & Hc1 & Hc2).
  pose proof (tracks_NoDup_idx _ _ _ Hvs) as Hnv.
  pose proof (tracks_NoDup_idx _ _ _ Hcs) as Hnc.
  fold c in Hv1, Hv2, Hc1, Hc2. fold st' in Hvs', Hcs', Hv1, Hv2, Hc1, Hc2.
  split; [done|]. split; [done|]. split; [done|].
  split; [done|]. split; [done|].
  split; [|split].
  - destruct (decide (c ∈ void_idx st)) as [Hin|Hout].
    + exact (perm_cons_not_in _ _ _ Hnv (Hv1 Hin)).
    + by rewrite (Hv2 Hout).
  - destruct (decide (c ∈ cluster_idx st)) as [Hin|Hout].
    + exact (perm_cons_not_in _ _ _ Hnc (Hc1 Hin)).
    + by rewrite (Hc2 Hout).
  - intros j Hj. split.
    + destruct (decide (c ∈ void_idx st)) as [Hin|Hout].
      * exact (perm_cons_elem_of _ _ _ _ (Hv1 Hin) Hj).
      * by rewrite (Hv2 Hout).
    + destruct (decide (c ∈ cluster_idx st)) as [Hin|Hout].
      * exact (perm_cons_elem_of _ _ _ _ (Hc1 Hin) Hj).
      * by rewrite (Hc2 Hout).
Qed.

Lemma remove_tracking_evicts_witness :
  let st := Toy.one_on in
  let st' := remove_tracking Toy.origin st in
  let c := T3_to_idx (content st) Toy.origin in
  content st' = content st ∧ weights st' = weights st ∧
  _cluster_tracking_is_on st' = _cluster_tracking_is_on st ∧
  void_sound st' ∧ cluster_sound st' ∧
  c ∉ void_idx st' ∧ c ∉ cluster_idx st' ∧
  (∀ j, j ≠ c →
        (j ∈ void_idx st' ↔ j ∈ void_idx st) ∧
        (j ∈ cluster_idx st' ↔ j ∈ cluster_idx st)).
Proof.
  pose proof toy_one_on_inv as (Hok & _ & Hvs & Hcs & _).
  exact (remove_tracking_evicts Toy.origin Toy.one_on Hok Hvs Hcs).
Defined.

Lemma remove_tracking_cluster_off t st :
  _track_cluster st = [] → _track_cluster (remove_tracking t st) = [].
Proof. intros Hc. unfold remove_tracking. cbn. by rewrite Hc. Qed.

(** X7.  cluster_tracking_off() is final: it empties the cluster set and
    clears the flag without touching content, energies or the void set,
    and from then on the cluster set stays empty and the flag stays clear
    under every set_pixel (whether it throws or not), reset_pixel and
    remove_tracking, so that max_cluster has nothing to return. *)
Theorem cluster_tracking_off_is_final (st : tracking) :
  let off (s : tracking) :=
    _track_cluster s = [] ∧ _cluster_tracking_is_on s = false in
  (content (cluster_tracking_off st) = content st ∧
   weights (cluster_tracking_off st) = weights st ∧
   _track_void (cluster_tracking_off st) = _track_void st ∧
   off (cluster_tracking_off st)) ∧
  (∀ s, off s →
        (∀ t v, off (set_pixel t v s).2) ∧
        (∀ t, off (reset_pixel t s)) ∧
        (∀ t, off (remove_tracking t s)) ∧
        max_cluster s = Fail Undefined).
Proof.
  intros off. split; [done|]. intros s [Hc Hf]. split; [|split; [|split]].
  - intros t v. destruct (decide (0 < at_ (content s) t)%Qc) as [Hp|Hp].
    + by rewrite set_pixel_throw.
    + rewrite set_pixel_run by done. unfold off. cbn [snd]. split.
      * by apply toggled_on_cluster_off.
      * by rewrite toggled_on_flag.
  - intros t. split.
    + by apply reset_pixel_cluster_off.
    + by rewrite reset_pixel_flag.
  - intros t. split; [by apply remove_tracking_cluster_off|done].
  - unfold max_cluster. by rewrite Hc.
Qed.



(** ** The kernel *)












(** X12.  The kernel GaussianMatrix builds has the full symmetry of the
    cube: its cells are unchanged by mirroring an axis in the centre and by
    exchanging two axes (every symmetry of the cube is a product of
    these). *)
Theorem GaussianMatrix_has_cubic_symmetry `{Cxx} (size : Z) (sigma : Qc)
    (g : Matrix3D) :
  GaussianMatrix size sigma = Ok g →
  ∀ i0 i1 i2, 0 ≤ i0 < size → 0 ≤ i1 < size → 0 ≤ i2 < size →
    get g (size - 1 - i0, i1, i2) = get g (i0, i1, i2) ∧
    get g (i1, i0, i2) = get g (i0, i1, i2) ∧
    get g (i0, i2, i1) = get g (i0, i1, i2).
Proof.
  intros Hg i0 i1 i2 H0 H1 H2.
  destruct (decide (Z.rem size 2 = 1)) as [Hs|Hs].
  2: { by rewrite GaussianMatrix_fail in Hg. }
  destruct (GaussianMatrix_ok size sigma Hs) as (g' & Hg' & _ & _ & _ & _ & Hget).
  rewrite Hg in Hg'. injection Hg' as <-.
  destruct (rem2_odd size Hs) as [_ Hc].
  rewrite !Hget by (apply elem_of_cells; lia).
  unfold gauss_weight, dist2, get0, get1, get2. cbn [fst snd].
  set (c := Z.quot size 2) in *.
  replace (size - 1 - i0 - c) with (- (i0 - c)) by lia.
  split; [|split]; do 4 f_equal; ring.
Qed.

Lemma GaussianMatrix_has_cubic_symmetry_witness :
  get (filter Toy.fresh) (3 - 1 - 0, 1, 2) = get (filter Toy.fresh) (0, 1, 2) ∧
  get (filter Toy.fresh) (1, 0, 2) = get (filter Toy.fresh) (0, 1, 2) ∧
  get (filter Toy.fresh) (0, 2, 1) = get (filter Toy.fresh) (0, 1, 2).
Proof.
  apply (@GaussianMatrix_has_cubic_symmetry Toy.cxx 3 1%Qc (filter Toy.fresh)
           (proj2 toy_fresh_inv) 0 1 2); lia.
Defined.

(** ** Construction *)

(** X13.  The constructor, on positive dimensions: when FILTER_SIZE is odd
    it succeeds and leaves every voxel off, every voxel in the void set
    under its jitter, the cluster set empty and cluster tracking on; when
    FILTER_SIZE is not odd the assertion of GaussianMatrix fails and no
    engine is built. *)
Theorem constructor_files_every_voxel_as_void `{Cxx} (cfg : Config) (rd : Z)
    (d0 d1 d2 : Z) :
  0 < d0 → 0 < d1 → 0 < d2 →
  (Z.rem (FILTER_SIZE cfg) 2 = 1 →
     ∃ st, Matrix3D_w_void_and_cluster_tracking_new cfg rd d0 d1 d2 = Ok st ∧
           dim0 (content st) = d0 ∧ dim1 (content st) = d1 ∧
           dim2 (content st) = d2 ∧ size (content st) = d0 * d1 * d2 ∧
           (∀ i, at_idx (content st) i = 0%Qc) ∧
           void_sound st ∧ void_idx st ≡ₚ seqZ 0 (d0 * d1 * d2) ∧
           _track_cluster st = [] ∧ _cluster_tracking_is_on st = true) ∧
  (Z.rem (FILTER_SIZE cfg) 2 ≠ 1 →
     Matrix3D_w_void_and_cluster_tracking_new cfg rd d0 d1 d2
       = Fail AssertFail).
Proof.
  intros H0 H1 H2. split.
  - intros Hodd.
    destruct (new_spec cfg rd d0 d1 d2 H0 H1 H2 Hodd)
      as (st & Hst & E0 & E1 & E2 & Hz & _ & Hcl & Hinv).
    destruct (new_inv cfg rd d0 d1 d2 st H0 H1 H2 Hst) as (_ & Hn & _).
    destruct Hinv as (_ & _ & Hvs & _ & Hon & Hpart & _).
    exists st. split; [done|]. split; [done|]. split; [done|].
    split; [done|]. split; [exact Hn|]. split; [done|]. split; [done|].
    split; [|done].
    unfold partition_inv, cluster_idx in Hpart.
    by rewrite Hcl, app_nil_r, Hn in Hpart.
  - intros Hodd. unfold Matrix3D_w_void_and_cluster_tracking_new.
    by rewrite GaussianMatrix_fail.
Qed.

Lemma constructor_files_every_voxel_as_void_witness :
  (∃ st, @Matrix3D_w_void_and_cluster_tracking_new Toy.cxx Toy.cfg 0 2 1 1
           = Ok st ∧
         dim0 (content st) = 2 ∧ dim1 (content st) = 1 ∧
         dim2 (content st) = 1 ∧ size (content st) = 2 * 1 * 1 ∧
         (∀ i, at_idx (content st) i = 0%Qc) ∧
         void_sound st ∧ void_idx st ≡ₚ seqZ 0 (2 * 1 * 1) ∧
         _track_cluster st = [] ∧ _cluster_tracking_is_on st = true) ∧
  @Matrix3D_w_void_and_cluster_tracking_new Toy.cxx
     (mkConfig 2 1%Qc 4 false 1) 0 2 1 1 = Fail AssertFail.
Proof.
  split.
  - apply (@constructor_files_every_voxel_as_void Toy.cxx Toy.cfg 0 2 1 1);
      [lia|lia|lia|reflexivity].
  - apply (@constructor_files_every_voxel_as_void Toy.cxx
             (mkConfig 2 1%Qc 4 false 1) 0 2 1 1); [lia|lia|lia|].
    vm_compute. discriminate.
Defined.

(** ** The phases *)

Lemma partition_lengths jit st :
  pattern_inv jit st →
  Z.of_nat (length (void_idx st)) + Z.of_nat (length (cluster_idx st))
    = nvox st.
Proof.
  intros (Hok & _ & _ & _ & _ & Hpart & _).
  pose proof (nvox_pos st Hok) as Hn.
  apply Permutation_length in Hpart.
  rewrite length_app, length_seqZ in Hpart. lia.
Qed.



Lemma initial_bitmap_loop_outcome `{Cxx} fuel d0 d1 d2 gen count st :
  (initial_bitmap_loop fuel d0 d1 d2 gen count st).1 = Ok tt ∨
  (initial_bitmap_loop fuel d0 d1 d2 gen count st).1 = Fail OutOfFuel.
Proof.
  revert gen count st. induction fuel as [|fuel IH]; intros gen count st.
  - cbn [initial_bitmap_loop]. case_bool_decide; [by right|by left].
  - cbn [initial_bitmap_loop]. case_bool_decide as Hc; [|by left].
    rewrite run_lift_bind. case_bool_decide as Hz.
    + rewrite run_bind, set_pixel_run.
      2: { unfold at_. unfold get in Hz. rewrite Hz.
           apply (irreflexivity Qclt). }
      apply IH.
    + apply IH.
Qed.

(** X15.  initial_bitmap never lets the exception of set_pixel escape (it
    tests the voxel first), so its loop either returns or keeps drawing; and
    when count exceeds the number of off voxels it never returns: however
    many rounds are allowed, the loop is still running. *)
Theorem initial_bitmap_cannot_overfill `{Cxx} (jit : Z → Qc) (cfg : Config)
    (rd : Z) (count : Z) (st : tracking) :
  (∀ fuel, (initial_bitmap cfg rd fuel count st).1 = Ok tt ∨
           (initial_bitmap cfg rd fuel count st).1 = Fail OutOfFuel) ∧
  (pattern_inv jit st → Z.of_nat (length (void_idx st)) < count →
   ∀ fuel, (initial_bitmap cfg rd fuel count st).1 = Fail OutOfFuel).
Proof.
  split.
  - intros fuel. apply initial_bitmap_loop_outcome.
  - intros Hinv Hc fuel.
    destruct (initial_bitmap_loop_outcome fuel (dim0 (content st))
                (dim1 (content st)) (dim2 (content st))
                (mt19937_seed (seed cfg rd)) count st) as [Hok|Hof];
      [|exact Hof].
    exfalso.
    destruct (initial_bitmap cfg rd fuel count st) as [o st'] eqn:Hrun.
    change (initial_bitmap_loop fuel (dim0 (content st)) (dim1 (content st))
              (dim2 (content st)) (mt19937_seed (seed cfg rd)) count st)
      with (initial_bitmap cfg rd fuel count st) in Hok.
    rewrite Hrun in Hok. cbn [fst] in Hok. subst o.
    destruct (initial_bitmap_spec jit cfg rd fuel count st st' Hinv
                ltac:(lia) Hrun) as (Hinv' & Hn & Hlen).
    pose proof (partition_lengths jit st Hinv).
    pose proof (partition_lengths jit st' Hinv'). lia.
Qed.

Lemma initial_bitmap_cannot_overfill_witness :
  (@initial_bitmap Toy.cxx Toy.cfg 0 10 3 Toy.fresh).1 = Fail OutOfFuel.
Proof.
  apply (proj2 (@initial_bitmap_cannot_overfill Toy.cxx
                  (at_idx (weights Toy.fresh)) Toy.cfg 0 3 Toy.fresh)).
  - exact (proj1 toy_fresh_inv).
  - vm_compute. reflexivity.
Defined.

(** X16.  phase_1 needs a positive count.  With count ≤ 0 the sampling loop
    does nothing, and on an engine whose cluster set is empty (as the
    constructor leaves it) the first round of reorder_bitmap then asks
    max_cluster for the last element of an empty set: undefined behaviour,
    with the engine untouched up to that point. *)
Theorem phase_1_needs_a_positive_count `{Cxx} (cfg : Config) (rd : Z)
    (fuel1 fuel2 : nat) (count : Z) (st : tracking) :
  count ≤ 0 → _track_cluster st = [] →
  phase_1 cfg rd fuel1 (S fuel2) count st = (Fail Undefined, st).
Proof.
  intros Hc Hcl. unfold phase_1. rewrite run_bind.
  assert (initial_bitmap cfg rd fuel1 count st = (Ok tt, st)) as ->.
  { unfold initial_bitmap. destruct fuel1; cbn [initial_bitmap_loop];
      by rewrite bool_decide_false by lia. }
  rewrite run_bind, reorder_bitmap_step.
  assert (reorder_round st = (Fail Undefined, st)) as ->; [|done].
  unfold reorder_round. rewrite run_lift_bind.
  unfold max_cluster. by rewrite Hcl.
Qed.

Lemma phase_1_needs_a_positive_count_witness :
  @phase_1 Toy.cxx Toy.cfg 0 10 (S 9) 0 Toy.fresh = (Fail Undefined, Toy.fresh).
Proof.
  apply (@phase_1_needs_a_positive_count Toy.cxx Toy.cfg 0 10 9 0 Toy.fresh).
  - lia.
  - vm_compute. reflexivity.
Defined.






(** ** The program *)

(** X19.  What main does with a configuration it cannot run.  With a
    FILTER_SIZE that is not odd the assertion of GaussianMatrix fails in the
    constructor, before any phase.  With an odd FILTER_SIZE and N > 0: when
    INITIAL_COUNT ≤ 0, phase 1 reaches max_cluster on an empty set
    (undefined behaviour); when INITIAL_COUNT exceeds the number N³ of
    voxels, the sampling loop never ends, whatever budget it is given. *)
Theorem main_on_unusable_configurations `{Cxx} (cfg : Config) (rd1 rd2 : Z)
    (fuel1 fuel2 : nat) :
  (Z.rem (FILTER_SIZE cfg) 2 ≠ 1 →
     main cfg rd1 rd2 fuel1 fuel2 = Fail AssertFail) ∧
  (Z.rem (FILTER_SIZE cfg) 2 = 1 → 0 < N cfg → INITIAL_COUNT cfg ≤ 0 →
     main cfg rd1 rd2 fuel1 (S fuel2) = Fail Undefined) ∧
  (Z.rem (FILTER_SIZE cfg) 2 = 1 → 0 < N cfg →
   N cfg * N cfg * N cfg < INITIAL_COUNT cfg →
     main cfg rd1 rd2 fuel1 fuel2 = Fail OutOfFuel).
Proof.
  split; [|split].
  - intros Hodd. unfold main, Matrix3D_w_void_and_cluster_tracking_new.
    by rewrite GaussianMatrix_fail.
  - intros Hodd HN Hk.
    destruct (new_spec cfg rd1 _ _ _ HN HN HN Hodd)
      as (st & Hst & _ & _ & _ & _ & _ & Hcl & _).
    unfold main. rewrite Hst. unfold phases. rewrite run_bind.
    assert (phase_1 cfg rd2 fuel1 (S fuel2) (INITIAL_COUNT cfg) st
              = (Fail Undefined, st)) as ->; [|done].
    unfold phase_1. rewrite run_bind.
    assert (initial_bitmap cfg rd2 fuel1 (INITIAL_COUNT cfg) st = (Ok tt, st))
      as ->.
    { unfold initial_bitmap. destruct fuel1; cbn [initial_bitmap_loop];
        by rewrite bool_decide_false by lia. }
    rewrite run_bind, reorder_bitmap_step.
    assert (reorder_round st = (Fail Undefined, st)) as ->; [|done].
    unfold reorder_round. rewrite run_lift_bind.
    unfold max_cluster. by rewrite Hcl.
  - intros Hodd HN Hk.
    destruct (new_spec cfg rd1 _ _ _ HN HN HN Hodd)
      as (st & Hst & _ & _ & _ & _ & _ & Hcl & Hinv).
    destruct (new_inv cfg rd1 _ _ _ st HN HN HN Hst) as (_ & Hn & _).
    unfold main. rewrite Hst. unfold phases. rewrite run_bind.
    unfold phase_1. rewrite run_bind.
    destruct (initial_bitmap cfg rd2 fuel1 (INITIAL_COUNT cfg) st)
      as [o st'] eqn:Hrun.
    destruct (initial_bitmap_loop_outcome fuel1 (dim0 (content st))
                (dim1 (content st)) (dim2 (content st))
                (mt19937_seed (seed cfg rd2)) (INITIAL_COUNT cfg) st)
      as [Hok|Hof].
    + exfalso.
      change (initial_bitmap_loop fuel1 (dim0 (content st)) (dim1 (content st))
                (dim2 (content st)) (mt19937_seed (seed cfg rd2))
                (INITIAL_COUNT cfg) st)
        with (initial_bitmap cfg rd2 fuel1 (INITIAL_COUNT cfg) st) in Hok.
      rewrite Hrun in Hok. cbn [fst] in Hok. subst o.
      assert (0 ≤ INITIAL_COUNT cfg) as Hk0 by nia.
      destruct (initial_bitmap_spec _ cfg rd2 fuel1 _ st st' Hinv Hk0 Hrun)
        as (Hinv' & Hn' & Hlen).
      pose proof (partition_lengths _ st Hinv).
      pose proof (partition_lengths _ st' Hinv'). lia.
    + change (initial_bitmap_loop fuel1 (dim0 (content st)) (dim1 (content st))
                (dim2 (content st)) (mt19937_seed (seed cfg rd2))
                (INITIAL_COUNT cfg) st)
        with (initial_bitmap cfg rd2 fuel1 (INITIAL_COUNT cfg) st) in Hof.
      rewrite Hrun in Hof. cbn [fst] in Hof. by subst o.
Qed.

Lemma main_on_unusable_configurations_witness :
  @main Toy.cxx (mkConfig 2 1%Qc 4 false 1) 0 0 10 10 = Fail AssertFail ∧
  @main Toy.cxx (mkConfig 2 1%Qc 3 false 0) 0 0 10 (S 9) = Fail Undefined ∧
  @main Toy.cxx (mkConfig 2 1%Qc 3 false 9) 0 0 10 10 = Fail OutOfFuel.
Proof.
  split; [|split].
  - apply (proj1 (@main_on_unusable_configurations Toy.cxx
                    (mkConfig 2 1%Qc 4 false 1) 0 0 10 10)).
    vm_compute. discriminate.
  - apply (proj1 (proj2 (@main_on_unusable_configurations Toy.cxx
                           (mkConfig 2 1%Qc 3 false 0) 0 0 10 9)));
      [reflexivity|reflexivity|vm_compute; discriminate].
  - apply (proj2 (proj2 (@main_on_unusable_configurations Toy.cxx
                           (mkConfig 2 1%Qc 3 false 9) 0 0 10 10)));
      [reflexivity|reflexivity|reflexivity].
Defined.

(** ** Progress reporting *)

Lemma report_progress_ok I p s :
  progress_ok s → progress_ok (report_progress I p s).
Proof.
  unfold progress_ok, report_progress.
  change (Z.of_nat (length arr_progress_wheel)) with 4.
  intros (Hw & Hc & Hl).
  case_bool_decide as HI; [done|].
  destruct (bool_decide (Z.rem (progress_counter s + 1) I ≠ 0) &&
            bool_decide (p ≠ 100)) eqn:Hq.
  { cbn [wheel_idx progress_counter last_percentage_reported]. clear Hq. lia. }
  clear Hq.
  pose proof (Z.mod_pos_bound (wheel_idx s + 1) 4 ltac:(lia)) as Hm.
  case_bool_decide as Hsame.
  { cbn [wheel_idx progress_counter last_percentage_reported]. lia. }
  case_bool_decide as H100;
    cbn [wheel_idx progress_counter last_percentage_reported]; lia.
Qed.

Lemma report_all_cons I p ps s :
  report_all I (p :: ps) s = report_all I ps (report_progress I p s).
Proof. reflexivity. Qed.

Lemma report_all_ok I ps s : progress_ok s → progress_ok (report_all I ps s).
Proof.
  revert s. induction ps as [|p ps IH]; intros s Hs; [done|].
  rewrite report_all_cons. apply IH. by apply report_progress_ok.
Qed.

Lemma progress_start_ok : progress_ok progress_start.
Proof. unfold progress_ok. cbn. lia. Qed.

Lemma report_all_silent I ps s :
  0 < I → Forall (λ p, p ≠ 100) ps →
  0 ≤ progress_counter s → progress_counter s + Z.of_nat (length ps) < I →
  report_all I ps s =
    mkProgress (wheel_idx s) (progress_counter s + Z.of_nat (length ps))
      (last_percentage_reported s) (cout s).
Proof.
  intros HI. revert s. induction ps as [|p ps IH]; intros s Hps Hc Hlen.
  - cbn. rewrite Z.add_0_r. by destruct s.
  - apply Forall_cons in Hps as [Hp Hps]. cbn [length] in Hlen.
    rewrite report_all_cons.
    assert (report_progress I p s =
              mkProgress (wheel_idx s) (progress_counter s + 1)
                (last_percentage_reported s) (cout s)) as ->.
    { unfold report_progress. rewrite bool_decide_false by lia.
      rewrite Z.rem_small by lia.
      rewrite bool_decide_true by lia. by rewrite bool_decide_true. }
    rewrite IH; cbn [wheel_idx progress_counter last_percentage_reported cout].
    + f_equal. cbn [length]. lia.
    + done.
    + lia.
    + lia.
Qed.

(** X20.  Reporting is throttled.  With REPORT_INTERVAL ≤ 0 no call of
    report_progress changes anything or prints.  With REPORT_INTERVAL > 0,
    starting from the initial statics, fewer than REPORT_INTERVAL calls with
    percentages other than 100 print nothing: they only count. *)
Theorem report_progress_is_throttled (REPORT_INTERVAL : Z) (ps : list Z) :
  (REPORT_INTERVAL ≤ 0 → ∀ s, report_all REPORT_INTERVAL ps s = s) ∧
  (0 < REPORT_INTERVAL → Forall (λ p, p ≠ 100) ps →
   Z.of_nat (length ps) < REPORT_INTERVAL →
   report_all REPORT_INTERVAL ps progress_start =
     mkProgress (-1) (Z.of_nat (length ps)) (-1) "").
Proof.
  split.
  - intros HI. induction ps as [|p ps IH]; intros s; [done|].
    rewrite report_all_cons. unfold report_progress.
    rewrite bool_decide_true by done. apply IH.
  - intros HI Hps Hlen.
    by rewrite report_all_silent by (done || cbn; lia).
Qed.

Lemma report_progress_is_throttled_witness :
  report_all 0 [10; 100] (mkProgress 2 7 10 "x") = mkProgress 2 7 10 "x" ∧
  report_all 50 [0; 0; 1; 99] progress_start =
    mkProgress (-1) (Z.of_nat (length [0; 0; 1; 99])) (-1) "".
Proof.
  split.
  - apply (proj1 (report_progress_is_throttled 0 [10; 100])). lia.
  - apply (proj2 (report_progress_is_throttled 50 [0; 0; 1; 99])).
    + lia.
    + repeat constructor; discriminate.
    + cbn. lia.
Defined.

(** X21.  report_progress(100) finishes a run from every state a run can
    reach: it prints the final line and sets the three statics to -1.  That
    is not the initial state (the counter starts at 0): the first call after
    a finish prints at once, with the first character of the wheel, where a
    first call in a fresh process only counts. *)
Theorem report_progress_finished_resets (REPORT_INTERVAL : Z) (ps : list Z)
    (p : Z) :
  0 < REPORT_INTERVAL →
  let s := report_all REPORT_INTERVAL ps progress_start in
  let s' := report_progress_finished REPORT_INTERVAL s in
  s' = mkProgress (-1) (-1) (-1)
         (cout s +:+ CR +:+ "Progress [X] : 100%" +:+ LF) ∧
  (p ≠ 100 → p ≠ -1 →
   let output := "Progress [" +:+ BACKSLASH +:+ "] : " +:+ to_string p +:+ "%" in
   report_progress REPORT_INTERVAL p s' =
     mkProgress 0 0 p (cout s' +:+ CR +:+ output +:+ CR +:+ "Progress [")).
Proof.
  intros HI s s'.
  assert (progress_ok s) as (Hw & Hc & Hl)
    by apply report_all_ok, progress_start_ok.
  assert (s' = mkProgress (-1) (-1) (-1)
                 (cout s +:+ CR +:+ "Progress [X] : 100%" +:+ LF)) as Hs'.
  { unfold s', report_progress_finished, report_progress.
    rewrite bool_decide_false by lia.
    rewrite (bool_decide_false (100 ≠ 100)) by (intros ?; done).
    rewrite andb_false_r.
    rewrite bool_decide_false by done.
    by rewrite bool_decide_true. }
  split; [exact Hs'|]. intros Hp1 Hp2 output. rewrite Hs'.
  unfold report_progress.
  cbn [progress_counter wheel_idx last_percentage_reported cout].
  rewrite bool_decide_false by lia.
  change (-1 + 1) with 0. rewrite Z.rem_0_l by lia.
  rewrite (bool_decide_false (0 ≠ 0)) by (intros ?; done).
  cbn [andb].
  rewrite bool_decide_false by congruence.
  rewrite bool_decide_false by done.
  reflexivity.
Qed.

Lemma report_progress_finished_resets_witness :
  let s := report_all 2 [0; 0; 7] progress_start in
  let s' := report_progress_finished 2 s in
  s' = mkProgress (-1) (-1) (-1)
         (cout s +:+ CR +:+ "Progress [X] : 100%" +:+ LF) ∧
  (let output := "Progress [" +:+ BACKSLASH +:+ "] : " +:+ to_string 8 +:+ "%" in
   report_progress 2 8 s' =
     mkProgress 0 0 8 (cout s' +:+ CR +:+ output +:+ CR +:+ "Progress [")).
Proof.
  pose proof (report_progress_finished_resets 2 [0; 0; 7] 8 ltac:(lia))
    as [H1 H2].
  split; [exact H1|]. apply H2; discriminate.
Defined.

(** X22.  report_progress_unfinished never finishes a run: whatever
    percentage it is given (100 and more included) it passes on at most 99,
    so the call counts as one more, never resets the statics, and leaves a
    state in which the wheel index is inside the wheel and the last
    percentage reported is not 100. *)
Theorem report_progress_unfinished_never_finishes (REPORT_INTERVAL : Z)
    (percentage : Z) (s : progress) :
  0 < REPORT_INTERVAL → progress_ok s →
  let s' := report_progress_unfinished REPORT_INTERVAL percentage s in
  progress_counter s' = progress_counter s + 1 ∧
  progress_ok s' ∧
  (cout s' = cout s ∨ last_percentage_reported s' = Z.min percentage 99).
Proof.
  intros HI Hs s'. split; [|split].
  - unfold s', report_progress_unfinished, report_progress.
    rewrite bool_decide_false by lia.
    destruct (bool_decide (Z.rem (progress_counter s + 1) REPORT_INTERVAL ≠ 0)
              && bool_decide (Z.min percentage 99 ≠ 100)); [done|].
    case_bool_decide; [done|].
    rewrite bool_decide_false by lia. done.
  - by apply report_progress_ok.
  - unfold s', report_progress_unfinished, report_progress.
    rewrite bool_decide_false by lia.
    destruct (bool_decide (Z.rem (progress_counter s + 1) REPORT_INTERVAL ≠ 0)
              && bool_decide (Z.min percentage 99 ≠ 100)); [by left|].
    case_bool_decide; [by right|].
    rewrite bool_decide_false by lia. by right.
Qed.

Lemma report_progress_unfinished_never_finishes_witness :
  let s := progress_start in
  let s' := report_progress_unfinished 1 100 s in
  progress_counter s' = progress_counter s + 1 ∧
  progress_ok s' ∧
  (cout s' = cout s ∨ last_percentage_reported s' = Z.min 100 99).
Proof.
  apply (report_progress_unfinished_never_finishes 1 100 progress_start).
  - lia.
  - exact progress_start_ok.
Defined.

(** ** Layers and files *)

Lemma to_mat_layer m layer :
  lattice_ok m → 0 ≤ layer < _d2 m →
  ∃ a, to_mat m layer = Ok a ∧ rows a = _d1 m ∧ cols a = _d0 m ∧
       data a = take (Z.to_nat (_d01 m))
                  (drop (Z.to_nat (layer * _d01 m)) (_mat3D m)).
Proof.
  intros (H0 & H1 & H2 & H01 & Hs & Hlen) Hl. unfold to_mat, vector_range.
  assert (0 < _d01 m) as Hp by nia.
  assert ((layer + 1) * _d01 m ≤ _size m) as Hle by (rewrite Hs, H01; nia).
  rewrite bool_decide_true by (rewrite Hlen; split; [|split]; nia).
  replace ((layer + 1) * _d01 m - layer * _d01 m) with (_d01 m) by lia.
  set (v := take (Z.to_nat (_d01 m))
              (drop (Z.to_nat (layer * _d01 m)) (_mat3D m))).
  assert (length v = Z.to_nat (_d01 m)) as Hv.
  { unfold v. rewrite length_take_le; [done|]. rewrite length_drop, Hlen. nia. }
  assert (Mat_of_vector v = mkMat (_d01 m) 1 v) as ->.
  { unfold Mat_of_vector. destruct v as [|x v]; [cbn in Hv; lia|].
    rewrite Hv. f_equal. lia. }
  unfold Mat_reshape. cbn [rows cols data].
  case_bool_decide as Hsame.
  - assert (_d1 m = _d01 m) as E by lia.
    exists (mkMat (_d01 m) 1 v). cbn [rows cols data].
    split; [done|]. split; [done|]. split; [nia|done].
  - rewrite bool_decide_false by nia.
    assert (Z.quot (_d01 m * 1) (_d1 m) = _d0 m) as Hq.
    { rewrite Z.mul_1_r, H01. apply Z.quot_mul. lia. }
    rewrite Hq. rewrite bool_decide_false by (intros Hne; apply Hne; lia).
    by exists (mkMat (_d1 m) (_d0 m) v).
Qed.

(** X23.  to_mat(layer) of a lattice with positive dimensions, for
    0 ≤ layer < dim2, is a matrix of dim1 rows and dim0 columns whose
    element in row r and column c is the voxel (c, r, layer); for any other
    layer the copied range lies outside the vector, which is undefined
    behaviour. *)
Theorem to_mat_is_the_layer (m : Matrix3D) (layer : Z) :
  lattice_ok m →
  (0 ≤ layer < dim2 m →
     ∃ a, to_mat m layer = Ok a ∧ rows a = dim1 m ∧ cols a = dim0 m ∧
          Z.of_nat (length (data a)) = dim0 m * dim1 m ∧
          ∀ r c, 0 ≤ r < dim1 m → 0 ≤ c < dim0 m →
                 Mat_at a r c = get m (c, r, layer)) ∧
  (layer < 0 ∨ dim2 m ≤ layer → to_mat m layer = Fail Undefined).
Proof.
  intros Hm. unfold dim0, dim1, dim2. split.
  - intros Hl. destruct (to_mat_layer m layer Hm Hl) as (a & Ha & Hr & Hc & Hd).
    destruct Hm as (H0 & H1 & H2 & H01 & Hs & Hlen).
    assert (length (data a) = Z.to_nat (_d01 m)) as Hla.
    { rewrite Hd, length_take_le; [done|]. rewrite length_drop, Hlen. nia. }
    exists a. split; [done|]. split; [done|]. split; [done|].
    split; [rewrite Hla; nia|].
    intros r c Hr' Hc'. unfold Mat_at, get.
    rewrite (T3_to_idx_small m c r layer) by (done || by repeat split).
    rewrite Hd, Hc, lookup_total_take_lt by nia.
    rewrite lookup_total_drop. unfold at_idx. f_equal. nia.
  - intros Hl. destruct Hm as (H0 & H1 & H2 & H01 & Hs & Hlen).
    unfold to_mat, vector_range.
    rewrite bool_decide_false; [done|]. rewrite Hlen. nia.
Qed.

Lemma to_mat_is_the_layer_witness :
  let m := Matrix3D_new 2 3 4 in
  (∃ a, to_mat m 1 = Ok a ∧ rows a = dim1 m ∧ cols a = dim0 m ∧
        Z.of_nat (length (data a)) = dim0 m * dim1 m ∧
        ∀ r c, 0 ≤ r < dim1 m → 0 ≤ c < dim0 m →
               Mat_at a r c = get m (c, r, 1)) ∧
  to_mat m 4 = Fail Undefined.
Proof.
  assert (lattice_ok (Matrix3D_new 2 3 4)) as Hm
    by (repeat split; vm_compute; reflexivity).
  split.
  - apply (proj1 (to_mat_is_the_layer (Matrix3D_new 2 3 4) 1 Hm)).
    vm_compute. split; [discriminate|reflexivity].
  - apply (proj2 (to_mat_is_the_layer (Matrix3D_new 2 3 4) 4 Hm)).
    right. vm_compute. discriminate.
Defined.

Lemma string_length_app (s t : string) :
  String.length (s +:+ t) = (String.length s + String.length t)%nat.
Proof. induction s as [|a s IH]; [done|]. simpl. by f_equal. Qed.

Lemma string_app_inj_r (t s1 s2 : string) : s1 +:+ t = s2 +:+ t → s1 = s2.
Proof.
  revert s2. induction s1 as [|a s1 IH]; intros [|b s2] Heq; [done|..].
  - apply (f_equal String.length) in Heq.
    rewrite !string_length_app in Heq. simpl in Heq. lia.
  - apply (f_equal String.length) in Heq.
    rewrite !string_length_app in Heq. simpl in Heq. lia.
  - simpl in Heq. injection Heq as -> Heq. f_equal. by apply IH.
Qed.

Lemma layer_file_inj (path : string) (a b : Z) :
  path +:+ file_prefix +:+ to_string a +:+ file_ext =
  path +:+ file_prefix +:+ to_string b +:+ file_ext → a = b.
Proof.
  intros Heq. apply String.app_inj, String.app_inj in Heq.
  apply string_app_inj_r in Heq. by apply pretty_Z_inj in Heq.
Qed.

Lemma save_loop m path ls files0 :
  lattice_ok m → (∀ l, l ∈ ls → 0 ≤ l < _d2 m) →
  ∃ files1,
    fold_left
      (λ acc layer,
         match acc with
         | Fail e => Fail e
         | Ok files =>
             match to_mat m layer with
             | Fail e => Fail e
             | Ok mat_float =>
                 Ok (files ++
                     [(path +:+ file_prefix +:+ to_string layer +:+ file_ext,
                       mat_float)])
             end
         end) ls (Ok files0) = Ok (files0 ++ files1) ∧
    Forall2 (λ layer (f : string * Mat),
               f.1 = path +:+ file_prefix +:+ to_string layer +:+ file_ext ∧
               to_mat m layer = Ok f.2) ls files1.
Proof.
  intros Hm. revert files0. induction ls as [|l ls IH]; intros files0 Hls.
  - exists []. split; [by rewrite app_nil_r|constructor].
  - destruct (to_mat_layer m l Hm) as (a & Ha & _).
    { apply Hls. apply list_elem_of_here. }
    cbn [fold_left]. rewrite Ha.
    destruct (IH (files0 ++
                  [(path +:+ file_prefix +:+ to_string l +:+ file_ext, a)]))
      as (files1 & Hrun & Hall).
    { intros l' Hl'. apply Hls. by apply list_elem_of_further. }
    exists ((path +:+ file_prefix +:+ to_string l +:+ file_ext, a) :: files1).
    split.
    + rewrite Hrun. by rewrite <- app_assoc.
    + by constructor.
Qed.

(** X24.  save, on a lattice with positive dimensions, never reads outside
    the array: it produces one file per layer, in order, layer number k
    going with the matrix to_mat(k) under the name
    path + "layer_" + k + ".png", and no two layers share a file name, so no
    layer overwrites another. *)
Theorem save_writes_one_file_per_layer (mat3d : Matrix3D) (path : string) :
  lattice_ok mat3d →
  ∃ files,
    save mat3d path = Ok files ∧
    Z.of_nat (length files) = dim2 mat3d ∧
    NoDup files.*1 ∧
    Forall2 (λ layer (f : string * Mat),
               f.1 = path +:+ "layer_" +:+ to_string layer +:+ ".png" ∧
               to_mat mat3d layer = Ok f.2)
      (seqZ 0 (dim2 mat3d)) files.
Proof.
  intros Hm. unfold save, for_range, dim2.
  destruct (save_loop mat3d path (seqZ 0 (_d2 mat3d)) [] Hm)
    as (files & Hrun & Hall).
  { intros l Hl. apply elem_of_seqZ in Hl. lia. }
  exists files. split; [exact Hrun|].
  pose proof (Forall2_length _ _ _ Hall) as Hlen.
  rewrite length_seqZ in Hlen.
  assert (0 < _d2 mat3d) as H2 by apply Hm.
  split; [lia|]. split; [|exact Hall].
  assert (files.*1 =
            (λ layer, path +:+ file_prefix +:+ to_string layer +:+ file_ext)
              <$> seqZ 0 (_d2 mat3d)) as ->.
  { clear Hrun Hlen. induction Hall as [|l f ls fs [Hf _] _ IH]; [done|].
    cbn [fmap list_fmap]. f_equal; [exact Hf|exact IH]. }
  apply NoDup_fmap_2; [|apply NoDup_seqZ].
  intros a b. apply layer_file_inj.
Qed.

Lemma save_writes_one_file_per_layer_witness :
  let mat3d := Matrix3D_new 2 3 4 in
  ∃ files,
    save mat3d "./out/" = Ok files ∧
    Z.of_nat (length files) = dim2 mat3d ∧
    NoDup files.*1 ∧
    Forall2 (λ layer (f : string * Mat),
               f.1 = "./out/" +:+ "layer_" +:+ to_string layer +:+ ".png" ∧
               to_mat mat3d layer = Ok f.2)
      (seqZ 0 (dim2 mat3d)) files.
Proof.
  apply (save_writes_one_file_per_layer (Matrix3D_new 2 3 4) "./out/").
  repeat split; vm_compute; reflexivity.
Defined.

(** ** The jitter *)

Lemma list_bind_ext_in {A B} (f g : A → list B) (l : list A) :
  (∀ x, x ∈ l → f x = g x) → l ≫= f = l ≫= g.
Proof.
  induction l as [|x l IH]; intros Hfg; [done|].
  rewrite !bind_cons. f_equal.
  - apply Hfg, list_elem_of_here.
  - apply IH. intros y Hy. by apply Hfg, list_elem_of_further.
Qed.

Lemma list_fmap_of_bind {A B C} (f : B → C) (g : A → list B) (l : list A) :
  f <$> (l ≫= g) = l ≫= (λ x, f <$> g x).
Proof.
  induction l as [|x l IH]; [done|].
  by rewrite !bind_cons, fmap_app, IH.
Qed.

Lemma list_bind_singleton_fmap {A B} (f : A → B) (l : list A) :
  l ≫= (λ x, [f x]) = f <$> l.
Proof. induction l as [|x l IH]; [done|]. by rewrite bind_cons, IH. Qed.

Lemma seqZ_blocks (n : nat) (b d : Z) :
  0 ≤ d →
  seqZ 0 (Z.of_nat n) ≫= (λ i, seqZ (b + i * d) d) = seqZ b (Z.of_nat n * d).
Proof.
  intros Hd. induction n as [|n IH]; [done|].
  rewrite seqZ_S, bind_app, IH. cbn [mbind list_bind app].
  rewrite app_nil_r.
  replace (Z.of_nat (S n) * d) with (Z.of_nat n * d + d) by lia.
  rewrite (seqZ_app b) by nia. by rewrite Z.add_0_l.
Qed.

(** The triple loops visit the cells in the order of their flat indices. *)
Lemma cells_idx_seq m :
  lattice_ok m →
  T3_to_idx m <$> cells (_d0 m) (_d1 m) (_d2 m) = seqZ 0 (_size m).
Proof.
  intros Hm. pose proof Hm as (H0 & H1 & H2 & H01 & Hs & _).
  unfold cells. rewrite list_fmap_of_bind.
  rewrite (list_bind_ext_in _ (λ i2, seqZ (0 + i2 * _d01 m) (_d01 m))).
  - rewrite <- (Z2Nat.id (_d2 m)) at 1 by lia.
    rewrite seqZ_blocks by nia. rewrite Z2Nat.id by lia.
    rewrite Hs, H01. f_equal; lia.
  - intros i2 Hi2. apply elem_of_seqZ in Hi2.
    rewrite list_fmap_of_bind.
    rewrite (list_bind_ext_in _ (λ i1, seqZ (i2 * _d01 m + i1 * _d0 m) (_d0 m))).
    + rewrite <- (Z2Nat.id (_d1 m)) at 1 by lia.
      rewrite seqZ_blocks by lia. rewrite Z2Nat.id by lia.
      rewrite H01. f_equal; lia.
    + intros i1 Hi1. apply elem_of_seqZ in Hi1.
      rewrite (list_bind_singleton_fmap (λ i0, (i0, i1, i2))).
      rewrite <- list_fmap_compose.
      rewrite <- (Z.add_0_r (i2 * _d01 m + i1 * _d0 m)).
      rewrite <- fmap_add_seqZ.
      apply list_fmap_ext. intros k i0 Hk.
      apply list_elem_of_lookup_2, elem_of_seqZ in Hk. cbn.
      rewrite T3_to_idx_small by (done || lia). rewrite H01. lia.
Qed.

Lemma draws_fold {G : Type} (distr : G → Qc * G) l gen w k :
  lattice_ok w →
  T3_to_idx w <$> l = seqZ (Z.of_nat k) (Z.of_nat (length l)) →
  (k + length l ≤ length (_mat3D w))%nat →
  let r := fold_left
             (λ (s : G * Matrix3D) i,
                let d := distr s.1 in (d.2, set_at s.2 i d.1))
             l (gen, w) in
  _mat3D r.2 =
    take k (_mat3D w) ++ draws distr gen (length l) ++
    drop (k + length l) (_mat3D w).
Proof.
  revert gen w k. induction l as [|c l IH]; intros gen w k Hw Hidx Hlen r.
  - subst r. cbn [fold_left snd length draws app]. rewrite Nat.add_0_r.
    by rewrite take_drop.
  - subst r. cbn [fold_left fst snd]. cbn [length] in Hidx, Hlen.
    rewrite seqZ_cons in Hidx by lia. rewrite fmap_cons in Hidx.
    injection Hidx as Hc Hidx.
    set (v := (distr gen).1). set (gen' := (distr gen).2).
    set (w' := set_at w c v).
    assert (_mat3D w' = <[k := v]> (_mat3D w)) as Hmat.
    { unfold w', set_at, set_idx. cbn [_mat3D]. by rewrite Hc, Nat2Z.id. }
    assert (length (_mat3D w') = length (_mat3D w)) as Hl'
      by (by rewrite Hmat, length_insert).
    specialize (IH gen' w' (S k)). cbn zeta in IH. rewrite IH.
    + rewrite Hmat. cbn [length draws]. fold v gen'.
      rewrite (take_S_r _ k v) by (apply list_lookup_insert_eq; lia).
      rewrite take_insert_ge by lia. rewrite drop_insert_lt by lia.
      rewrite <- app_assoc. cbn [app].
      by replace (k + S (length l))%nat with (S k + length l)%nat by lia.
    + by apply set_idx_lattice_ok.
    + replace (Z.of_nat (length l))
        with (Z.pred (Z.of_nat (S (length l)))) by lia.
      replace (Z.of_nat (S k)) with (Z.succ (Z.of_nat k)) by lia.
      rewrite <- Hidx. apply list_fmap_ext. intros _ t _.
      apply T3_to_idx_dims, set_at_same_dims.
    + rewrite Hl'. lia.
Qed.

(** X25.  small_randomization fills the energy field in raster order: the
    voxel with flat index i receives the (i+1)-th value that
    uniform_real_distribution(0, EPS) draws from the generator seeded with
    seed(), and nothing else of the engine is touched. *)
Theorem small_randomization_draws_in_raster_order `{Cxx} (cfg : Config)
    (rd : Z) (st : tracking) :
  state_ok st →
  let st' := small_randomization cfg rd st in
  _mat3D (weights st') =
    draws (uniform_real_distribution 0%Qc EPS) (mt19937_seed (seed cfg rd))
      (Z.to_nat (size (weights st))) ∧
  content st' = content st ∧ filter st' = filter st ∧
  _track_void st' = _track_void st ∧ _track_cluster st' = _track_cluster st ∧
  _cluster_tracking_is_on st' = _cluster_tracking_is_on st.
Proof.
  intros Hok st'.
  destruct (small_randomization_ok cfg rd st Hok) as (_ & Hrest).
  split; [|exact Hrest].
  destruct Hok as (_ & Hw & _).
  pose proof Hw as (H0 & H1 & H2 & H01 & Hs & Hlen).
  unfold st', small_randomization, size. cbn [weights with_weights].
  rewrite for3_cells.
  pose proof (cells_idx_seq (weights st) Hw) as Hidx.
  assert (length (cells (_d0 (weights st)) (_d1 (weights st))
                    (_d2 (weights st))) = Z.to_nat (_size (weights st)))
    as Hcl.
  { rewrite <- (length_fmap (T3_to_idx (weights st))), Hidx.
    apply length_seqZ. }
  unfold dim0, dim1, dim2.
  rewrite (draws_fold _ _ _ (weights st) 0).
  - rewrite Hcl, take_0, Nat.add_0_l, <- Hlen, drop_all, app_nil_r. done.
  - done.
  - rewrite Hcl, Hidx. f_equal. assert (0 ≤ _size (weights st)) by nia. lia.
  - rewrite Hcl, Hlen. lia.
Qed.

Lemma small_randomization_draws_in_raster_order_witness :
  let st := Toy.fresh in
  let st' := @small_randomization Toy.cxx Toy.cfg 0 st in
  _mat3D (weights st') =
    draws (@uniform_real_distribution Toy.cxx 0%Qc EPS)
      (@mt19937_seed Toy.cxx (seed Toy.cfg 0))
      (Z.to_nat (size (weights st))) ∧
  content st' = content st ∧ filter st' = filter st ∧
  _track_void st' = _track_void st ∧ _track_cluster st' = _track_cluster st ∧
  _cluster_tracking_is_on st' = _cluster_tracking_is_on st.
Proof.
  exact (@small_randomization_draws_in_raster_order Toy.cxx Toy.cfg 0
           Toy.fresh (proj1 (proj1 toy_fresh_inv))).
Defined.

(** ** Balancing and safety of the toggles *)



(** X27.  The phases cannot trigger the exception of set_pixel.  On an
    engine whose void set is sound, the voxel max_void returns is off, so
    set_pixel on it does not throw (the pattern of reorder_bitmap and
    phase_2_and_3); and on any engine set_pixel on a voxel right after
    reset_pixel on the same voxel does not throw (the pattern of
    rank_initial_bitmap). *)
Theorem phases_never_hit_already_set (st : tracking) :
  state_ok st → void_sound st →
  (∀ t v, max_void st = Ok t → (set_pixel t v st).1 = Ok tt) ∧
  (∀ t v, (set_pixel t v (reset_pixel t st)).1 = Ok tt).
Proof.
  intros Hok Hvs. split.
  - intros t v Hmax. unfold max_void in Hmax.
    destruct (set_cbegin (_track_void st)) as [e|] eqn:He; [|done].
    injection Hmax as <-.
    destruct (set_cbegin_min _ _ (proj1 Hvs) He) as [Hin _].
    destruct (proj2 Hvs e Hin) as (Hr & Hz & _).
    destruct Hok as (Hc & Hw & Hd).
    assert (_size (weights st) = _size (content st)) as Es by apply Hd.
    rewrite set_pixel_run; [done|].
    unfold at_. rewrite T3_to_idx_idx_to_T3 by (done || lia).
    rewrite Hz. apply (irreflexivity Qclt).
  - intros t v. rewrite set_pixel_run; [done|].
    rewrite reset_pixel_content by done. unfold at_.
    rewrite (T3_to_idx_dims _ (content st)) by apply set_at_same_dims.
    pose proof (T3_to_idx_range (content st) t (proj1 Hok)) as Hr.
    rewrite at_idx_set_at by (apply Hok || lia).
    rewrite decide_True by done. apply (irreflexivity Qclt).
Qed.

Lemma phases_never_hit_already_set_witness :
  (∀ t v, max_void Toy.one_on = Ok t → (set_pixel t v Toy.one_on).1 = Ok tt) ∧
  (∀ t v, (set_pixel t v (reset_pixel t Toy.one_on)).1 = Ok tt).
Proof.
  pose proof toy_one_on_inv as (Hok & _ & Hvs & _).
  exact (phases_never_hit_already_set Toy.one_on Hok Hvs).
Defined.

Lemma kern_nonneg f m r i :
  (∀ g, g ∈ cells (dim0 f) (dim1 f) (dim2 f) → (0 ≤ get f g)%Qc) →
  (0 ≤ kern f m r i)%Qc.
Proof.
  intros Hpos. rewrite kern_unfold. apply sumQc_nonneg.
  intros x Hx. apply list_elem_of_fmap in Hx as (g & -> & Hg).
  case_decide; [by apply Hpos|done].
Qed.

(** X28.  With the Gaussian kernel and a positive exp, set_pixel lowers no
    energy and strictly raises the energy of the voxel it turns on, and
    reset_pixel raises no energy and strictly lowers the energy of the voxel
    it turns off. *)
Theorem toggles_move_energies_one_way `{Cxx} (t : T3) (v : Qc) (st : tracking)
    (size : Z) (sigma : Qc) :
  state_ok st → GaussianMatrix size sigma = Ok (filter st) →
  (∀ x, 0 < expf x)%Qc →
  let c := T3_to_idx (content st) t in
  (∀ i, 0 ≤ i →
        (at_idx (weights st) i ≤ at_idx (weights (toggled_on t v st)) i)%Qc ∧
        (at_idx (weights (reset_pixel t st)) i ≤ at_idx (weights st) i)%Qc) ∧
  (at_idx (weights st) c < at_idx (weights (toggled_on t v st)) c)%Qc ∧
  (at_idx (weights (reset_pixel t st)) c < at_idx (weights st) c)%Qc.
Proof.
  intros Hok Hg Hexp c.
  assert (∀ g, g ∈ cells (dim0 (filter st)) (dim1 (filter st))
                  (dim2 (filter st)) → (0 < get (filter st) g)%Qc) as Hpos.
  { intros g Hgc.
    destruct (decide (Z.rem size 2 = 1)) as [Hs|Hs].
    2: { by rewrite GaussianMatrix_fail in Hg. }
    destruct (GaussianMatrix_ok size sigma Hs)
      as (g' & Hg' & _ & E0 & E1 & E2 & Hget).
    rewrite Hg in Hg'. injection Hg' as <-.
    rewrite E0, E1, E2 in Hgc. rewrite (Hget _ Hgc). apply Hexp. }
  pose proof (GaussianMatrix_sym _ _ _ Hg) as (Hf & _).
  pose proof (T3_to_idx_range (content st) t (proj1 Hok)) as Hc.
  pose proof (kern_self_pos (filter st) (content st) t (proj1 Hok) Hf Hpos)
    as Hself.
  fold c in Hc, Hself.
  assert (∀ x k : Qc, (0 ≤ k → x ≤ x + k)%Qc) as Hle.
  { intros x k Hk. rewrite <- (Qcplus_0_r x) at 1.
    by apply Qcplus_le_compat; [apply Qcle_refl|]. }
  assert (∀ x k : Qc, (0 < k → x < x + k)%Qc) as Hlt.
  { intros x k Hk. rewrite <- (Qcplus_0_r x) at 1.
    by apply (proj1 (Qcplus_lt_mono_l 0 k x)). }
  assert (∀ x k : Qc, (x - k + k = x)%Qc) as Hsub by (intros; ring).
  split; [|split].
  - intros i Hi.
    rewrite toggled_on_weights, reset_pixel_weights by done.
    pose proof (kern_nonneg (filter st) (content st) t i
                  (λ g Hgc, Qclt_le_weak _ _ (Hpos g Hgc))) as Hk.
    split; [by apply Hle|].
    rewrite <- (Hsub (at_idx (weights st) i)
                  (kern (filter st) (content st) t i)) at 2.
    by apply Hle.
  - rewrite toggled_on_weights by (done || lia). by apply Hlt.
  - rewrite reset_pixel_weights by (done || lia).
    rewrite <- (Hsub (at_idx (weights st) c)
                  (kern (filter st) (content st) t c)) at 2.
    by apply Hlt.
Qed.

Lemma toggles_move_energies_one_way_witness :
  let st := Toy.fresh in
  let c := T3_to_idx (content st) Toy.origin in
  (∀ i, 0 ≤ i →
        (at_idx (weights st) i
           ≤ at_idx (weights (toggled_on Toy.origin 1 st)) i)%Qc ∧
        (at_idx (weights (reset_pixel Toy.origin st)) i
           ≤ at_idx (weights st) i)%Qc) ∧
  (at_idx (weights st) c < at_idx (weights (toggled_on Toy.origin 1 st)) c)%Qc ∧
  (at_idx (weights (reset_pixel Toy.origin st)) c < at_idx (weights st) c)%Qc.
Proof.
  exact (@toggles_move_energies_one_way Toy.cxx Toy.origin 1%Qc Toy.fresh 3
           1%Qc (proj1 (proj1 toy_fresh_inv)) (proj2 toy_fresh_inv)
           toy_bump_pos).
Defined.
